(** * Interactive Square Finder: a shallow embedding of [src/App.jsx]

    The component steps through every unordered pair of a fixed list of
    lattice points, rotates the edge vector by +90 and -90 degrees, looks the
    candidate corners up in a set of coordinate keys and keeps a registry of
    normalized square keys.

    Modelling choices, all taken from the source:
    - a coordinate is a JS number holding an integer: a double.  It is
      modelled by the integer it holds, a [Z]; [+] and [-] give the exact sum
      or difference rounded to the nearest double, ties to the even
      significand ([fl] below), which is the exact result up to [2^53] in
      magnitude and a neighbour of it beyond.  The data model of the
      specification has safe integers, so no value of a step exceeds [2^55];
      the overflow to [Infinity] near [2^1024] is not modelled.  The JS value
      [-0] of [rotLeft(dx, 0).x] is [0], which is also what the template
      literal of [keyOf] prints for it;
    - the template literal [`${p.x},${p.y}`] prints an integer below [10^21]
      in magnitude in decimal, with a leading minus sign for negatives:
      stdpp's [pretty] on [Z];
    - [Set<string>] is [gset string]: the code only uses [has], [add],
      [clear], [size] and the copy constructor, none of which observes the
      insertion order;
    - [Array.prototype.sort()] without comparator orders strings by their
      code units: [merge_sort] over [String.le];
    - reading [pairs[k]] out of range gives [undefined], and destructuring
      [undefined] throws a [TypeError]: the [result] type below;
    - [x % 0] is [NaN]: the [num] type below;
    - [pairs] and [membership] are memoised on [points] and are functions of
      it, so the memo is not visible; [info] is memoised on [step] and
      [points] while it also reads the two refs, so its memo is: [render]
      below keeps the value of the render before when neither changed. *)

From stdpp Require Import base numbers list sorting gmap sets strings pretty.
From Stdlib Require Import ZArith Lia Ascii.

Local Open Scope Z_scope.

(* [set_solver] clears hypotheses by name and warns when one is absent. *)
Set Warnings "-clear-no-such-hyp".

(** ** Utility types *)

Module Pt.
Record t := mk { x : Z; y : Z; id : string }.
End Pt.
Abbreviation Pt := Pt.t.

Module Pair.
Record t := mk { i : nat; j : nat }.
End Pair.
Abbreviation Pair := Pair.t.

Module StepInfo.
Record t := mk {
  pair : Pair;
  A : Pt; B : Pt;
  dx : Z; dy : Z;
  ldx : Z; ldy : Z;           (* +90 *)
  rdx : Z; rdy : Z;           (* -90 *)
  C : Pt; D : Pt;             (* left-rotation candidates *)
  C2 : Pt; D2 : Pt;           (* right-rotation candidates *)
  leftOK : bool; rightOK : bool;
  newlyAddedSquares : list string;  (* normalized keys added on this step *)
  uniqueCount : nat
}.
End StepInfo.
Abbreviation StepInfo := StepInfo.t.

Global Instance Pt_eq_dec : EqDecision Pt.
Proof. solve_decision. Defined.

Global Instance Pair_eq_dec : EqDecision Pair.
Proof. solve_decision. Defined.

(** A JS number that holds a step index: an integer, or [NaN]. *)
Inductive num := Int (z : Z) | NaN.

Global Instance num_eq_dec : EqDecision num.
Proof. solve_decision. Defined.

(** The remainder operator [%] on integers: the sign follows the dividend,
    and a zero divisor gives [NaN]. *)
Definition js_rem (a b : Z) : num :=
  if decide (b = 0) then NaN else Int (Z.rem a b).

(** The double nearest to an integer, ties to the even significand: below
    [2^53] in magnitude every integer is a double; from [2^k] up to
    [2^(k+1)] the doubles are the multiples of [2^(k-52)]. *)
Definition fl (z : Z) : Z :=
  let a := Z.abs z in
  if decide (a < 2 ^ 53) then z
  else
    let u := 2 ^ (Z.log2 a - 52) in
    let q := a `div` u in
    let r := a `mod` u in
    let q' := if decide (2 * r < u) then q
              else if decide (u < 2 * r) then q + 1
              else if Z.even q then q else q + 1 in
    Z.sgn z * (q' * u).

(** The operators [+] and [-] on numbers that hold integers. *)
Definition js_add (a b : Z) : Z := fl (a + b).
Definition js_sub (a b : Z) : Z := fl (a - b).

(** Outcome of running a piece of the component: a value, the [TypeError] of
    reading a property of [undefined], or the recursion budget of the model
    running out. *)
Inductive result (T : Type) :=
  | Ok (v : T)
  | TypeError
  | OutOfFuel.
Arguments Ok {T} v.
Arguments TypeError {T}.
Arguments OutOfFuel {T}.

Global Instance result_ret : MRet result := λ T v, Ok v.

Global Instance result_bind : MBind result := λ T U f r,
  match r with
  | Ok v => f v
  | TypeError => TypeError
  | OutOfFuel => OutOfFuel
  end.

(** Reading [o.f] where [o] came out of an array access. *)
Definition defined {T} (o : option T) : result T :=
  match o with Some v => Ok v | None => TypeError end.

(** [arr[k]] for a number [k] that holds an integer. *)
Definition at_index {T} (arr : list T) (k : Z) : option T :=
  if decide (0 ≤ k) then arr !! Z.to_nat k else None.

(** A [for]/[forEach] loop whose body may throw. *)
Fixpoint for_each {T S} (l : list T) (body : S → T → result S) (s : S) : result S :=
  match l with
  | [] => Ok s
  | t :: l' => s' ← body s t ; for_each l' body s'
  end.

(** ** Sample dataset *)

Definition axisAligned : list Pt :=
  [ Pt.mk 1 1 "P0"; Pt.mk 3 1 "P1"; Pt.mk 3 3 "P2"; Pt.mk 1 3 "P3";
    Pt.mk 6 3 "P4"; Pt.mk 7 2 "P5"; Pt.mk 6 1 "P6"; Pt.mk 5 2 "P7";
    Pt.mk 0 0 "P8"; Pt.mk 4 0 "P9"; Pt.mk 8 3 "P10"; Pt.mk 2 4 "P11" ].

(** ** Helpers *)

Definition keyOf (p : Pt) : string :=
  pretty (Pt.x p) +:+ "," +:+ pretty (Pt.y p).

(** [Array.prototype.join]. *)
Fixpoint join (sep : string) (l : list string) : string :=
  match l with
  | [] => ""
  | [s] => s
  | s :: l' => s +:+ sep +:+ join sep l'
  end.

Definition normalizeSquareKey (pts : list Pt) : string :=
  join "|" (merge_sort String.le (keyOf <$> pts)).

(** Rotation by +90: (-dy, dx), by -90: (dy, -dx).  The object returned has
    the fields [x] and [y] only. *)
Definition rotLeft (dx dy : Z) : Z * Z := (- dy, dx).
Definition rotRight (dx dy : Z) : Z * Z := (dy, - dx).

(** ** Main component *)

(** The O(n^2) pair list of the current point sequence: the two nested
    [for] loops, each [push] appending at the end. *)
Definition pairs (points : list Pt) : list Pair :=
  let n := length points in
  foldl (λ ps i,
           foldl (λ ps j, ps ++ [Pair.mk i j]) ps (seq (i + 1) (n - (i + 1))))
        [] (seq 0 n).

(** The membership set of the current point sequence. *)
Definition membership (points : list Pt) : gset string :=
  foldl (λ s p, {[ keyOf p ]} ∪ s) ∅ points.

(** [carrySquares.has(k) ? nothing : (carrySquares.add(k), newly.push(k))] *)
Definition add_new (key : string) (st : gset string * list string)
    : gset string * list string :=
  if decide (key ∈ st.1) then st else ({[ key ]} ∪ st.1, st.2 ++ [key]).

Section computeStep.
(** What the closure of [computeStep] captures. *)
Variable points : list Pt.
Variable pairs : list Pair.
Variable membership : gset string.

(** [computeStep(k, carrySquares, alreadySeenIndex)].  The set passed in is
    mutated in place, so the model returns it next to the [StepInfo].
    [computeStep] and [computeStepOnce] call each other; [fuel] bounds the
    number of nested activations of [computeStep]. *)
Fixpoint computeStep (fuel : nat) (k : Z) (carrySquares : gset string)
    (alreadySeenIndex : Z) : result (StepInfo * gset string) :=
  match fuel with
  | O => OutOfFuel
  | S fuel =>
    let computeStepOnce (k : Z) : result (StepInfo * gset string) :=
      computeStep fuel k ∅ (-1) in
    p ← defined (at_index pairs k) ;
    let i := Pair.i p in
    let j := Pair.j p in
    A ← defined (points !! i) ;
    B ← defined (points !! j) ;
    let dx := js_sub (Pt.x B) (Pt.x A) in
    let dy := js_sub (Pt.y B) (Pt.y A) in
    let L := rotLeft dx dy in
    let R := rotRight dx dy in
    let C := Pt.mk (js_add (Pt.x A) L.1) (js_add (Pt.y A) L.2) "C" in
    let D := Pt.mk (js_add (Pt.x B) L.1) (js_add (Pt.y B) L.2) "D" in
    let C2 := Pt.mk (js_add (Pt.x A) R.1) (js_add (Pt.y A) R.2) "C'" in
    let D2 := Pt.mk (js_add (Pt.x B) R.1) (js_add (Pt.y B) R.2) "D'" in
    let leftOK :=
      bool_decide (keyOf C ∈ membership) && bool_decide (keyOf D ∈ membership) in
    let rightOK :=
      bool_decide (keyOf C2 ∈ membership) && bool_decide (keyOf D2 ∈ membership) in
    let st := (carrySquares, []) in
    let st := if leftOK then add_new (normalizeSquareKey [A; B; C; D]) st else st in
    let st := if rightOK then add_new (normalizeSquareKey [A; B; C2; D2]) st else st in
    let newly := st.2 in
    (* If we rewound (k <= alreadySeenIndex), recompute set from scratch up to k *)
    carrySquares ←
      (if decide (k ≤ alreadySeenIndex) then
         for_each (seqZ 0 (k + 1))
           (λ carry t,
              tmp ← computeStepOnce t ;
              Ok (foldl (λ c s, {[ s ]} ∪ c) carry
                        (StepInfo.newlyAddedSquares tmp.1)))
           ∅
       else Ok st.1) ;
    Ok (StepInfo.mk (Pair.mk i j) A B dx dy L.1 L.2 R.1 R.2 C D C2 D2
          leftOK rightOK newly (size carrySquares),
        carrySquares)
  end.

(** Helper used when rebuilding squares up to a step index. *)
Definition computeStepOnce (fuel : nat) (k : Z) : result (StepInfo * gset string) :=
  computeStep fuel k ∅ (-1).
End computeStep.

(** The component's own [computeStep]: the closure over the current point
    sequence and the two values memoised from it.  Two nested activations are
    all the code ever needs (see [computeStep_fuel] below). *)
Definition computeStepOf (points : list Pt) (k : Z) (carrySquares : gset string)
    (alreadySeenIndex : Z) : result (StepInfo * gset string) :=
  computeStep points (pairs points) (membership points) 2 k carrySquares alreadySeenIndex.

(** The state of the component: [useState] cells and the two refs. *)
Record State := mkState {
  points : list Pt;
  playing : bool;
  speed : Z;
  step : num;
  uniqueSquaresRef : gset string;
  seenUpToRef : Z
}.

(** State on mount over a point sequence. *)
Definition mount (pts : list Pt) : State :=
  mkState pts false 900 (Int 0) ∅ (-1).

(** [computeStep(step, ...)] where [step] is the state cell: [pairs[NaN]] is
    [undefined]. *)
Definition computeStepAt (s : State) (carry : gset string) : result (StepInfo * gset string) :=
  match step s with
  | Int k => computeStepOf (points s) k carry (seenUpToRef s)
  | NaN => TypeError
  end.

(** Materialize the current step info, on a clone of the live set: the
    function handed to [useMemo] at lines 135-140.  When it runs is the
    business of [render] below. *)
Definition info (s : State) : result StepInfo :=
  r ← computeStepAt s (uniqueSquaresRef s) ; Ok r.1.

Definition num_add (a : num) (b : Z) : num :=
  match a with Int z => Int (z + b) | NaN => NaN end.

Definition num_rem (a : num) (b : Z) : num :=
  match a with Int z => js_rem z b | NaN => NaN end.

(** [nextStep], returning also the [res] it computes.  The live set is the
    object handed to [computeStep], so it ends as [computeStep] leaves it. *)
Definition nextStepRes (s : State) : result (StepInfo * State) :=
  '(res, live) ← computeStepAt s (uniqueSquaresRef s) ;
  match step s with
  | Int k =>
      Ok (res,
          mkState (points s) (playing s) (speed s)
            (num_rem (num_add (step s) 1) (Z.of_nat (length (pairs (points s)))))
            live (Z.max (seenUpToRef s) k))
  | NaN => TypeError
  end.

Definition nextStep (s : State) : result State :=
  r ← nextStepRes s ; Ok r.2.

Definition prevStep (s : State) : State :=
  let len := Z.of_nat (length (pairs (points s))) in
  mkState (points s) (playing s) (speed s)
    (num_rem (num_add (num_add (step s) (-1)) len) len)
    (uniqueSquaresRef s) (seenUpToRef s).

Definition reset (s : State) : State :=
  mkState (points s) false (speed s) (Int 0) ∅ (-1).

(** The control surface, and the timer tick of auto-play.  No handler calls
    [setPoints]. *)
Inductive action :=
  | NextStep
  | PrevStep
  | Reset
  | TogglePlaying
  | SetSpeed (ms : Z)
  | Tick.

Definition dispatch (a : action) (s : State) : result State :=
  match a with
  | NextStep => nextStep s
  | PrevStep => Ok (prevStep s)
  | Reset => Ok (reset s)
  | TogglePlaying =>
      Ok (mkState (points s) (negb (playing s)) (speed s) (step s)
            (uniqueSquaresRef s) (seenUpToRef s))
  | SetSpeed ms =>
      Ok (mkState (points s) (playing s) ms (step s)
            (uniqueSquaresRef s) (seenUpToRef s))
  | Tick => if playing s then nextStep s else Ok s
  end.


(** What is on screen after a render: the state it rendered, and the memo
    cell of [info] with the dependencies [step, points] it was computed
    for. *)
Record View := mkView {
  state : State;
  deps : num * list Pt;
  shown : StepInfo
}.

(** A render.  [useMemo] runs [info] on the first render and on a render in
    which [step] or [points] differs from the render before, and hands out
    the value it holds otherwise: the two refs are no dependencies.  React
    compares [points] by identity; the array is replaced by the setter only,
    so equality of the sequences serves.  A handler that changes no cell
    causes no render, which is the same as a render that keeps the memo.  An
    exception raised while rendering leaves no view. *)
Definition render (prev : option View) (s : State) : result View :=
  match prev with
  | Some v =>
      if decide (deps v = (step s, points s))
      then Ok (mkView s (deps v) (shown v))
      else I ← info s; Ok (mkView s (step s, points s) I)
  | None => I ← info s; Ok (mkView s (step s, points s) I)
  end.

(** The first render of the component over a point sequence. *)
Definition start (pts : list Pt) : result View := render None (mount pts).

(** A control action on what is on screen, and the render that follows. *)
Definition act (a : action) (v : View) : result View :=
  s' ← dispatch a (state v); render (Some v) s'.

Fixpoint session (acts : list action) (v : View) : result View :=
  match acts with
  | [] => Ok v
  | a :: acts => v' ← act a v; session acts v'
  end.

(** The component from its first render on. *)
Definition component (pts : list Pt) (acts : list action) : result View :=
  v ← start pts; session acts v.

(** [n] presses of "Step" in a row, with the [res] of each. *)
Fixpoint play (n : nat) (s : State) : result (list StepInfo * State) :=
  match n with
  | O => Ok ([], s)
  | S n =>
      '(res, s1) ← nextStepRes s;
      '(l, s2) ← play n s1;
      Ok (res :: l, s2)
  end.

(** ** Vocabulary of the statements *)

(** Geometric identity of a point: its coordinates, not its label. *)
Definition coords (p : Pt) : Z * Z := (Pt.x p, Pt.y p).

(** An integer that is a double, so that a JS number can hold it; the safe
    integers of the data model ([Number.isSafeInteger]); and the magnitude
    up to which no difference or sum of a step is rounded. *)
Definition double (z : Z) : Prop := fl z = z.
Definition doublePt (p : Pt) : Prop := double (Pt.x p) ∧ double (Pt.y p).

Definition safe (z : Z) : Prop := - 2 ^ 53 < z < 2 ^ 53.
Definition safePt (p : Pt) : Prop := safe (Pt.x p) ∧ safe (Pt.y p).

Definition exactPt (p : Pt) : Prop :=
  (- 2 ^ 51 ≤ Pt.x p ≤ 2 ^ 51) ∧ (- 2 ^ 51 ≤ Pt.y p ≤ 2 ^ 51).
Definition exact (pts : list Pt) : Prop := ∀ p, p ∈ pts → exactPt p.

Definition keyOfCoords (c : Z * Z) : string := pretty c.1 +:+ "," +:+ pretty c.2.

Definition toPt (c : Z * Z) : Pt := Pt.mk c.1 c.2 "".

(** Occurrence of a character in a string. *)
Fixpoint str_mem (c : ascii) (s : string) : Prop :=
  match s with
  | EmptyString => False
  | String a s' => a = c ∨ str_mem c s'
  end.

Definition separator (c : ascii) : Prop := c = ","%char ∨ c = "|"%char.

(** What a coordinate key looks like to [join]: no bar inside, not empty. *)
Definition is_key (s : string) : Prop := ¬ str_mem "|" s ∧ s ≠ "".

(** The pair enumeration in the words of its contract: for [i] from [0] to
    [n-1], for [j] from [i+1] to [n-1]. *)
Definition enumerate (n : nat) : list Pair :=
  i ← seq 0 n; Pair.mk i <$> seq (i + 1) (n - (i + 1)).

(** Lexicographic order on pairs. *)
Definition lex_lt (p q : Pair) : Prop :=
  (Pair.i p < Pair.i q ∨ (Pair.i p = Pair.i q ∧ Pair.j p < Pair.j q))%nat.

(** A step index that names a pair. *)
Definition valid (pts : list Pt) (k : Z) : Prop :=
  0 ≤ k < Z.of_nat (length (pairs pts)).

(** The edge vector of a step, as the code computes it. *)
Definition edge (A B : Pt) : Z * Z :=
  (js_sub (Pt.x B) (Pt.x A), js_sub (Pt.y B) (Pt.y A)).

(** The four candidates of an edge, and the two verdicts. *)
Definition candC (A B : Pt) : Pt :=
  Pt.mk (js_add (Pt.x A) (- (edge A B).2)) (js_add (Pt.y A) (edge A B).1) "C".
Definition candD (A B : Pt) : Pt :=
  Pt.mk (js_add (Pt.x B) (- (edge A B).2)) (js_add (Pt.y B) (edge A B).1) "D".
Definition candC2 (A B : Pt) : Pt :=
  Pt.mk (js_add (Pt.x A) (edge A B).2) (js_add (Pt.y A) (- (edge A B).1)) "C'".
Definition candD2 (A B : Pt) : Pt :=
  Pt.mk (js_add (Pt.x B) (edge A B).2) (js_add (Pt.y B) (- (edge A B).1)) "D'".

Definition leftOKof (mem : gset string) (A B : Pt) : bool :=
  bool_decide (keyOf (candC A B) ∈ mem) && bool_decide (keyOf (candD A B) ∈ mem).
Definition rightOKof (mem : gset string) (A B : Pt) : bool :=
  bool_decide (keyOf (candC2 A B) ∈ mem) && bool_decide (keyOf (candD2 A B) ∈ mem).

Definition leftKey (A B : Pt) : string :=
  normalizeSquareKey [A; B; candC A B; candD A B].
Definition rightKey (A B : Pt) : string :=
  normalizeSquareKey [A; B; candC2 A B; candD2 A B].

(** The square keys an edge confirms, left rotation first. *)
Definition confirmed (mem : gset string) (A B : Pt) : list string :=
  (if leftOKof mem A B then [leftKey A B] else [])
  ++ (if rightOKof mem A B then [rightKey A B] else []).

(** The square keys a [StepInfo] confirms, read off its fields the way the
    renderer does. *)
Definition confirmedBy (info : StepInfo) : list string :=
  (if StepInfo.leftOK info
   then [normalizeSquareKey [StepInfo.A info; StepInfo.B info;
                             StepInfo.C info; StepInfo.D info]] else [])
  ++ (if StepInfo.rightOK info
      then [normalizeSquareKey [StepInfo.A info; StepInfo.B info;
                                StepInfo.C2 info; StepInfo.D2 info]] else []).

Definition addKeys (keys : list string) (st : gset string * list string)
    : gset string * list string :=
  foldl (λ st key, add_new key st) st keys.

(** The record [computeStep] returns for an edge, given the list of new keys
    and the count. *)
Definition stepInfoOf (mem : gset string) (p : Pair) (A B : Pt)
    (newly : list string) (count : nat) : StepInfo :=
  let dx := (edge A B).1 in
  let dy := (edge A B).2 in
  StepInfo.mk (Pair.mk (Pair.i p) (Pair.j p)) A B dx dy (- dy) dx dy (- dx)
    (candC A B) (candD A B) (candC2 A B) (candD2 A B)
    (leftOKof mem A B) (rightOKof mem A B) newly count.

(** The pair of step [k] with its two end points. *)
Definition pairAt (pts : list Pt) (ps : list Pair) (k : Z) : option (Pair * Pt * Pt) :=
  p ← at_index ps k;
  A ← pts !! Pair.i p;
  B ← pts !! Pair.j p;
  Some (p, A, B).

(** The keys step [k] confirms, and the registry of steps [0..k]. *)
Definition keysAt (pts : list Pt) (ps : list Pair) (mem : gset string) (k : Z)
    : list string :=
  match pairAt pts ps k with
  | Some (p, A, B) => confirmed mem A B
  | None => []
  end.

Definition registryUpTo (pts : list Pt) (ps : list Pair) (mem : gset string) (k : Z)
    : gset string :=
  list_to_set (seqZ 0 (k + 1) ≫= keysAt pts ps mem).

(** The [StepInfo] of step [k] in a forward run from the mounted state. *)
Definition forwardInfo (pts : list Pt) (k : Z) : option StepInfo :=
  '(p, A, B) ← pairAt pts (pairs pts) k;
  let mem := membership pts in
  let before := registryUpTo pts (pairs pts) mem (k - 1) in
  Some (stepInfoOf mem p A B
          (addKeys (confirmed mem A B) (before, [])).2
          (size (registryUpTo pts (pairs pts) mem k))).

(** Squares on the lattice: a corner [P] and a non-zero side vector [v];
    the corners are [P], [P+v], [P+v+rot v], [P+rot v]. *)
Definition vadd (p v : Z * Z) : Z * Z := (p.1 + v.1, p.2 + v.2).
Definition rot (v : Z * Z) : Z * Z := (- v.2, v.1).

Definition corners (sq : (Z * Z) * (Z * Z)) : list (Z * Z) :=
  let '(P, v) := sq in
  [P; vadd P v; vadd (vadd P v) (rot v); vadd P (rot v)].

Definition square_in (pts : list Pt) (sq : (Z * Z) * (Z * Z)) : Prop :=
  sq.2 ≠ (0, 0) ∧ ∀ c, c ∈ corners sq → c ∈ coords <$> pts.

(** Two presentations of one square: the same set of corners. *)
Definition same_square (sq1 sq2 : (Z * Z) * (Z * Z)) : Prop :=
  ∀ c, c ∈ corners sq1 ↔ c ∈ corners sq2.

Definition keyOfSquare (sq : (Z * Z) * (Z * Z)) : string :=
  normalizeSquareKey (toPt <$> corners sq).

(** [n] is the number of distinct squares with all four corners among
    [pts]: some list of [n] such squares has no two entries that are the
    same square and misses no square. *)
Definition counts_squares (pts : list Pt) (n : nat) : Prop :=
  ∃ reps : list ((Z * Z) * (Z * Z)),
    length reps = n
    ∧ Forall (square_in pts) reps
    ∧ (∀ a b sa sb, reps !! a = Some sa → reps !! b = Some sb →
         same_square sa sb → a = b)
    ∧ (∀ sq, square_in pts sq → ∃ r, r ∈ reps ∧ same_square sq r).

Definition stepAfter (pts : list Pt) (a : Z) : num :=
  if decide (a < Z.of_nat (length (pairs pts))) then Int a else Int 0.

Definition stateAfter (pts : list Pt) (pl : bool) (sp : Z) (a : Z) : State :=
  mkState pts pl sp (stepAfter pts a)
    (registryUpTo pts (pairs pts) (membership pts) (a - 1)) (a - 1).

(** Two small point sets of the statements: the square of side 2, and a
    point given twice. *)
Definition unitSquare : list Pt :=
  [ Pt.mk 1 1 "P0"; Pt.mk 3 1 "P1"; Pt.mk 3 3 "P2"; Pt.mk 1 3 "P3" ].

Definition duplicated : list Pt := [ Pt.mk 1 1 "P0"; Pt.mk 1 1 "P1" ].

(** A rectangle of safe integers, [2^54-3] wide and [2^54-4] high, and three
    points that hold no square. *)
Definition wideRectangle : list Pt :=
  [ Pt.mk (-9007199254740990) (-9007199254740991) "P0";
    Pt.mk 9007199254740991 (-9007199254740991) "P1";
    Pt.mk 9007199254740991 9007199254740989 "P2";
    Pt.mk (-9007199254740990) 9007199254740989 "P3" ].


(** ** Runs of the controls, and counting confirmations *)

(** A sequence of control actions, stopping at the first exception. *)
Fixpoint run (acts : list action) (s : State) : result State :=
  match acts with
  | [] => Ok s
  | a :: acts => s' ← dispatch a s; run acts s'
  end.

(** The keys that the steps of a point sequence can confirm at all. *)
Definition allKeys (pts : list Pt) : gset string :=
  registryUpTo pts (pairs pts) (membership pts) (Z.of_nat (length (pairs pts)) - 1).

(** What every state reached through the controls satisfies. *)
Definition wellFormed (s : State) : Prop :=
  (∃ k, step s = Int k ∧ valid (points s) k)
  ∧ -1 ≤ seenUpToRef s < Z.of_nat (length (pairs (points s)))
  ∧ uniqueSquaresRef s ⊆ allKeys (points s).

(** A [StepInfo] of the pair of step [k], whatever its list of new keys,
    with a count within the keys that the steps can confirm. *)
Definition belongsTo (pts : list Pt) (k : Z) (I : StepInfo) : Prop :=
  ∃ p A B newly count,
    pairAt pts (pairs pts) k = Some (p, A, B)
    ∧ I = stepInfoOf (membership pts) p A B newly count
    ∧ (count ≤ size (allKeys pts))%nat.

(** What every view reached from the first render satisfies: the memo cell
    is for the current step index and points, and holds a [StepInfo] of that
    step. *)
Definition viewOK (v : View) : Prop :=
  wellFormed (state v)
  ∧ deps v = (step (state v), points (state v))
  ∧ ∃ k, step (state v) = Int k ∧ belongsTo (points (state v)) k (shown v).

(** Two states that differ in the playback flag and speed only. *)
Definition sameTracker (s1 s2 : State) : Prop :=
  points s1 = points s2 ∧ step s1 = step s2
  ∧ uniqueSquaresRef s1 = uniqueSquaresRef s2 ∧ seenUpToRef s1 = seenUpToRef s2.

(** The new keys of step [t] in a forward run. *)
Definition newlyAt (pts : list Pt) (t : Z) : list string :=
  (addKeys (keysAt pts (pairs pts) (membership pts) t)
     (registryUpTo pts (pairs pts) (membership pts) (t - 1), [])).2.

(** The keys confirmed on the edge of a pair of indices. *)
Definition edgeKeys (pts : list Pt) (p : Pair) : list string :=
  match pts !! Pair.i p, pts !! Pair.j p with
  | Some A, Some B => confirmed (membership pts) A B
  | _, _ => []
  end.

(** The pair of two different indices, smaller index first. *)
Definition ordered (a b : nat) : Pair := Pair.mk (a `min` b) (a `max` b).

(** Number of occurrences in a list. *)
Definition occ (x : string) (l : list string) : nat := length (filter (x =.) l).

(** ** The Java reference of the walkthrough panel

    [countSquares] as the [code] constant of [JavaBlock] gives it.  Java's
    [int] and [long] arithmetic wraps around; [pts.get(i)] out of range
    throws, which is [None] here; [P] is compared by [x] and [y], so a
    [HashSet<P>] is a set of coordinate pairs. *)

Definition int32 (z : Z) : Z := (z + 2 ^ 31) `mod` 2 ^ 32 - 2 ^ 31.
Definition int64 (z : Z) : Z := (z + 2 ^ 63) `mod` 2 ^ 64 - 2 ^ 63.

(** A [for] loop whose body may throw. *)
Fixpoint java_for {T S} (l : list T) (body : S → T → option S) (s : S) : option S :=
  match l with
  | [] => Some s
  | t :: l' => s' ← body s t; java_for l' body s'
  end.

Definition countSquares (pts : list (Z * Z)) : option Z :=
  let S : gset (Z * Z) := list_to_set pts in
  let n := length pts in
  hits ←
    java_for (seq 0 n)
      (λ hits i,
         a ← pts !! i;
         java_for (seq (i + 1) (n - (i + 1)))
           (λ hits j,
              b ← pts !! j;
              let dx := int32 (b.1 - a.1) in
              let dy := int32 (b.2 - a.2) in
              if decide (dx = 0 ∧ dy = 0) then Some hits
              else
                let c1 := (int32 (a.1 - dy), int32 (a.2 + dx)) in
                let d1 := (int32 (b.1 - dy), int32 (b.2 + dx)) in
                let hits :=
                  if decide (c1 ∈ S ∧ d1 ∈ S) then int64 (hits + 1) else hits in
                let c2 := (int32 (a.1 + dy), int32 (a.2 - dx)) in
                let d2 := (int32 (b.1 + dy), int32 (b.2 - dx)) in
                let hits :=
                  if decide (c2 ∈ S ∧ d2 ∈ S) then int64 (hits + 1) else hits in
                Some hits)
           hits)
      0;
  Some (int32 (hits `quot` 4)).

(** Coordinates small enough for the differences and sums of the reference
    to stay within [int]. *)
Definition small (pts : list Pt) : Prop :=
  ∀ p, p ∈ pts → - 2 ^ 29 ≤ Pt.x p < 2 ^ 29 ∧ - 2 ^ 29 ≤ Pt.y p < 2 ^ 29.

(** The bodies of the two loops of [countSquares], named. *)
Definition countSquares_inner (pts : list (Z * Z)) (a : Z * Z) (hits : Z) (j : nat)
    : option Z :=
  let S : gset (Z * Z) := list_to_set pts in
  b ← pts !! j;
  let dx := int32 (b.1 - a.1) in
  let dy := int32 (b.2 - a.2) in
  if decide (dx = 0 ∧ dy = 0) then Some hits
  else
    let c1 := (int32 (a.1 - dy), int32 (a.2 + dx)) in
    let d1 := (int32 (b.1 - dy), int32 (b.2 + dx)) in
    let hits := if decide (c1 ∈ S ∧ d1 ∈ S) then int64 (hits + 1) else hits in
    let c2 := (int32 (a.1 + dy), int32 (a.2 - dx)) in
    let d2 := (int32 (b.1 + dy), int32 (b.2 - dx)) in
    let hits := if decide (c2 ∈ S ∧ d2 ∈ S) then int64 (hits + 1) else hits in
    Some hits.

Definition countSquares_outer (pts : list (Z * Z)) (hits : Z) (i : nat) : option Z :=
  a ← pts !! i;
  java_for (seq (i + 1) (length pts - (i + 1))) (countSquares_inner pts a) hits.

(** * Proofs *)

(** ** Arithmetic on doubles *)

Lemma fl_small z : Z.abs z < 2 ^ 53 → fl z = z.
Proof. intros Hz. unfold fl. by rewrite decide_True. Qed.

Lemma fl_opp z : fl (- z) = - fl z.
Proof.
  unfold fl. rewrite Z.abs_opp, Z.sgn_opp.
  case_decide; [done|]. cbv zeta. lia.
Qed.

(** Rounding a non-negative integer within its binade. *)
Lemma fl_binade a k :
  53 ≤ k → 2 ^ k ≤ a < 2 ^ (k + 1) →
  ∃ q q', fl a = q' * 2 ^ (k - 52)
          ∧ q = a `div` 2 ^ (k - 52)
          ∧ 2 ^ 52 ≤ q < 2 ^ 53
          ∧ q ≤ q' ≤ q + 1
          ∧ q' = (if decide (2 * (a `mod` 2 ^ (k - 52)) < 2 ^ (k - 52)) then q
                  else if decide (2 ^ (k - 52) < 2 * (a `mod` 2 ^ (k - 52))) then q + 1
                  else if Z.even q then q else q + 1).
Proof.
  intros Hk [Hlo Hhi].
  assert (H53 : 2 ^ 53 ≤ 2 ^ k) by (apply Z.pow_le_mono_r; lia).
  assert (Ha : 0 < a) by lia.
  assert (Hlog : Z.log2 a = k) by (apply Z.log2_unique; lia).
  unfold fl. rewrite Z.abs_eq by lia. rewrite decide_False by lia.
  cbv zeta. rewrite Hlog, Z.sgn_pos, Z.mul_1_l by lia.
  set (u := 2 ^ (k - 52)).
  assert (Hu : 0 < u) by (apply Z.pow_pos_nonneg; lia).
  assert (Hku : 2 ^ k = 2 ^ 52 * u).
  { unfold u. rewrite <- Z.pow_add_r by lia. f_equal. lia. }
  assert (Hku1 : 2 ^ (k + 1) = 2 ^ 53 * u).
  { unfold u. rewrite <- Z.pow_add_r by lia. f_equal. lia. }
  assert (Hq1 : 2 ^ 52 ≤ a `div` u).
  { apply Z.div_le_lower_bound; lia. }
  assert (Hq2 : a `div` u < 2 ^ 53).
  { apply Z.div_lt_upper_bound; lia. }
  eexists (a `div` u), _. split; [reflexivity|].
  split; [done|]. split; [lia|]. split; [|done].
  repeat case_decide; try destruct (Z.even _); lia.
Qed.

Lemma fl_binade_bounds a k :
  53 ≤ k → 2 ^ k ≤ a < 2 ^ (k + 1) → 2 ^ k ≤ fl a ≤ 2 ^ (k + 1).
Proof.
  intros Hk Ha. destruct (fl_binade a k Hk Ha) as (q & q' & -> & _ & Hq & Hq' & _).
  assert (Hu : 0 < 2 ^ (k - 52)) by (apply Z.pow_pos_nonneg; lia).
  assert (Hku : 2 ^ k = 2 ^ 52 * 2 ^ (k - 52)).
  { rewrite <- Z.pow_add_r by lia. f_equal. lia. }
  assert (Hku1 : 2 ^ (k + 1) = 2 ^ 53 * 2 ^ (k - 52)).
  { rewrite <- Z.pow_add_r by lia. f_equal. lia. }
  rewrite Hku, Hku1. split; apply Z.mul_le_mono_nonneg_r; lia.
Qed.

Lemma fl_nonneg a : 0 ≤ a → 0 ≤ fl a.
Proof.
  intros Ha. destruct (decide (a < 2 ^ 53)) as [Hs|Hs].
  - rewrite fl_small; lia.
  - assert (H := Z.log2_spec a ltac:(lia)).
    assert (Hk : 53 ≤ Z.log2 a).
    { apply Z.log2_le_pow2; lia. }
    replace (Z.succ (Z.log2 a)) with (Z.log2 a + 1) in H by lia.
    pose proof (fl_binade_bounds a _ Hk H). lia.
Qed.

Lemma fl_mono_nonneg a b : 0 ≤ a → a ≤ b → fl a ≤ fl b.
Proof.
  intros Ha Hab.
  destruct (decide (b < 2 ^ 53)) as [Hb|Hb].
  { rewrite !fl_small; lia. }
  assert (Hlb := Z.log2_spec b ltac:(lia)).
  assert (Hkb : 53 ≤ Z.log2 b) by (apply Z.log2_le_pow2; lia).
  replace (Z.succ (Z.log2 b)) with (Z.log2 b + 1) in Hlb by lia.
  pose proof (fl_binade_bounds b _ Hkb Hlb) as Hfb.
  assert (H53 : 2 ^ 53 ≤ 2 ^ Z.log2 b) by (apply Z.pow_le_mono_r; lia).
  destruct (decide (a < 2 ^ 53)) as [Has|Has].
  { rewrite (fl_small a) by lia. lia. }
  assert (Hla := Z.log2_spec a ltac:(lia)).
  assert (Hka : 53 ≤ Z.log2 a) by (apply Z.log2_le_pow2; lia).
  replace (Z.succ (Z.log2 a)) with (Z.log2 a + 1) in Hla by lia.
  pose proof (fl_binade_bounds a _ Hka Hla) as Hfa.
  assert (Hkk : Z.log2 a ≤ Z.log2 b) by (apply Z.log2_le_mono; lia).
  destruct (decide (Z.log2 a = Z.log2 b)) as [Heq|Hne].
  - rewrite Heq in Hla.
    destruct (fl_binade a _ Hkb Hla) as (qa & qa' & -> & Hqa & _ & Hqa' & Hra).
    destruct (fl_binade b _ Hkb Hlb) as (qb & qb' & -> & Hqb & _ & Hqb' & Hrb).
    set (u := 2 ^ (Z.log2 b - 52)) in *.
    assert (Hu : 0 < u) by (apply Z.pow_pos_nonneg; lia).
    apply Z.mul_le_mono_nonneg_r; [lia|].
    assert (Hq : qa ≤ qb) by (subst qa qb; apply Z.div_le_mono; lia).
    destruct (decide (qa = qb)) as [Hqe|Hqn]; [|lia].
    assert (Hr : a `mod` u ≤ b `mod` u).
    { pose proof (Z.div_mod a u ltac:(lia)). pose proof (Z.div_mod b u ltac:(lia)).
      rewrite <- Hqa in *. rewrite <- Hqb in *. subst qb. nia. }
    rewrite Hra, Hrb, Hqe. repeat case_decide; try destruct (Z.even qb); lia.
  - assert (2 ^ (Z.log2 a + 1) ≤ 2 ^ Z.log2 b) by (apply Z.pow_le_mono_r; lia).
    lia.
Qed.

Lemma fl_mono a b : a ≤ b → fl a ≤ fl b.
Proof.
  intros Hab. destruct (decide (0 ≤ a)) as [Ha|Ha].
  - by apply fl_mono_nonneg.
  - destruct (decide (0 ≤ b)) as [Hb|Hb].
    + pose proof (fl_nonneg b Hb). pose proof (fl_nonneg (- a) ltac:(lia)) as Hn.
      rewrite fl_opp in Hn. lia.
    + pose proof (fl_mono_nonneg (- b) (- a) ltac:(lia) ltac:(lia)) as Hn.
      rewrite !fl_opp in Hn. lia.
Qed.

Lemma fl_exact z : - 2 ^ 53 ≤ z ≤ 2 ^ 53 → fl z = z.
Proof.
  intros Hz. destruct (decide (Z.abs z < 2 ^ 53)); [by apply fl_small|].
  assert (z = 2 ^ 53 ∨ z = - 2 ^ 53) as [->| ->] by lia; reflexivity.
Qed.

Lemma fl_zero z : fl z = 0 ↔ z = 0.
Proof.
  split; [|by intros ->].
  intros Hz. destruct (decide (z = 0)) as [|Hne]; [done|]. exfalso.
  destruct (decide (0 < z)).
  - pose proof (fl_mono 1 z ltac:(lia)) as H. rewrite (fl_exact 1) in H by lia. lia.
  - pose proof (fl_mono z (-1) ltac:(lia)) as H. rewrite (fl_exact (-1)) in H by lia.
    lia.
Qed.

(** Around a safe integer rounding keeps the two sides apart. *)
Lemma fl_apart a t : safe a → 0 < t → fl (a - t) < a < fl (a + t).
Proof.
  unfold safe. intros Ha Ht.
  pose proof (fl_mono (a - t) (a - 1) ltac:(lia)) as H1.
  pose proof (fl_mono (a + 1) (a + t) ltac:(lia)) as H2.
  rewrite (fl_exact (a - 1)) in H1 by lia. rewrite (fl_exact (a + 1)) in H2 by lia.
  lia.
Qed.

Lemma edge_exact (A B : Pt) :
  exactPt A → exactPt B → edge A B = (Pt.x B - Pt.x A, Pt.y B - Pt.y A).
Proof.
  unfold exactPt, edge, js_sub. intros [? ?] [? ?]. by rewrite !fl_exact by lia.
Qed.

Lemma candC_exact (A B : Pt) :
  exactPt A → exactPt B →
  coords (candC A B) = (Pt.x A - (Pt.y B - Pt.y A), Pt.y A + (Pt.x B - Pt.x A)).
Proof.
  intros HA HB. unfold candC, coords. rewrite (edge_exact A B HA HB).
  destruct HA as [? ?], HB as [? ?]. unfold js_add. cbn [fst snd Pt.x Pt.y].
  rewrite !fl_exact by lia. f_equal; lia.
Qed.

Lemma candD_exact (A B : Pt) :
  exactPt A → exactPt B →
  coords (candD A B) = (Pt.x B - (Pt.y B - Pt.y A), Pt.y B + (Pt.x B - Pt.x A)).
Proof.
  intros HA HB. unfold candD, coords. rewrite (edge_exact A B HA HB).
  destruct HA as [? ?], HB as [? ?]. unfold js_add. cbn [fst snd Pt.x Pt.y].
  rewrite !fl_exact by lia. f_equal; lia.
Qed.

Lemma candC2_exact (A B : Pt) :
  exactPt A → exactPt B →
  coords (candC2 A B) = (Pt.x A + (Pt.y B - Pt.y A), Pt.y A - (Pt.x B - Pt.x A)).
Proof.
  intros HA HB. unfold candC2, coords. rewrite (edge_exact A B HA HB).
  destruct HA as [? ?], HB as [? ?]. unfold js_add. cbn [fst snd Pt.x Pt.y].
  rewrite !fl_exact by lia. f_equal; lia.
Qed.

Lemma candD2_exact (A B : Pt) :
  exactPt A → exactPt B →
  coords (candD2 A B) = (Pt.x B + (Pt.y B - Pt.y A), Pt.y B - (Pt.x B - Pt.x A)).
Proof.
  intros HA HB. unfold candD2, coords. rewrite (edge_exact A B HA HB).
  destruct HA as [? ?], HB as [? ?]. unfold js_add. cbn [fst snd Pt.x Pt.y].
  rewrite !fl_exact by lia. f_equal; lia.
Qed.

(** Coinciding end points: the edge vector is zero and every candidate is
    the point itself. *)
Lemma edge_coinciding (A B : Pt) : coords A = coords B → edge A B = (0, 0).
Proof.
  intros [= Hx Hy]. unfold edge, js_sub. rewrite Hx, Hy, !Z.sub_diag. done.
Qed.

Lemma cand_coinciding (A B : Pt) :
  doublePt A → coords A = coords B →
  coords (candC A B) = coords A ∧ coords (candD A B) = coords A
  ∧ coords (candC2 A B) = coords A ∧ coords (candD2 A B) = coords A.
Proof.
  intros [Hx Hy] Heq. pose proof Heq as [= Hx' Hy']. unfold double in *.
  unfold candC, candD, candC2, candD2, coords, js_add.
  rewrite (edge_coinciding A B Heq). cbn [fst snd Pt.x Pt.y].
  rewrite <- Hx', <- Hy'.
  by rewrite !Z.add_0_r, !Hx, !Hy.
Qed.

Lemma safePt_doublePt (p : Pt) : safePt p → doublePt p.
Proof.
  unfold safePt, doublePt, safe, double. intros [? ?]. by rewrite !fl_exact by lia.
Qed.

Lemma exact_lookup (pts : list Pt) (i : nat) (A : Pt) :
  exact pts → pts !! i = Some A → exactPt A.
Proof. intros Hex HA. apply Hex. by eapply list_elem_of_lookup_2. Qed.

Lemma axisAligned_exact : exact axisAligned.
Proof.
  unfold exact. apply (proj1 (Forall_forall exactPt axisAligned)).
  unfold exactPt. repeat constructor; simpl; lia.
Qed.

Lemma exactPt_safePt (p : Pt) : exactPt p → safePt p.
Proof. unfold exactPt, safePt, safe. lia. Qed.

(** ** Coordinate keys and square keys *)

Lemma str_mem_app c s1 s2 :
  str_mem c (s1 +:+ s2) ↔ str_mem c s1 ∨ str_mem c s2.
Proof.
  induction s1 as [|a s1 IH]; simpl; [tauto|].
  change (String a s1 +:+ s2) with (String a (s1 +:+ s2)). simpl. tauto.
Qed.

Lemma app_sep_inj c s1 s2 t1 t2 :
  ¬ str_mem c s1 → ¬ str_mem c s2 →
  s1 +:+ String c t1 = s2 +:+ String c t2 → s1 = s2 ∧ t1 = t2.
Proof.
  revert s2. induction s1 as [|a s1 IH]; intros [|b s2] H1 H2 Heq.
  - by injection Heq.
  - injection Heq as -> _. destruct H2. by left.
  - injection Heq as -> _. destruct H1. by left.
  - injection Heq as -> Heq. destruct (IH s2) as [-> ->]; auto.
    + intros ?. apply H1. by right.
    + intros ?. apply H2. by right.
Qed.

Lemma pretty_N_char_not_sep c n : separator c → pretty_N_char n ≠ c.
Proof.
  intros [-> | ->]; unfold pretty_N_char; repeat case_match; discriminate.
Qed.

Lemma pretty_N_go_no_sep c n s :
  separator c → ¬ str_mem c s → ¬ str_mem c (pretty_N_go n s).
Proof.
  intros Hc. revert s.
  induction (N.lt_wf_0 n) as [n _ IH]; intros s Hs.
  destruct (decide (n = 0)%N) as [->|Hn]; [by rewrite pretty_N_go_0|].
  rewrite pretty_N_go_step by lia. apply IH.
  - apply N.div_lt; lia.
  - simpl. intros [Heq | ?]; [|done]. by apply (pretty_N_char_not_sep c (n `mod` 10)%N).
Qed.

Lemma pretty_N_no_sep c (n : N) : separator c → ¬ str_mem c (pretty n).
Proof.
  intros Hc. unfold pretty, pretty_N. case_decide.
  - simpl. destruct Hc as [-> | ->]; intros [? | []]; discriminate.
  - apply pretty_N_go_no_sep; auto.
Qed.

Lemma pretty_Z_no_sep c (z : Z) : separator c → ¬ str_mem c (pretty z).
Proof.
  intros Hc. destruct z as [|p|p]; unfold pretty, pretty_Z.
  - simpl. destruct Hc as [-> | ->]; intros [? | []]; discriminate.
  - apply (pretty_N_no_sep c (N.pos p) Hc).
  - change ("-" +:+ pretty p) with (String "-" (pretty (N.pos p))).
    simpl. intros [? | ?].
    + destruct Hc as [-> | ->]; discriminate.
    + by apply (pretty_N_no_sep c (N.pos p) Hc).
Qed.


Lemma keyOf_unfold p :
  keyOf p = pretty (Pt.x p) +:+ String "," (pretty (Pt.y p)).
Proof. reflexivity. Qed.

Lemma keyOf_inj p q : keyOf p = keyOf q → coords p = coords q.
Proof.
  rewrite !keyOf_unfold. intros Heq.
  apply app_sep_inj in Heq as [Hx Hy];
    [|apply pretty_Z_no_sep; by left..].
  unfold coords. f_equal; by apply (inj pretty).
Qed.

Lemma keyOf_coords p q : coords p = coords q → keyOf p = keyOf q.
Proof. unfold coords, keyOf. by intros [= -> ->]. Qed.

Lemma keyOf_no_bar p : ¬ str_mem "|" (keyOf p).
Proof.
  rewrite keyOf_unfold, str_mem_app. simpl.
  intros [? | [? | ?]]; [|discriminate|].
  - eapply pretty_Z_no_sep; [|done]. by right.
  - eapply pretty_Z_no_sep; [|done]. by right.
Qed.

Lemma keyOf_nonempty p : keyOf p ≠ "".
Proof.
  rewrite keyOf_unfold. destruct (pretty (Pt.x p)); discriminate.
Qed.


Lemma keyOf_keyOfCoords p : keyOf p = keyOfCoords (coords p).
Proof. reflexivity. Qed.

Global Instance keyOfCoords_inj : Inj (=) (=) keyOfCoords.
Proof.
  intros [x1 y1] [x2 y2] Heq.
  apply (keyOf_inj (Pt.mk x1 y1 "") (Pt.mk x2 y2 "")), Heq.
Qed.


Lemma app_empty_inv s t : s +:+ t = "" → s = "".
Proof. by destruct s. Qed.

Lemma join_cons2 sep s s' l :
  join sep (s :: s' :: l) = s +:+ sep +:+ join sep (s' :: l).
Proof. reflexivity. Qed.

Lemma join_inj l1 l2 :
  Forall is_key l1 → Forall is_key l2 → join "|" l1 = join "|" l2 → l1 = l2.
Proof.
  intros H1. revert l2.
  induction H1 as [|a l1 [Ha Ha'] H1 IH]; intros l2 H2 Heq.
  - destruct H2 as [|b l2 [_ Hb] _]; [done|].
    destruct l2; simpl in Heq; [by subst|].
    symmetry in Heq. by apply app_empty_inv in Heq.
  - destruct H2 as [|b l2 [Hb Hb'] H2].
    { destruct l1; simpl in Heq; [by subst|]. by apply app_empty_inv in Heq. }
    destruct l1 as [|a' l1], l2 as [|b' l2].
    + simpl in Heq. by subst.
    + change (a = b +:+ String "|" (join "|" (b' :: l2))) in Heq. subst a.
      destruct Ha. rewrite str_mem_app. right. by left.
    + change (a +:+ String "|" (join "|" (a' :: l1)) = b) in Heq. subst b.
      destruct Hb. rewrite str_mem_app. right. by left.
    + change (a +:+ String "|" (join "|" (a' :: l1))
              = b +:+ String "|" (join "|" (b' :: l2))) in Heq.
      apply app_sep_inj in Heq as [-> Heq]; [|done..].
      f_equal. by apply IH.
Qed.

Lemma keyOf_is_key p : is_key (keyOf p).
Proof. split; [apply keyOf_no_bar | apply keyOf_nonempty]. Qed.

Lemma sorted_keys_is_key (pts : list Pt) :
  Forall is_key (merge_sort String.le (keyOf <$> pts)).
Proof.
  rewrite merge_sort_Permutation. apply Forall_fmap, Forall_forall.
  intros p _. apply keyOf_is_key.
Qed.

Lemma fmap_Permutation_inv {X Y} (f : X → Y) `{!Inj (=) (=) f} (l1 l2 : list X) :
  f <$> l1 ≡ₚ f <$> l2 → l1 ≡ₚ l2.
Proof.
  intros Hp. apply Permutation_map_inv in Hp as (l3 & Heq & Hp).
  apply (inj (fmap f)) in Heq. subst. by symmetry.
Qed.

Lemma keys_coords_Permutation (l1 l2 : list Pt) :
  keyOf <$> l1 ≡ₚ keyOf <$> l2 ↔ coords <$> l1 ≡ₚ coords <$> l2.
Proof.
  assert (Hk : ∀ l : list Pt, keyOf <$> l = keyOfCoords <$> (coords <$> l)).
  { intros l. rewrite <- list_fmap_compose. done. }
  rewrite !Hk. split.
  - apply fmap_Permutation_inv, _.
  - by intros ->.
Qed.

Lemma normalizeSquareKey_perm (l1 l2 : list Pt) :
  normalizeSquareKey l1 = normalizeSquareKey l2 ↔ coords <$> l1 ≡ₚ coords <$> l2.
Proof.
  rewrite <- keys_coords_Permutation. unfold normalizeSquareKey. split.
  - intros Heq%join_inj; [|apply sorted_keys_is_key..].
    by rewrite <- (merge_sort_Permutation String.le (keyOf <$> l1)), Heq,
      merge_sort_Permutation.
  - intros Hp. f_equal.
    apply (Sorted_unique String.le); [apply Sorted_merge_sort, _..|].
    by rewrite !merge_sort_Permutation.
Qed.

(** ** The pair enumeration *)

Lemma foldl_snoc_fmap {X Y} (f : X → Y) (l : list X) (acc : list Y) :
  foldl (λ ps j, ps ++ [f j]) acc l = acc ++ (f <$> l).
Proof.
  revert acc. induction l as [|a l IH]; intros acc; simpl.
  - by rewrite app_nil_r.
  - by rewrite IH, <- app_assoc.
Qed.

Lemma pairs_loop n (l : list nat) (acc : list Pair) :
  foldl (λ ps i,
           foldl (λ ps j, ps ++ [Pair.mk i j]) ps (seq (i + 1) (n - (i + 1))))
        acc l
  = acc ++ (l ≫= λ i, Pair.mk i <$> seq (i + 1) (n - (i + 1))).
Proof.
  revert acc. induction l as [|a l IH]; intros acc; simpl.
  - by rewrite app_nil_r.
  - by rewrite IH, foldl_snoc_fmap, <- app_assoc.
Qed.

Lemma pairs_enumerate pts : pairs pts = enumerate (length pts).
Proof. unfold pairs. by rewrite pairs_loop. Qed.

Lemma elem_of_enumerate n p :
  p ∈ enumerate n ↔ (Pair.i p < Pair.j p < n)%nat.
Proof.
  unfold enumerate. rewrite list_elem_of_bind. split.
  - intros (i & Hp & Hi). apply list_elem_of_fmap in Hp as (j & -> & Hj).
    apply elem_of_seq in Hi, Hj. simpl. lia.
  - intros [Hi Hj]. exists (Pair.i p). split.
    + apply list_elem_of_fmap. exists (Pair.j p). split; [by destruct p|].
      apply elem_of_seq. lia.
    + apply elem_of_seq. lia.
Qed.

Lemma enumerate_rows_length n a m :
  (a + m = n)%nat →
  (length (seq a m ≫= λ i, Pair.mk i <$> seq (i + 1) (n - (i + 1))) * 2
   = m * (m - 1))%nat.
Proof.
  revert a. induction m as [|m IH]; intros a Ham; [done|].
  cbn [seq]. rewrite bind_cons, length_app, length_fmap, length_seq.
  specialize (IH (S a) ltac:(lia)).
  replace (n - (a + 1))%nat with m by lia.
  replace (S m - 1)%nat with m by lia. nia.
Qed.

Lemma length_enumerate n : length (enumerate n) = (n * (n - 1) / 2)%nat.
Proof.
  unfold enumerate.
  rewrite <- (enumerate_rows_length n 0 n) by lia.
  by rewrite Nat.div_mul.
Qed.

Global Instance lex_lt_irrefl : Irreflexive lex_lt.
Proof. intros p [? | [_ ?]]; lia. Qed.

Global Instance lex_lt_trans : Transitive lex_lt.
Proof. unfold lex_lt. intros p q r ??. lia. Qed.

Lemma StronglySorted_lt_seq a m : StronglySorted lt (seq a m).
Proof.
  revert a. induction m as [|m IH]; intros a; simpl; constructor; [apply IH|].
  apply Forall_forall. intros b Hb%elem_of_seq. lia.
Qed.

Lemma enumerate_rows_sorted n a m :
  StronglySorted lex_lt (seq a m ≫= λ i, Pair.mk i <$> seq (i + 1) (n - (i + 1))).
Proof.
  revert a. induction m as [|m IH]; intros a; [constructor|].
  cbn [seq]. rewrite bind_cons.
  apply StronglySorted_app_2; [| |apply IH].
  - intros p q Hp Hq.
    apply list_elem_of_fmap in Hp as (b & -> & _).
    apply list_elem_of_bind in Hq as (c & Hq & Hc%elem_of_seq).
    apply list_elem_of_fmap in Hq as (d & -> & _).
    left. simpl. lia.
  - apply (StronglySorted_fmap _ lt lex_lt); [|apply StronglySorted_lt_seq].
    intros b c Hbc. right. simpl. lia.
Qed.

Lemma StronglySorted_irrefl_NoDup {X} (R : relation X) `{!Irreflexive R} l :
  StronglySorted R l → NoDup l.
Proof.
  induction 1 as [|a l _ IH Hall]; constructor; [|done].
  intros Ha. rewrite Forall_forall in Hall. by apply (irreflexivity R a), Hall.
Qed.


(** ** The registry updates *)

Lemma foldl_add_union (l : list string) (acc : gset string) :
  foldl (λ c s, {[ s ]} ∪ c) acc l = acc ∪ list_to_set l.
Proof.
  revert acc. induction l as [|s l IH]; intros acc; simpl.
  - set_solver.
  - rewrite IH. set_solver.
Qed.

Lemma membership_elem (pts : list Pt) s :
  s ∈ membership pts ↔ s ∈ keyOf <$> pts.
Proof.
  unfold membership.
  assert (H : ∀ acc, s ∈ foldl (λ (a : gset string) p, {[ keyOf p ]} ∪ a) acc pts
                     ↔ s ∈ acc ∨ s ∈ keyOf <$> pts).
  { induction pts as [|p pts IH]; intros acc; simpl.
    - set_solver.
    - rewrite IH. set_solver. }
  rewrite H. set_solver.
Qed.

Lemma addKeys_cons key keys st :
  addKeys (key :: keys) st = addKeys keys (add_new key st).
Proof. reflexivity. Qed.

Lemma addKeys_fst keys st :
  (addKeys keys st).1 = st.1 ∪ list_to_set keys.
Proof.
  revert st. induction keys as [|key keys IH]; intros st.
  - simpl. set_solver.
  - rewrite addKeys_cons, IH. unfold add_new. case_decide; simpl; set_solver.
Qed.

Lemma addKeys_snd_elem keys st s :
  s ∈ (addKeys keys st).2 ↔ s ∈ st.2 ∨ (s ∈ keys ∧ s ∉ st.1).
Proof.
  revert st. induction keys as [|key keys IH]; intros st.
  - simpl. set_solver.
  - rewrite addKeys_cons, IH. unfold add_new. case_decide; simpl.
    + set_solver.
    + rewrite elem_of_app, !elem_of_cons, elem_of_union, elem_of_singleton.
      destruct (decide (s = key)) as [->|]; set_solver.
Qed.

Lemma addKeys_snd_NoDup keys st :
  NoDup st.2 → (∀ s, s ∈ st.2 → s ∈ st.1) → NoDup (addKeys keys st).2.
Proof.
  revert st. induction keys as [|key keys IH]; intros st Hnd Hsub; [done|].
  rewrite addKeys_cons. apply IH; unfold add_new; case_decide; simpl; try done.
  - apply NoDup_app. split_and!; [done| |apply NoDup_singleton].
    intros s Hs ->%list_elem_of_singleton. auto.
  - intros s [?| ->%list_elem_of_singleton]%elem_of_app; set_solver.
Qed.

Lemma addKeys_snd_length keys st :
  (length (addKeys keys st).2 ≤ length st.2 + length keys)%nat.
Proof.
  revert st. induction keys as [|key keys IH]; intros st; [simpl; lia|].
  rewrite addKeys_cons. etrans; [apply IH|].
  unfold add_new. case_decide; simpl; [lia|]. rewrite length_app. simpl. lia.
Qed.

Lemma addKeys_fresh_set keys :
  list_to_set (addKeys keys (∅, [])).2 =@{gset string} list_to_set keys.
Proof.
  apply set_eq. intros s. rewrite !elem_of_list_to_set, addKeys_snd_elem. set_solver.
Qed.

Lemma confirmed_length mem A B : (length (confirmed mem A B) ≤ 2)%nat.
Proof. unfold confirmed. destruct (leftOKof _ _ _), (rightOKof _ _ _); simpl; lia. Qed.

(** ** [computeStep] in closed form *)

Section closed_form.
Variable pts : list Pt.
Variable ps : list Pair.
Variable mem : gset string.

Lemma pairAt_Some k p A B :
  pairAt pts ps k = Some (p, A, B) ↔
  at_index ps k = Some p ∧ pts !! Pair.i p = Some A ∧ pts !! Pair.j p = Some B.
Proof.
  unfold pairAt. destruct (at_index ps k) as [q|]; simpl; [|naive_solver].
  destruct (pts !! Pair.i q) as [A'|] eqn:HA; simpl; [|naive_solver].
  destruct (pts !! Pair.j q) as [B'|] eqn:HB; simpl; naive_solver.
Qed.

Lemma pairAt_nonneg k : is_Some (pairAt pts ps k) → 0 ≤ k.
Proof.
  intros [[[p A] B] H]. apply pairAt_Some in H as (H & _ & _).
  unfold at_index in H. by case_decide.
Qed.

Lemma computeStep_invalid f k carry seen :
  pairAt pts ps k = None → computeStep pts ps mem (S f) k carry seen = TypeError.
Proof.
  unfold pairAt. simpl.
  destruct (at_index ps k) as [p|]; simpl; [|done].
  destruct (pts !! Pair.i p); simpl; [|done].
  destruct (pts !! Pair.j p); simpl; done.
Qed.

Lemma computeStep_unfold f k carry seen p A B :
  pairAt pts ps k = Some (p, A, B) →
  computeStep pts ps mem (S f) k carry seen
  = (let st := addKeys (confirmed mem A B) (carry, []) in
     reg ← (if decide (k ≤ seen) then
              for_each (seqZ 0 (k + 1))
                (λ c t, tmp ← computeStepOnce pts ps mem f t;
                        Ok (foldl (λ c s, {[ s ]} ∪ c) c
                              (StepInfo.newlyAddedSquares tmp.1)))
                ∅
            else Ok st.1);
     Ok (stepInfoOf mem p A B st.2 (size reg), reg)).
Proof.
  intros (Hp & HA & HB)%pairAt_Some. simpl. rewrite Hp. simpl.
  rewrite HA, HB. simpl.
  unfold confirmed, stepInfoOf, leftOKof, rightOKof, leftKey, rightKey,
    candC, candD, candC2, candD2, rotLeft, rotRight, computeStepOnce. simpl.
  repeat (destruct (bool_decide _)); simpl; reflexivity.
Qed.

Lemma computeStep_forward f k carry seen p A B :
  pairAt pts ps k = Some (p, A, B) → ¬ k ≤ seen →
  computeStep pts ps mem (S f) k carry seen
  = Ok (stepInfoOf mem p A B (addKeys (confirmed mem A B) (carry, [])).2
          (size (carry ∪ list_to_set (confirmed mem A B))),
        carry ∪ list_to_set (confirmed mem A B)).
Proof.
  intros Hp Hk. rewrite (computeStep_unfold _ _ _ _ _ _ _ Hp). simpl.
  rewrite decide_False by done. simpl. by rewrite addKeys_fst.
Qed.

Lemma computeStepOnce_ok f t p A B :
  pairAt pts ps t = Some (p, A, B) →
  computeStepOnce pts ps mem (S f) t
  = Ok (stepInfoOf mem p A B (addKeys (confirmed mem A B) (∅, [])).2
          (size (∅ ∪ list_to_set (confirmed mem A B) : gset string)),
        ∅ ∪ list_to_set (confirmed mem A B)).
Proof.
  intros Hp. unfold computeStepOnce. apply computeStep_forward; [done|].
  assert (0 ≤ t) by (apply pairAt_nonneg; eauto). lia.
Qed.

Lemma rebuild_loop f (l : list Z) (acc : gset string) :
  Forall (λ t, is_Some (pairAt pts ps t)) l →
  for_each l
    (λ c t, tmp ← computeStepOnce pts ps mem (S f) t;
            Ok (foldl (λ c s, {[ s ]} ∪ c) c (StepInfo.newlyAddedSquares tmp.1)))
    acc
  = Ok (acc ∪ list_to_set (l ≫= keysAt pts ps mem)).
Proof.
  intros Hl. revert acc.
  induction Hl as [|t l [[[p A] B] Ht] _ IH]; intros acc.
  - simpl. f_equal. set_solver.
  - cbn [for_each]. rewrite (computeStepOnce_ok _ _ _ _ _ Ht).
    cbn [mbind result_bind fst stepInfoOf StepInfo.newlyAddedSquares].
    rewrite IH. f_equal. rewrite foldl_add_union, addKeys_fresh_set, bind_cons.
    unfold keysAt at 2. rewrite Ht. set_solver.
Qed.

Lemma computeStep_rewind f k carry seen p A B :
  pairAt pts ps k = Some (p, A, B) → k ≤ seen →
  (∀ t, 0 ≤ t ≤ k → is_Some (pairAt pts ps t)) →
  computeStep pts ps mem (S (S f)) k carry seen
  = Ok (stepInfoOf mem p A B (addKeys (confirmed mem A B) (carry, [])).2
          (size (registryUpTo pts ps mem k)),
        registryUpTo pts ps mem k).
Proof.
  intros Hp Hk Hall. rewrite (computeStep_unfold _ _ _ _ _ _ _ Hp). simpl.
  rewrite decide_True by done. rewrite rebuild_loop.
  - simpl. unfold registryUpTo.
    replace (∅ ∪ list_to_set (seqZ 0 (k + 1) ≫= keysAt pts ps mem))
      with (list_to_set (C := gset string) (seqZ 0 (k + 1) ≫= keysAt pts ps mem))
      by set_solver.
    done.
  - apply Forall_seqZ. intros t ?. apply Hall. lia.
Qed.

(** One activation is not enough for a rewind. *)
Lemma computeStep_rewind_needs_two k carry seen :
  is_Some (pairAt pts ps k) → k ≤ seen →
  computeStep pts ps mem 1 k carry seen = OutOfFuel.
Proof.
  intros [[[p A] B] Hp] Hk. rewrite (computeStep_unfold _ _ _ _ _ _ _ Hp). simpl.
  rewrite decide_True by done.
  assert (0 ≤ k) by (apply pairAt_nonneg; eauto).
  rewrite seqZ_cons by lia. done.
Qed.

Lemma registryUpTo_step k :
  0 ≤ k →
  registryUpTo pts ps mem k
  = registryUpTo pts ps mem (k - 1) ∪ list_to_set (keysAt pts ps mem k).
Proof.
  intros Hk. unfold registryUpTo.
  assert (Hseq : seqZ 0 (k + 1) = seqZ 0 (k - 1 + 1) ++ [k]).
  { replace (k - 1 + 1) with k by lia.
    rewrite (seqZ_app 0 k 1) by lia.
    rewrite (seqZ_cons (0 + k)) by lia. rewrite (seqZ_nil (Z.succ (0 + k))) by lia.
    by rewrite Z.add_0_l. }
  rewrite Hseq, bind_app, list_to_set_app_L, bind_cons.
  simpl. by rewrite app_nil_r.
Qed.

Lemma registryUpTo_neg k : k < 0 → registryUpTo pts ps mem k = ∅.
Proof. intros. unfold registryUpTo. by rewrite seqZ_nil by lia. Qed.

(** Never out of budget with two activations, whatever the arguments. *)
Lemma rebuild_loop_terminates f (l : list Z) (acc : gset string) :
  Forall (λ t, 0 ≤ t) l →
  for_each l
    (λ c t, tmp ← computeStepOnce pts ps mem (S f) t;
            Ok (foldl (λ c s, {[ s ]} ∪ c) c (StepInfo.newlyAddedSquares tmp.1)))
    acc
  ≠ OutOfFuel.
Proof.
  intros Hl. revert acc. induction Hl as [|t l Ht _ IH]; intros acc; [done|].
  cbn [for_each]. destruct (pairAt pts ps t) as [[[p A] B]|] eqn:Hp.
  - rewrite (computeStepOnce_ok _ _ _ _ _ Hp).
    cbn [mbind result_bind]. apply IH.
  - unfold computeStepOnce. by rewrite computeStep_invalid.
Qed.

Lemma computeStep_terminates f k carry seen :
  computeStep pts ps mem (S (S f)) k carry seen ≠ OutOfFuel.
Proof.
  destruct (pairAt pts ps k) as [[[p A] B]|] eqn:Hp.
  - rewrite (computeStep_unfold _ _ _ _ _ _ _ Hp). simpl. case_decide; [|done].
    match goal with |- context [for_each ?l ?b ?a] =>
      pose proof (rebuild_loop_terminates f l a) as Hloop;
      destruct (for_each l b a) eqn:Hfe end; try done.
    exfalso. apply Hloop; [|done]. apply Forall_seqZ. lia.
  - by rewrite computeStep_invalid.
Qed.

Lemma computeStepOnce_terminates f t :
  computeStepOnce pts ps mem (S f) t ≠ OutOfFuel.
Proof.
  destruct (pairAt pts ps t) as [[[p A] B]|] eqn:Hp.
  - by rewrite (computeStepOnce_ok _ _ _ _ _ Hp).
  - unfold computeStepOnce. by rewrite computeStep_invalid.
Qed.
End closed_form.

(** ** The component over its own pair list *)

Lemma at_index_Some {T} (l : list T) k v :
  at_index l k = Some v ↔ 0 ≤ k ∧ l !! Z.to_nat k = Some v.
Proof. unfold at_index. case_decide; naive_solver. Qed.

Lemma valid_pairAt pts k :
  valid pts k →
  ∃ p A B, pairAt pts (pairs pts) k = Some (p, A, B)
           ∧ pairs pts !! Z.to_nat k = Some p
           ∧ (Pair.i p < Pair.j p < length pts)%nat.
Proof.
  intros [Hk0 Hk].
  destruct (lookup_lt_is_Some_2 (pairs pts) (Z.to_nat k) ltac:(lia)) as [p Hp].
  assert (Hin : p ∈ pairs pts) by (by eapply list_elem_of_lookup_2).
  rewrite pairs_enumerate, elem_of_enumerate in Hin.
  destruct (lookup_lt_is_Some_2 pts (Pair.i p) ltac:(lia)) as [A HA].
  destruct (lookup_lt_is_Some_2 pts (Pair.j p) ltac:(lia)) as [B HB].
  exists p, A, B. split; [|split; [done|lia]].
  apply pairAt_Some. split; [|done]. by apply at_index_Some.
Qed.

Lemma pairAt_valid pts k :
  is_Some (pairAt pts (pairs pts) k) → valid pts k.
Proof.
  intros [[[p A] B] (Hp & _ & _)%pairAt_Some].
  apply at_index_Some in Hp as [Hk Hp]. apply lookup_lt_Some in Hp.
  unfold valid. lia.
Qed.

Lemma valid_below pts k t : valid pts k → 0 ≤ t ≤ k → valid pts t.
Proof. unfold valid. lia. Qed.

Lemma computeStepOf_valid pts k carry seen p A B :
  pairAt pts (pairs pts) k = Some (p, A, B) →
  let mem := membership pts in
  let reg := if decide (k ≤ seen) then registryUpTo pts (pairs pts) mem k
             else carry ∪ list_to_set (confirmed mem A B) in
  computeStepOf pts k carry seen
  = Ok (stepInfoOf mem p A B (addKeys (confirmed mem A B) (carry, [])).2 (size reg),
        reg).
Proof.
  intros Hp mem reg. unfold computeStepOf, reg. case_decide.
  - apply computeStep_rewind; [done..|].
    intros t Ht. destruct (valid_pairAt pts t) as (q & A' & B' & Hq & _).
    + eapply valid_below; [|done]. apply pairAt_valid. eauto.
    + eauto.
  - by apply computeStep_forward.
Qed.

Lemma computeStepOf_invalid pts k carry seen :
  ¬ valid pts k → computeStepOf pts k carry seen = TypeError.
Proof.
  intros Hk. apply computeStep_invalid.
  destruct (pairAt pts (pairs pts) k) eqn:Hp; [|done].
  destruct Hk. apply pairAt_valid. eauto.
Qed.

Lemma for_each_ext {T S} (l : list T) (f g : S → T → result S) s :
  (∀ s t, f s t = g s t) → for_each l f s = for_each l g s.
Proof.
  intros Hfg. revert s. induction l as [|t l IH]; intros s; [done|].
  cbn [for_each]. rewrite Hfg. destruct (g s t); simpl; auto.
Qed.

Lemma computeStepOnce_fuel pts ps mem f t :
  computeStepOnce pts ps mem (S f) t = computeStepOnce pts ps mem 1 t.
Proof.
  destruct (pairAt pts ps t) as [[[p A] B]|] eqn:Hp.
  - by rewrite !(computeStepOnce_ok _ _ _ _ _ _ _ _ Hp).
  - unfold computeStepOnce. by rewrite !computeStep_invalid.
Qed.

Lemma computeStep_fuel pts ps mem f k carry seen :
  computeStep pts ps mem (S (S f)) k carry seen
  = computeStep pts ps mem 2 k carry seen.
Proof.
  destruct (pairAt pts ps k) as [[[p A] B]|] eqn:Hp.
  - rewrite !(computeStep_unfold _ _ _ _ _ _ _ _ _ _ Hp). simpl.
    case_decide; [|done].
    erewrite for_each_ext; [done|]. intros s t. simpl.
    by rewrite computeStepOnce_fuel.
  - by rewrite !computeStep_invalid.
Qed.

Lemma registryUpTo_mono pts ps mem k1 k2 :
  k1 ≤ k2 → registryUpTo pts ps mem k1 ⊆ registryUpTo pts ps mem k2.
Proof.
  intros Hk s. unfold registryUpTo.
  rewrite !elem_of_list_to_set, !list_elem_of_bind.
  intros (t & Hs & Ht). exists t. split; [done|].
  apply elem_of_seqZ in Ht. apply elem_of_seqZ. lia.
Qed.

Lemma elem_of_registryUpTo pts ps mem k s :
  s ∈ registryUpTo pts ps mem k ↔ ∃ t, 0 ≤ t ≤ k ∧ s ∈ keysAt pts ps mem t.
Proof.
  unfold registryUpTo. rewrite elem_of_list_to_set, list_elem_of_bind.
  setoid_rewrite elem_of_seqZ. split; intros (t & ? & ?); exists t; split; auto; lia.
Qed.

(** ** Forward runs *)

Lemma mount_stateAfter pts : mount pts = stateAfter pts false 900 0.
Proof.
  unfold mount, stateAfter, stepAfter. rewrite registryUpTo_neg by lia.
  by case_decide.
Qed.

Lemma forwardInfo_Some pts k :
  valid pts k → is_Some (forwardInfo pts k).
Proof.
  intros (p & A & B & Hp & _)%valid_pairAt. unfold forwardInfo. rewrite Hp. simpl. eauto.
Qed.

Lemma forwardInfo_uniqueCount pts k I :
  forwardInfo pts k = Some I →
  StepInfo.uniqueCount I = size (registryUpTo pts (pairs pts) (membership pts) k).
Proof.
  unfold forwardInfo. destruct (pairAt _ _ _) as [[[p A] B]|]; simpl; [|done].
  by intros [= <-].
Qed.

Lemma nextStepRes_forward pts pl sp a :
  valid pts a →
  ∃ I, forwardInfo pts a = Some I
       ∧ nextStepRes (stateAfter pts pl sp a) = Ok (I, stateAfter pts pl sp (a + 1)).
Proof.
  intros Hv. destruct (valid_pairAt pts a Hv) as (p & A & B & Hp & _).
  unfold forwardInfo. rewrite Hp. simpl. eexists. split; [done|].
  assert (Hreg : registryUpTo pts (pairs pts) (membership pts) a
    = registryUpTo pts (pairs pts) (membership pts) (a - 1)
      ∪ list_to_set (confirmed (membership pts) A B)).
  { rewrite registryUpTo_step by (destruct Hv; lia). unfold keysAt. by rewrite Hp. }
  destruct Hv as [Ha0 Ha].
  unfold nextStepRes, computeStepAt, stateAfter, stepAfter. simpl.
  rewrite decide_True by done. simpl.
  rewrite (computeStepOf_valid _ _ _ _ _ _ _ Hp). simpl.
  rewrite decide_False by lia. rewrite <- Hreg. simpl.
  do 2 f_equal. replace (a + 1 - 1) with a by lia.
  f_equal; [|lia].
  unfold js_rem. rewrite decide_False by lia.
  case_decide.
  - f_equal. apply Z.rem_small. lia.
  - replace (a + 1) with (Z.of_nat (length (pairs pts))) by lia.
    by rewrite Z.rem_same by lia.
Qed.

Lemma play_forward pts pl sp (n : nat) a :
  0 ≤ a → a + Z.of_nat n ≤ Z.of_nat (length (pairs pts)) →
  ∃ infos,
    play n (stateAfter pts pl sp a) = Ok (infos, stateAfter pts pl sp (a + Z.of_nat n))
    ∧ Some <$> infos = forwardInfo pts <$> seqZ a (Z.of_nat n).
Proof.
  revert a. induction n as [|n IH]; intros a Ha Han.
  - exists []. cbn [play]. rewrite Z.add_0_r. split; [done|]. reflexivity.
  - destruct (nextStepRes_forward pts pl sp a) as (I & HI & Hstep); [unfold valid; lia|].
    destruct (IH (a + 1)) as (infos & Hplay & Hinfos); [lia..|].
    exists (I :: infos). cbn [play]. rewrite Hstep. simpl. rewrite Hplay. simpl.
    replace (a + 1 + Z.of_nat n) with (a + Z.of_nat (S n)) by lia.
    split; [done|].
    rewrite (seqZ_cons a) by lia. rewrite !fmap_cons, HI.
    change (list_fmap _ _ Some infos) with (Some <$> infos).
    f_equal. rewrite Hinfos. f_equal. f_equal; lia.
Qed.

Lemma confirmedBy_stepInfoOf mem p A B newly count :
  confirmedBy (stepInfoOf mem p A B newly count) = confirmed mem A B.
Proof. reflexivity. Qed.

Lemma leftOKof_true mem A B :
  leftOKof mem A B = true ↔ keyOf (candC A B) ∈ mem ∧ keyOf (candD A B) ∈ mem.
Proof. unfold leftOKof. by rewrite andb_true_iff, !bool_decide_eq_true. Qed.

Lemma rightOKof_true mem A B :
  rightOKof mem A B = true ↔ keyOf (candC2 A B) ∈ mem ∧ keyOf (candD2 A B) ∈ mem.
Proof. unfold rightOKof. by rewrite andb_true_iff, !bool_decide_eq_true. Qed.

Lemma computeStep_own_pairs pts mem k carry seen p A B :
  pairAt pts (pairs pts) k = Some (p, A, B) →
  ∃ reg, computeStep pts (pairs pts) mem 2 k carry seen
         = Ok (stepInfoOf mem p A B (addKeys (confirmed mem A B) (carry, [])).2
                 (size reg), reg).
Proof.
  intros Hp. destruct (decide (k ≤ seen)).
  - eexists. apply computeStep_rewind; [done..|].
    intros t Ht. destruct (valid_pairAt pts t) as (q & A' & B' & Hq & _); [|eauto].
    eapply valid_below; [|done]. apply pairAt_valid. eauto.
  - eexists. by apply computeStep_forward.
Qed.

(** A pair of coinciding points of the sequence is reported as a square on
    both sides: the four candidates are the point itself. *)
Lemma degenerate_pair_confirmed (pts : list Pt) (k : Z) (carry : gset string)
    (seen : Z) (p : Pair) (A B : Pt) :
  pairAt pts (pairs pts) k = Some (p, A, B) → doublePt A → coords A = coords B →
  ∃ I reg,
    computeStepOf pts k carry seen = Ok (I, reg)
    ∧ StepInfo.dx I = 0 ∧ StepInfo.dy I = 0
    ∧ StepInfo.leftOK I = true ∧ StepInfo.rightOK I = true.
Proof.
  intros Hp Hsafe Heq. rewrite (computeStepOf_valid _ _ _ _ _ _ _ Hp).
  eexists _, _. split; [done|]. cbn -[leftOKof rightOKof edge].
  rewrite (edge_coinciding A B Heq). cbn [fst snd].
  assert (HA : keyOf A ∈ membership pts).
  { apply membership_elem, list_elem_of_fmap_2.
    apply pairAt_Some in Hp as (_ & HA & _). by eapply list_elem_of_lookup_2. }
  assert (Hkey : ∀ q, coords q = coords A → keyOf q ∈ membership pts).
  { intros q Hq. by rewrite (keyOf_coords _ _ Hq). }
  destruct (cand_coinciding A B Hsafe Heq) as (HC & HD & HC2 & HD2).
  split_and!; [done|done|apply leftOKof_true|apply rightOKof_true];
    split; by apply Hkey.
Qed.

Lemma newly_against_carry (pts : list Pt) (k : Z) (carry : gset string) (seen : Z) :
  valid pts k →
  ∃ I reg,
    computeStepOf pts k carry seen = Ok (I, reg)
    ∧ (∀ s, s ∈ StepInfo.newlyAddedSquares I ↔ s ∈ confirmedBy I ∧ s ∉ carry)
    ∧ NoDup (StepInfo.newlyAddedSquares I)
    ∧ (length (StepInfo.newlyAddedSquares I) ≤ 2)%nat.
Proof.
  intros (p & A & B & Hp & _)%valid_pairAt.
  rewrite (computeStepOf_valid _ _ _ _ _ _ _ Hp).
  eexists _, _. split; [done|]. rewrite confirmedBy_stepInfoOf.
  cbn [stepInfoOf StepInfo.newlyAddedSquares]. split_and!.
  - intros s. rewrite addKeys_snd_elem. simpl. set_solver.
  - apply addKeys_snd_NoDup; simpl; [constructor|set_solver].
  - etrans; [apply addKeys_snd_length|]. simpl. apply confirmed_length.
Qed.


(** ** Squares on the lattice *)

Ltac list_eq :=
  repeat match goal with
         | |- _ :: _ = _ :: _ => f_equal
         | |- (_, _) = (_, _) => f_equal
         end; try lia; try done.

Lemma keyOf_membership_coords (pts : list Pt) (q : Pt) :
  keyOf q ∈ membership pts ↔ coords q ∈ coords <$> pts.
Proof.
  rewrite membership_elem, !list_elem_of_fmap. split.
  - intros (p & Hk & Hp). exists p. split; [by apply keyOf_inj|done].
  - intros (p & Hc & Hp). exists p. split; [by apply keyOf_coords|done].
Qed.

Lemma coords_toPt (l : list (Z * Z)) : coords <$> (toPt <$> l) = l.
Proof.
  rewrite <- list_fmap_compose. induction l as [|[a b] l IH]; [done|].
  rewrite fmap_cons. by f_equal.
Qed.

Lemma keyOfSquare_perm sq1 sq2 :
  keyOfSquare sq1 = keyOfSquare sq2 ↔ corners sq1 ≡ₚ corners sq2.
Proof. unfold keyOfSquare. by rewrite normalizeSquareKey_perm, !coords_toPt. Qed.

Lemma corners_NoDup (sq : (Z * Z) * (Z * Z)) : sq.2 ≠ (0, 0) → NoDup (corners sq).
Proof.
  destruct sq as [[px py] [vx vy]]. simpl. intros Hv.
  assert (vx ≠ 0 ∨ vy ≠ 0) as Hv'.
  { destruct (decide (vx = 0)) as [->|]; [|by left].
    right. intros ->. by apply Hv. }
  unfold vadd, rot. simpl.
  repeat (apply NoDup_cons; split);
    [rewrite ?elem_of_cons, ?elem_of_nil; intros H;
     repeat (destruct H as [H|H]; [injection H; lia|]); done..
    |apply NoDup_nil_2].
Qed.

Lemma same_square_perm sq1 sq2 :
  sq1.2 ≠ (0, 0) → sq2.2 ≠ (0, 0) →
  same_square sq1 sq2 ↔ corners sq1 ≡ₚ corners sq2.
Proof.
  intros H1 H2. split.
  - intros Hs. apply NoDup_Permutation; [by apply corners_NoDup..|done].
  - intros Hp c. by rewrite Hp.
Qed.

Lemma same_square_key sq1 sq2 :
  sq1.2 ≠ (0, 0) → sq2.2 ≠ (0, 0) →
  same_square sq1 sq2 ↔ keyOfSquare sq1 = keyOfSquare sq2.
Proof. intros. by rewrite keyOfSquare_perm, same_square_perm. Qed.

Lemma distinct_coords (pts : list Pt) (a b : nat) (A B : Pt) :
  NoDup (coords <$> pts) → pts !! a = Some A → pts !! b = Some B → a ≠ b →
  coords A ≠ coords B.
Proof.
  intros Hnd HA HB Hab Heq. apply Hab.
  eapply (NoDup_lookup _ a b (coords A) Hnd); rewrite list_lookup_fmap.
  - by rewrite HA.
  - by rewrite HB, Heq.
Qed.

(** A left verdict is a square on the edge, seen from [A]. *)
Lemma left_square (A B : Pt) :
  exactPt A → exactPt B →
  corners (coords A, (Pt.x B - Pt.x A, Pt.y B - Pt.y A))
  = [coords A; coords B; coords (candD A B); coords (candC A B)].
Proof.
  intros HA HB. rewrite (candC_exact A B HA HB), (candD_exact A B HA HB).
  unfold corners, coords, vadd, rot. simpl. list_eq.
Qed.

(** A right verdict is a square on the reversed edge, seen from [B]. *)
Lemma right_square (A B : Pt) :
  exactPt A → exactPt B →
  corners (coords B, (Pt.x A - Pt.x B, Pt.y A - Pt.y B))
  = [coords B; coords A; coords (candC2 A B); coords (candD2 A B)].
Proof.
  intros HA HB. rewrite (candC2_exact A B HA HB), (candD2_exact A B HA HB).
  unfold corners, coords, vadd, rot. simpl. list_eq.
Qed.

Lemma leftKey_square (A B : Pt) :
  exactPt A → exactPt B →
  leftKey A B = keyOfSquare (coords A, (Pt.x B - Pt.x A, Pt.y B - Pt.y A)).
Proof.
  intros HA HB. unfold leftKey, keyOfSquare. apply normalizeSquareKey_perm.
  rewrite coords_toPt, left_square by done. rewrite !fmap_cons, fmap_nil.
  do 2 apply perm_skip. apply perm_swap.
Qed.

Lemma rightKey_square (A B : Pt) :
  exactPt A → exactPt B →
  rightKey A B = keyOfSquare (coords B, (Pt.x A - Pt.x B, Pt.y A - Pt.y B)).
Proof.
  intros HA HB. unfold rightKey, keyOfSquare. apply normalizeSquareKey_perm.
  rewrite coords_toPt, right_square by done. rewrite !fmap_cons, fmap_nil.
  apply perm_swap.
Qed.

Lemma vector_nonzero (A B : Pt) :
  coords A ≠ coords B → (Pt.x B - Pt.x A, Pt.y B - Pt.y A) ≠ (0, 0).
Proof.
  intros Hne [= Hx Hy]. apply Hne. unfold coords. f_equal; lia.
Qed.

Section total.
Variable pts : list Pt.
Hypothesis pts_distinct : NoDup (coords <$> pts).
Hypothesis pts_exact : exact pts.

Let ps := pairs pts.
Let mem := membership pts.

(** Every key a step confirms is the key of a square of the point set. *)
Lemma confirmed_is_square k s :
  s ∈ keysAt pts ps mem k → ∃ sq, square_in pts sq ∧ keyOfSquare sq = s.
Proof.
  unfold keysAt. destruct (pairAt pts ps k) as [[[p A] B]|] eqn:Hp;
    [|by intros ?%elem_of_nil].
  assert (Hv : valid pts k) by (apply pairAt_valid; eauto).
  destruct (valid_pairAt pts k Hv) as (p' & A' & B' & Hp' & _ & Hij).
  unfold ps in Hp. rewrite Hp in Hp'. injection Hp' as <- <- <-.
  pose proof Hp as (_ & HA & HB)%pairAt_Some.
  assert (Hne : coords A ≠ coords B).
  { eapply distinct_coords; [done..|lia]. }
  assert (HeA : exactPt A) by (by eapply exact_lookup).
  assert (HeB : exactPt B) by (by eapply exact_lookup).
  assert (HinA : coords A ∈ coords <$> pts).
  { apply list_elem_of_fmap_2. by eapply list_elem_of_lookup_2. }
  assert (HinB : coords B ∈ coords <$> pts).
  { apply list_elem_of_fmap_2. by eapply list_elem_of_lookup_2. }
  unfold confirmed. rewrite elem_of_app.
  intros [Hs | Hs].
  - destruct (leftOKof mem A B) eqn:Hok; [|by apply elem_of_nil in Hs].
    apply list_elem_of_singleton in Hs as ->.
    apply leftOKof_true in Hok as [HC HD].
    apply keyOf_membership_coords in HC, HD.
    exists (coords A, (Pt.x B - Pt.x A, Pt.y B - Pt.y A)).
    split; [|by rewrite leftKey_square].
    split; [by apply vector_nonzero|].
    intros c. rewrite left_square, !elem_of_cons, elem_of_nil by done.
    intros [->|[->|[->|[->|[]]]]]; done.
  - destruct (rightOKof mem A B) eqn:Hok; [|by apply elem_of_nil in Hs].
    apply list_elem_of_singleton in Hs as ->.
    apply rightOKof_true in Hok as [HC HD].
    apply keyOf_membership_coords in HC, HD.
    exists (coords B, (Pt.x A - Pt.x B, Pt.y A - Pt.y B)).
    split; [|by rewrite rightKey_square].
    split; [apply vector_nonzero; congruence|].
    intros c. rewrite right_square, !elem_of_cons, elem_of_nil by done.
    intros [->|[->|[->|[->|[]]]]]; done.
Qed.

Lemma pair_has_step (a b : nat) (A B : Pt) :
  pts !! a = Some A → pts !! b = Some B → (a < b)%nat →
  ∃ k, valid pts k ∧ pairAt pts ps k = Some (Pair.mk a b, A, B).
Proof.
  intros HA HB Hab.
  assert (Hin : Pair.mk a b ∈ pairs pts).
  { rewrite pairs_enumerate, elem_of_enumerate. simpl.
    apply lookup_lt_Some in HB. lia. }
  apply list_elem_of_lookup in Hin as [idx Hidx].
  exists (Z.of_nat idx).
  assert (Hp : pairAt pts ps (Z.of_nat idx) = Some (Pair.mk a b, A, B)).
  { apply pairAt_Some. split_and!; [|done..].
    apply at_index_Some. split; [lia|]. by rewrite Nat2Z.id. }
  split; [|done]. apply pairAt_valid. unfold ps in Hp. rewrite Hp. eauto.
Qed.

(** Every square of the point set is confirmed by some step. *)
Lemma square_is_confirmed sq :
  square_in pts sq → ∃ k, valid pts k ∧ keyOfSquare sq ∈ keysAt pts ps mem k.
Proof.
  destruct sq as [P v]. intros [Hv Hin]. simpl in Hv.
  assert (HP : P ∈ coords <$> pts) by (apply Hin; simpl; set_solver).
  assert (HPv : vadd P v ∈ coords <$> pts) by (apply Hin; simpl; set_solver).
  apply list_elem_of_fmap in HP as (A0 & HA0 & [a Ha]%list_elem_of_lookup).
  apply list_elem_of_fmap in HPv as (B0 & HB0 & [b Hb]%list_elem_of_lookup).
  assert (Hsq : (P, v) = (coords A0, (Pt.x B0 - Pt.x A0, Pt.y B0 - Pt.y A0))).
  { destruct P as [px py], v as [vx vy]. unfold coords, vadd in *. simpl in *.
    injection HA0 as -> ->. injection HB0 as Hx Hy. list_eq. }
  assert (Hab : a ≠ b).
  { intros ->. rewrite Ha in Hb. injection Hb as ->.
    apply Hv. injection Hsq as _ -> . f_equal; lia. }
  rewrite Hsq in Hin |- *. clear Hsq HA0 HB0 Hv P v.
  assert (HeA : exactPt A0) by (by eapply exact_lookup).
  assert (HeB : exactPt B0) by (by eapply exact_lookup).
  destruct (decide (a < b)%nat) as [Hlt|Hge].
  - destruct (pair_has_step a b A0 B0) as (k & Hk & Hp); [done..|].
    exists k. split; [done|]. unfold keysAt. rewrite Hp.
    assert (Hok : leftOKof mem A0 B0 = true).
    { apply leftOKof_true. unfold mem. rewrite !keyOf_membership_coords.
      split; apply Hin; rewrite left_square by done; set_solver. }
    unfold confirmed. rewrite Hok, <- leftKey_square by done. set_solver.
  - destruct (pair_has_step b a B0 A0) as (k & Hk & Hp); [done..|lia|].
    exists k. split; [done|]. unfold keysAt. rewrite Hp.
    assert (Hok : rightOKof mem B0 A0 = true).
    { apply rightOKof_true. unfold mem. rewrite !keyOf_membership_coords.
      split; apply Hin; rewrite right_square by done; set_solver. }
    unfold confirmed. rewrite Hok, <- rightKey_square by done. set_solver.
Qed.

(** The keys collected over all steps are as many as the squares. *)
Lemma registry_counts_squares (last : Z) :
  Z.of_nat (length (pairs pts)) - 1 ≤ last →
  counts_squares pts (size (registryUpTo pts ps mem last)).
Proof.
  intros Hlast. set (R := registryUpTo pts ps mem last).
  assert (Hall : Forall (λ s, ∃ sq, square_in pts sq ∧ keyOfSquare sq = s)
                   (elements R)).
  { apply Forall_forall. intros s Hs%elem_of_elements.
    apply elem_of_registryUpTo in Hs as (t & _ & Hs).
    by eapply confirmed_is_square. }
  apply Forall_exists_Forall2_l in Hall as [reps Hreps].
  exists reps. split_and!.
  - symmetry. by apply Forall2_length in Hreps.
  - eapply Forall2_Forall_r; [done|]. apply Forall_forall. by intros s _ sq [? _].
  - intros a b sa sb Ha Hb Hsame.
    destruct (Forall2_lookup_r _ _ _ _ _ Hreps Ha) as (ka & Hka & Hsa & Hkeya).
    destruct (Forall2_lookup_r _ _ _ _ _ Hreps Hb) as (kb & Hkb & Hsb & Hkeyb).
    apply same_square_key in Hsame; [|apply Hsa|apply Hsb].
    eapply NoDup_lookup; [apply (NoDup_elements R)|done|]. congruence.
  - intros sq Hsq. destruct (square_is_confirmed sq Hsq) as (k & Hk & Hin).
    assert (HR : keyOfSquare sq ∈ elements R).
    { apply elem_of_elements, elem_of_registryUpTo. exists k.
      split; [unfold valid in Hk; lia|done]. }
    apply list_elem_of_lookup in HR as [idx Hidx].
    destruct (Forall2_lookup_l _ _ _ _ _ Hreps Hidx) as (r & Hr & Hsr & Hkey).
    exists r. split; [by eapply list_elem_of_lookup_2|].
    apply same_square_key; [apply Hsq|apply Hsr|done].
Qed.
End total.

(** ** The forward run over all pairs *)

Lemma forward_run (pts : list Pt) :
  ∃ infos s',
    play (length (pairs pts)) (mount pts) = Ok (infos, s')
    ∧ length infos = length (pairs pts)
    ∧ (∀ a b Ia Ib, infos !! a = Some Ia → infos !! b = Some Ib → (a ≤ b)%nat →
         (StepInfo.uniqueCount Ia ≤ StepInfo.uniqueCount Ib)%nat)
    ∧ (∀ IF, last infos = Some IF →
         StepInfo.uniqueCount IF = size (uniqueSquaresRef s'))
    ∧ (NoDup (coords <$> pts) → exact pts →
       counts_squares pts (size (uniqueSquaresRef s'))).
Proof.
  destruct (play_forward pts false 900 (length (pairs pts)) 0)
    as (infos & Hplay & Hinfos); [lia..|].
  rewrite <- mount_stateAfter in Hplay. rewrite Z.add_0_l in Hplay.
  assert (Hlen : length infos = length (pairs pts)).
  { apply (f_equal length) in Hinfos.
    rewrite !length_fmap, length_seqZ in Hinfos. lia. }
  assert (Hat : ∀ a Ia, infos !! a = Some Ia → forwardInfo pts (Z.of_nat a) = Some Ia).
  { intros a Ia Ha.
    assert (Hl : (Some <$> infos) !! a = Some (Some Ia)).
    { by rewrite list_lookup_fmap, Ha. }
    rewrite Hinfos, list_lookup_fmap in Hl.
    apply lookup_lt_Some in Ha.
    rewrite lookup_seqZ_lt in Hl by lia. simpl in Hl. by injection Hl. }
  exists infos, (stateAfter pts false 900 (Z.of_nat (length (pairs pts)))).
  split; [done|]. split; [done|]. split_and!.
  - intros a b Ia Ib Ha%Hat Hb%Hat Hab.
    rewrite (forwardInfo_uniqueCount _ _ _ Ha), (forwardInfo_uniqueCount _ _ _ Hb).
    apply subseteq_size, registryUpTo_mono. lia.
  - intros IF Hlast. rewrite last_lookup in Hlast.
    pose proof (lookup_lt_Some _ _ _ Hlast) as Hlt. apply Hat in Hlast.
    rewrite (forwardInfo_uniqueCount _ _ _ Hlast). simpl.
    do 2 f_equal. lia.
  - intros Hnd Hex. simpl. apply registry_counts_squares; [done|done|lia].
Qed.

Lemma duplicated_no_square sq : ¬ square_in duplicated sq.
Proof.
  destruct sq as [[px py] [vx vy]]. intros [Hv Hin]. apply Hv. simpl.
  assert (H1 : (px, py) ∈ coords <$> duplicated) by (apply Hin; simpl; set_solver).
  assert (H2 : vadd (px, py) (vx, vy) ∈ coords <$> duplicated)
    by (apply Hin; simpl; set_solver).
  unfold duplicated, coords, vadd in H1, H2. simpl in H1, H2.
  rewrite !elem_of_cons, elem_of_nil in H1, H2.
  destruct H1 as [H1|[H1|[]]], H2 as [H2|[H2|[]]];
    injection H1 as -> ->; injection H2 as Hx Hy; f_equal; lia.
Qed.

(** ** The scenarios of the specification, evaluated *)

(** The square of side 2: the first pair finds it through the left
    rotation, the other five pairs add nothing. *)
Example unitSquare_forward :
  ∃ infos s',
    play 6 (mount unitSquare) = Ok (infos, s')
    ∧ (StepInfo.leftOK <$> head infos, StepInfo.rightOK <$> head infos)
      = (Some true, Some false)
    ∧ StepInfo.newlyAddedSquares <$> infos
      = [["1,1|1,3|3,1|3,3"]; []; []; []; []; []]
    ∧ StepInfo.uniqueCount <$> infos = [1; 1; 1; 1; 1; 1]%nat
    ∧ step s' = Int 0.
Proof. eexists _, _. split; [vm_compute; reflexivity|]. vm_compute. done. Qed.

(** The sample data holds two squares, the axis-aligned one and the rotated
    one. *)
Example axisAligned_forward :
  ∃ infos s',
    play 66 (mount axisAligned) = Ok (infos, s')
    ∧ uniqueSquaresRef s' = {[ "1,1|1,3|3,1|3,3"; "5,2|6,1|6,3|7,2" ]}
    ∧ (StepInfo.uniqueCount <$> last infos) = Some 2%nat.
Proof. eexists _, _. split; [vm_compute; reflexivity|]. vm_compute. done. Qed.

(** Rotating left then right, or right then left, gives the vector back. *)
Example rotLeft_rotRight (dx dy : Z) :
  rotRight (rotLeft dx dy).1 (rotLeft dx dy).2 = (dx, dy)
  ∧ rotLeft (rotRight dx dy).1 (rotRight dx dy).2 = (dx, dy).
Proof. unfold rotLeft, rotRight. simpl. split; f_equal; lia. Qed.

(** ** More on keys and the membership set *)

Lemma membership_list_to_set (pts : list Pt) :
  membership pts = list_to_set (keyOf <$> pts).
Proof. apply set_eq. intros s. by rewrite membership_elem, elem_of_list_to_set. Qed.

Lemma size_list_to_set_le (l : list string) :
  (size (list_to_set l : gset string) ≤ length l)%nat.
Proof.
  induction l as [|a l IH]; [rewrite list_to_set_nil, size_empty; simpl; lia|].
  rewrite list_to_set_cons. cbn [length].
  destruct (decide (a ∈ l)).
  - replace ({[a]} ∪ list_to_set l : gset string) with (list_to_set l : gset string)
      by set_solver. lia.
  - rewrite size_union by set_solver. rewrite size_singleton. lia.
Qed.

Lemma size_list_to_set_NoDup (l : list string) :
  size (list_to_set l : gset string) = length l ↔ NoDup l.
Proof.
  split; [|apply size_list_to_set].
  induction l as [|a l IH]; [constructor|].
  rewrite list_to_set_cons. cbn [length]. intros Hsz.
  destruct (decide (a ∈ l)) as [Hin|Hin].
  - replace ({[a]} ∪ list_to_set l : gset string) with (list_to_set l : gset string)
      in Hsz by set_solver.
    pose proof (size_list_to_set_le l). lia.
  - rewrite size_union in Hsz by set_solver. rewrite size_singleton in Hsz.
    constructor; [done|]. apply IH. lia.
Qed.

Lemma NoDup_keys_coords (pts : list Pt) :
  NoDup (keyOf <$> pts) ↔ NoDup (coords <$> pts).
Proof.
  assert (Hk : keyOf <$> pts = keyOfCoords <$> (coords <$> pts)).
  { by rewrite <- list_fmap_compose. }
  rewrite Hk. split; [apply NoDup_fmap_1|apply NoDup_fmap_2, _].
Qed.

(** ** The two sides of an edge *)

Lemma fl_pm a t : safe a → fl (a + - t) = fl (a + t) → t = 0.
Proof.
  intros Ha Heq. destruct (decide (t = 0)) as [|Hne]; [done|]. exfalso.
  destruct (decide (0 < t)).
  - pose proof (fl_apart a t Ha ltac:(lia)) as H.
    replace (a - t) with (a + - t) in H by lia. lia.
  - pose proof (fl_apart a (- t) Ha ltac:(lia)) as H.
    replace (a - - t) with (a + t) in H by lia. lia.
Qed.

Lemma fl_cross a b t :
  safe a → safe b →
  fl (a + - t) = fl (b + t) → fl (b + - t) = fl (a + t) → t = 0.
Proof.
  intros Ha Hb H1 H2. destruct (decide (t = 0)) as [|Hne]; [done|]. exfalso.
  destruct (decide (0 < t)).
  - pose proof (fl_apart a t Ha ltac:(lia)) as Ga.
    pose proof (fl_apart b t Hb ltac:(lia)) as Gb.
    replace (a - t) with (a + - t) in Ga by lia.
    replace (b - t) with (b + - t) in Gb by lia. lia.
  - pose proof (fl_apart a (- t) Ha ltac:(lia)) as Ga.
    pose proof (fl_apart b (- t) Hb ltac:(lia)) as Gb.
    replace (a - - t) with (a + t) in Ga by lia.
    replace (b - - t) with (b + t) in Gb by lia. lia.
Qed.

Lemma edge_nonzero (A B : Pt) : coords A ≠ coords B → edge A B ≠ (0, 0).
Proof.
  unfold edge, js_sub. intros Hne [= Hx Hy].
  apply (proj1 (fl_zero _)) in Hx. apply (proj1 (fl_zero _)) in Hy.
  apply Hne. unfold coords. f_equal; lia.
Qed.

(** On safe integers the two sides of an edge between different points have
    different keys, rounded or not. *)
Lemma leftKey_rightKey_ne (A B : Pt) :
  safePt A → safePt B → coords A ≠ coords B → leftKey A B ≠ rightKey A B.
Proof.
  intros [HAx HAy] [HBx HBy] Hne%edge_nonzero Heq.
  apply normalizeSquareKey_perm in Heq.
  rewrite !fmap_cons, fmap_nil in Heq. do 2 apply (inj (cons _)) in Heq.
  apply Hne. destruct (edge A B) as [e f] eqn:He.
  unfold coords, candC, candD, candC2, candD2, js_add in Heq.
  rewrite He in Heq. cbn [fst snd Pt.x Pt.y] in Heq.
  apply Permutation_length_2 in Heq as [[[= Hx Hy] _] | [[= Hx Hy] [= Hx' Hy']]].
  - apply fl_pm in Hx; [|done]. symmetry in Hy. apply fl_pm in Hy; [|done].
    by subst.
  - pose proof (fl_cross _ _ _ HAx HBx Hx Hx') as ->.
    symmetry in Hy, Hy'. pose proof (fl_cross _ _ _ HBy HAy Hy Hy') as ->. done.
Qed.

Lemma leftKey_rightKey_eq (A B : Pt) : coords A = coords B → leftKey A B = rightKey A B.
Proof.
  intros Heq. apply normalizeSquareKey_perm. rewrite !fmap_cons.
  assert (H1 : coords (candC A B) = coords (candC2 A B)).
  { unfold coords, candC, candC2. by rewrite (edge_coinciding A B Heq). }
  assert (H2 : coords (candD A B) = coords (candD2 A B)).
  { unfold coords, candD, candD2. by rewrite (edge_coinciding A B Heq). }
  by rewrite H1, H2.
Qed.

Lemma confirmed_NoDup mem (A B : Pt) :
  safePt A → safePt B → coords A ≠ coords B → NoDup (confirmed mem A B).
Proof.
  intros HA HB Hne. apply (leftKey_rightKey_ne A B HA HB) in Hne. unfold confirmed.
  destruct (leftOKof mem A B), (rightOKof mem A B); simpl;
    repeat constructor; set_solver.
Qed.

Lemma filter_ext_Forall {X} (P Q : X → Prop)
    `{∀ x, Decision (P x), ∀ x, Decision (Q x)} (l : list X) :
  Forall (λ x, P x ↔ Q x) l → filter P l = filter Q l.
Proof.
  induction 1 as [|x l Hx _ IH]; [done|].
  rewrite !filter_cons, IH. destruct (decide (P x)), (decide (Q x)); tauto.
Qed.

Lemma addKeys_snd_filter keys (st : gset string * list string) :
  NoDup keys →
  (addKeys keys st).2 = st.2 ++ filter (λ s, s ∉ st.1) keys.
Proof.
  intros Hnd. revert st. induction Hnd as [|key keys Hkey Hnd IH]; intros st.
  - simpl. by rewrite app_nil_r.
  - rewrite addKeys_cons, IH. unfold add_new. rewrite filter_cons.
    destruct (decide (key ∈ st.1)) as [Hin|Hin]; simpl.
    + by rewrite decide_False by auto.
    + rewrite decide_True by done. rewrite <- app_assoc. simpl. do 2 f_equal.
      apply filter_ext_Forall, Forall_forall. intros s Hs.
      rewrite elem_of_union, elem_of_singleton.
      assert (s ≠ key) by (intros ->; done). tauto.
Qed.

(** ** Stepping through the pair list *)

Lemma js_rem_mod a b : 0 ≤ a → 0 < b → js_rem a b = Int (a mod b).
Proof.
  intros Ha Hb. unfold js_rem. rewrite decide_False by lia.
  f_equal. by apply Z.rem_mod_nonneg.
Qed.

Lemma nextStepRes_valid (s : State) (k : Z) (p : Pair) (A B : Pt) :
  step s = Int k → pairAt (points s) (pairs (points s)) k = Some (p, A, B) →
  let pts := points s in
  let mem := membership pts in
  let len := Z.of_nat (length (pairs pts)) in
  let reg := if decide (k ≤ seenUpToRef s) then registryUpTo pts (pairs pts) mem k
             else uniqueSquaresRef s ∪ list_to_set (confirmed mem A B) in
  nextStepRes s
  = Ok (stepInfoOf mem p A B
          (addKeys (confirmed mem A B) (uniqueSquaresRef s, [])).2 (size reg),
        mkState pts (playing s) (speed s) (Int ((k + 1) mod len)) reg
          (Z.max (seenUpToRef s) k)).
Proof.
  intros Hstep Hp pts mem len reg.
  assert (Hv : valid pts k) by (apply pairAt_valid; eauto).
  unfold nextStepRes, computeStepAt. rewrite Hstep.
  rewrite (computeStepOf_valid _ _ _ _ _ _ _ Hp). simpl.
  do 3 f_equal. unfold valid in Hv. apply js_rem_mod; lia.
Qed.

Lemma keysAt_allKeys pts t :
  valid pts t → list_to_set (keysAt pts (pairs pts) (membership pts) t) ⊆ allKeys pts.
Proof.
  intros Hv s Hs%elem_of_list_to_set. apply elem_of_registryUpTo.
  exists t. unfold valid in Hv. split; [lia|done].
Qed.

Lemma registryUpTo_allKeys pts k :
  valid pts k → registryUpTo pts (pairs pts) (membership pts) k ⊆ allKeys pts.
Proof. intros Hv. apply registryUpTo_mono. unfold valid in Hv. lia. Qed.

Lemma nextStep_wellFormed (s : State) :
  wellFormed s → ∃ s', nextStep s = Ok s' ∧ wellFormed s' ∧ points s' = points s.
Proof.
  intros ((k & Hstep & Hv) & Hseen & Hreg).
  destruct (valid_pairAt _ k Hv) as (p & A & B & Hp & _).
  unfold nextStep. rewrite (nextStepRes_valid s k p A B Hstep Hp). simpl.
  eexists. split; [done|]. split; [|done]. unfold wellFormed. simpl. split_and!.
  - eexists. split; [done|]. unfold valid in *.
    apply Z.mod_pos_bound. lia.
  - unfold valid in Hv. lia.
  - unfold valid in Hv. lia.
  - case_decide.
    + by apply registryUpTo_allKeys.
    + apply union_least; [done|].
      pose proof (keysAt_allKeys _ k Hv) as Hk. unfold keysAt in Hk. by rewrite Hp in Hk.
Qed.

Lemma prevStep_step (s : State) (k : Z) :
  step s = Int k → valid (points s) k →
  step (prevStep s) = Int ((k - 1) mod Z.of_nat (length (pairs (points s)))).
Proof.
  intros Hstep Hv. unfold prevStep. simpl. rewrite Hstep. simpl. unfold valid in Hv.
  rewrite js_rem_mod by lia. f_equal.
  rewrite <- (Z.mod_add (k - 1) 1) by lia. f_equal. lia.
Qed.

Lemma prevStep_wellFormed (s : State) : wellFormed s → wellFormed (prevStep s).
Proof.
  intros ((k & Hstep & Hv) & Hseen & Hreg).
  split; [|split; [exact Hseen|exact Hreg]].
  exists ((k - 1) mod Z.of_nat (length (pairs (points s)))).
  split; [by apply prevStep_step|]. unfold valid in *. simpl.
  apply Z.mod_pos_bound. lia.
Qed.

Lemma mount_wellFormed (pts : list Pt) : (2 ≤ length pts)%nat → wellFormed (mount pts).
Proof.
  intros Hlen. unfold wellFormed. simpl.
  assert (0 < Z.of_nat (length (pairs pts))).
  { rewrite pairs_enumerate, length_enumerate.
    destruct pts as [|a [|b pts]]; simpl in Hlen; try lia.
    assert (1 ≤ length (a :: b :: pts) * (length (a :: b :: pts) - 1) / 2)%nat; [|lia].
    apply Nat.div_le_lower_bound; [lia|]. simpl. lia. }
  split_and!; [|lia|lia|set_solver].
  exists 0. split; [done|]. unfold valid. lia.
Qed.

Lemma reset_wellFormed (s : State) : wellFormed s → wellFormed (reset s).
Proof.
  intros ((k & Hstep & Hv) & Hseen & Hreg). unfold wellFormed. simpl.
  unfold valid in *. split_and!; [|lia|lia|set_solver].
  exists 0. split; [done|]. lia.
Qed.

Lemma dispatch_wellFormed (a : action) (s : State) :
  wellFormed s → ∃ s', dispatch a s = Ok s' ∧ wellFormed s' ∧ points s' = points s.
Proof.
  intros Hwf. destruct a; simpl.
  - by apply nextStep_wellFormed.
  - eexists. split; [done|]. split; [by apply prevStep_wellFormed|done].
  - eexists. split; [done|]. split; [by apply reset_wellFormed|done].
  - eexists. split; [done|]. split; [|done]. apply Hwf.
  - eexists. split; [done|]. split; [|done]. apply Hwf.
  - destruct (playing s); [by apply nextStep_wellFormed|]. eauto.
Qed.

Lemma run_wellFormed (acts : list action) (s : State) :
  wellFormed s → ∃ s', run acts s = Ok s' ∧ wellFormed s' ∧ points s' = points s.
Proof.
  revert s. induction acts as [|a acts IH]; intros s Hwf; [by exists s|].
  destruct (dispatch_wellFormed a s Hwf) as (s1 & Hd & Hwf1 & Hpts).
  destruct (IH s1 Hwf1) as (s' & Hrun & Hwf' & Hpts').
  exists s'. cbn [run]. rewrite Hd. simpl. split; [done|]. split; [done|congruence].
Qed.

Lemma info_wellFormed (s : State) :
  wellFormed s →
  ∃ I, info s = Ok I ∧ (StepInfo.uniqueCount I ≤ size (allKeys (points s)))%nat.
Proof.
  intros ((k & Hstep & Hv) & Hseen & Hreg).
  destruct (valid_pairAt _ k Hv) as (p & A & B & Hp & _).
  unfold info, computeStepAt. rewrite Hstep.
  rewrite (computeStepOf_valid _ _ _ _ _ _ _ Hp). simpl.
  eexists. split; [done|]. simpl. apply subseteq_size. case_decide.
  - by apply registryUpTo_allKeys.
  - apply union_least; [done|].
    pose proof (keysAt_allKeys _ k Hv) as Hk. unfold keysAt in Hk. by rewrite Hp in Hk.
Qed.

(** ** Renders *)

Lemma info_belongsTo (s : State) :
  wellFormed s →
  ∃ k I, step s = Int k ∧ info s = Ok I ∧ belongsTo (points s) k I.
Proof.
  intros ((k & Hstep & Hv) & Hseen & Hreg).
  destruct (valid_pairAt _ k Hv) as (p & A & B & Hp & _).
  unfold info, computeStepAt. rewrite Hstep.
  rewrite (computeStepOf_valid _ _ _ _ _ _ _ Hp). simpl.
  eexists k, _. split; [done|]. split; [done|].
  eexists p, A, B, _, _. split; [done|]. split; [done|].
  apply subseteq_size. case_decide.
  - by apply registryUpTo_allKeys.
  - apply union_least; [done|].
    pose proof (keysAt_allKeys _ k Hv) as Hk. unfold keysAt in Hk. by rewrite Hp in Hk.
Qed.


Lemma render_viewOK (prev : option View) (s : State) :
  wellFormed s →
  (∀ v, prev = Some v → viewOK v ∧ points (state v) = points s) →
  ∃ v', render prev s = Ok v' ∧ viewOK v' ∧ state v' = s.
Proof.
  intros Hwf Hprev. destruct (info_belongsTo s Hwf) as (k & I & Hk & HI & Hb).
  assert (Hfresh : ∃ v', (I ← info s; Ok (mkView s (step s, points s) I)) = Ok v'
                         ∧ viewOK v' ∧ state v' = s).
  { rewrite HI. eexists. split; [done|]. split; [|done].
    split; [done|]. split; [done|]. by exists k. }
  unfold render. destruct prev as [v|]; [|done].
  case_decide as Hdeps; [|done].
  destruct (Hprev v eq_refl) as ((_ & Hd & (k' & Hk' & Hb')) & Hpts).
  eexists. split; [done|]. split; [|done]. split; [done|]. split; [done|].
  cbn [state shown]. rewrite Hd in Hdeps. injection Hdeps as Hst _.
  exists k'. rewrite <- Hst, <- Hpts. done.
Qed.

Lemma start_viewOK (pts : list Pt) :
  (2 ≤ length pts)%nat → ∃ v, start pts = Ok v ∧ viewOK v ∧ state v = mount pts.
Proof.
  intros Hlen. apply render_viewOK; [by apply mount_wellFormed|done].
Qed.

Lemma act_viewOK (a : action) (v : View) :
  viewOK v →
  ∃ v', act a v = Ok v' ∧ viewOK v' ∧ points (state v') = points (state v).
Proof.
  intros Hv. pose proof Hv as (Hwf & _).
  destruct (dispatch_wellFormed a (state v) Hwf) as (s' & Hd & Hwf' & Hpts).
  destruct (render_viewOK (Some v) s' Hwf') as (v' & Hr & Hv' & Hs').
  { by intros ? [= <-]. }
  exists v'. unfold act. rewrite Hd. simpl. split; [done|]. split; [done|].
  by rewrite Hs'.
Qed.

Lemma session_viewOK (acts : list action) (v : View) :
  viewOK v →
  ∃ v', session acts v = Ok v' ∧ viewOK v' ∧ points (state v') = points (state v).
Proof.
  revert v. induction acts as [|a acts IH]; intros v Hv; [by exists v|].
  destruct (act_viewOK a v Hv) as (v1 & Ha & Hv1 & Hpts).
  destruct (IH v1 Hv1) as (v' & Hs & Hv' & Hpts').
  exists v'. cbn [session]. rewrite Ha. simpl. split; [done|]. split; [done|congruence].
Qed.

Lemma component_viewOK (pts : list Pt) (acts : list action) :
  (2 ≤ length pts)%nat →
  ∃ v, component pts acts = Ok v ∧ viewOK v ∧ points (state v) = pts.
Proof.
  intros Hlen. destruct (start_viewOK pts Hlen) as (v0 & Hstart & Hv0 & Hs0).
  destruct (session_viewOK acts v0 Hv0) as (v & Hs & Hv & Hpts).
  exists v. unfold component. rewrite Hstart. simpl. split; [done|]. split; [done|].
  by rewrite Hpts, Hs0.
Qed.


Lemma sameTracker_nextStepRes (s1 s2 : State) :
  sameTracker s1 s2 →
  match nextStepRes s1, nextStepRes s2 with
  | Ok (r1, t1), Ok (r2, t2) =>
      r1 = r2 ∧ sameTracker t1 t2
      ∧ playing t1 = playing s1 ∧ speed t1 = speed s1
      ∧ playing t2 = playing s2 ∧ speed t2 = speed s2
  | TypeError, TypeError => True
  | OutOfFuel, OutOfFuel => True
  | _, _ => False
  end.
Proof.
  intros (Hpts & Hstep & Hreg & Hseen).
  destruct s1 as [pts1 pl1 sp1 st1 reg1 seen1], s2 as [pts2 pl2 sp2 st2 reg2 seen2].
  simpl in *. subst pts2 st2 reg2 seen2.
  unfold nextStepRes, computeStepAt. simpl.
  destruct st1 as [k|]; [|done].
  destruct (computeStepOf pts1 k reg1 seen1) as [[res live]| |]; simpl; [|done..].
  unfold sameTracker. simpl. done.
Qed.

Lemma sameTracker_play (n : nat) (s1 s2 : State) infos t1 :
  sameTracker s1 s2 → play n s1 = Ok (infos, t1) →
  ∃ t2, play n s2 = Ok (infos, t2) ∧ sameTracker t1 t2.
Proof.
  revert s1 s2 infos t1. induction n as [|n IH]; intros s1 s2 infos t1 Hs.
  - intros [= <- <-]. by exists s2.
  - cbn [play]. pose proof (sameTracker_nextStepRes s1 s2 Hs) as Hn.
    destruct (nextStepRes s1) as [[r1 u1]| |]; [|done..].
    destruct (nextStepRes s2) as [[r2 u2]| |]; [|done..].
    destruct Hn as (-> & Hu & _). simpl.
    destruct (play n u1) as [[l v1]| |] eqn:Hp1; [|done..]. simpl.
    intros [= <- <-].
    destruct (IH u1 u2 l v1 Hu Hp1) as (t2 & -> & Ht). simpl. by exists t2.
Qed.

Lemma sameTracker_sym s1 s2 : sameTracker s1 s2 → sameTracker s2 s1.
Proof. unfold sameTracker. naive_solver. Qed.

(** ** New keys along a forward run *)

Lemma newlyAt_elem pts t s :
  s ∈ newlyAt pts t ↔
  s ∈ keysAt pts (pairs pts) (membership pts) t
  ∧ s ∉ registryUpTo pts (pairs pts) (membership pts) (t - 1).
Proof. unfold newlyAt. rewrite addKeys_snd_elem. simpl. set_solver. Qed.

Lemma newlyAt_NoDup pts t : NoDup (newlyAt pts t).
Proof. apply addKeys_snd_NoDup; simpl; [constructor|set_solver]. Qed.

Lemma newlyAt_partition pts (n : nat) :
  NoDup (seqZ 0 (Z.of_nat n) ≫= newlyAt pts)
  ∧ list_to_set (seqZ 0 (Z.of_nat n) ≫= newlyAt pts)
    = registryUpTo pts (pairs pts) (membership pts) (Z.of_nat n - 1).
Proof.
  induction n as [|n [IHnd IHset]].
  - split; [constructor|]. by rewrite registryUpTo_neg by lia.
  - rewrite seqZ_S, bind_app, bind_cons, Z.add_0_l.
    change ([] ≫= newlyAt pts) with (@nil string). rewrite app_nil_r.
    replace (Z.of_nat (S n) - 1) with (Z.of_nat n) by lia. split.
    + apply NoDup_app. split_and!; [done| |apply newlyAt_NoDup].
      intros s Hs Hnew%newlyAt_elem. destruct Hnew as [_ Hnew]. apply Hnew.
      rewrite <- IHset. by apply elem_of_list_to_set.
    + rewrite list_to_set_app_L, IHset, (registryUpTo_step _ _ _ (Z.of_nat n)) by lia.
      apply set_eq. intros s.
      rewrite !elem_of_union, !elem_of_list_to_set, newlyAt_elem.
      destruct (decide (s ∈ registryUpTo pts (pairs pts) (membership pts)
                            (Z.of_nat n - 1))); tauto.
Qed.

Lemma forwardInfo_newly pts t I :
  forwardInfo pts t = Some I → StepInfo.newlyAddedSquares I = newlyAt pts t.
Proof.
  unfold forwardInfo, newlyAt, keysAt.
  destruct (pairAt _ _ _) as [[[p A] B]|]; simpl; [|done]. by intros [= <-].
Qed.

Lemma forward_infos_newly pts (infos : list StepInfo) (l : list Z) :
  Some <$> infos = forwardInfo pts <$> l →
  infos ≫= StepInfo.newlyAddedSquares = l ≫= newlyAt pts.
Proof.
  revert l. induction infos as [|I infos IH]; intros [|t l] Heq; try done.
  rewrite !fmap_cons in Heq. injection Heq as HI Heq. symmetry in HI.
  rewrite !bind_cons, (forwardInfo_newly _ _ _ HI). f_equal. by apply IH.
Qed.

(** ** Counting with multiplicity *)

Lemma occ_NoDup x (l : list string) :
  NoDup l → occ x l = if decide (x ∈ l) then 1%nat else 0%nat.
Proof.
  unfold occ. induction 1 as [|y l Hy Hnd IH]; [done|].
  rewrite filter_cons. destruct (decide (x = y)) as [->|Hne].
  - simpl. rewrite IH. rewrite decide_False by done.
    by rewrite decide_True by set_solver.
  - rewrite IH. destruct (decide (x ∈ l)).
    + by rewrite decide_True by set_solver.
    + by rewrite decide_False by set_solver.
Qed.

Lemma occ_app x l1 l2 : occ x (l1 ++ l2) = (occ x l1 + occ x l2)%nat.
Proof. unfold occ. by rewrite filter_app, length_app. Qed.

Lemma occ_bind {X} (f : X → list string) (l : list X) x :
  (∀ p, NoDup (f p)) →
  occ x (l ≫= f) = length (filter (λ p, x ∈ f p) l).
Proof.
  intros Hf. induction l as [|p l IH]; [done|].
  rewrite bind_cons, occ_app, IH, filter_cons, (occ_NoDup _ _ (Hf p)).
  by destruct (decide (x ∈ f p)).
Qed.

Lemma occ_pos x l : x ∈ l → (0 < occ x l)%nat.
Proof.
  intros Hx. unfold occ.
  assert (Hin : x ∈ filter (x =.) l) by (by apply list_elem_of_filter).
  destruct (filter (x =.) l); [by apply elem_of_nil in Hin|simpl; lia].
Qed.

Lemma length_uniform_occ (m : nat) (L : list string) :
  (∀ x, x ∈ L → occ x L = m) →
  length L = (m * size (list_to_set L : gset string))%nat.
Proof.
  remember (length L) as n eqn:Hn. revert L Hn.
  induction n as [n IH] using lt_wf_ind. intros L Hn Hocc.
  destruct L as [|x L0]; [rewrite list_to_set_nil, size_empty; simpl in *; lia|].
  set (L := x :: L0) in *.
  set (L' := filter (λ y, ¬ x = y) L).
  assert (Hx : x ∈ L) by set_solver.
  assert (Hperm : filter (x =.) L ++ L' ≡ₚ L) by apply filter_app_complement.
  assert (Hlen : length L = (m + length L')%nat).
  { rewrite <- Hperm at 1. rewrite length_app. f_equal. by apply Hocc. }
  assert (Hm : (0 < m)%nat) by (rewrite <- (Hocc x Hx); by apply occ_pos).
  assert (Hocc' : ∀ y, y ∈ L' → occ y L' = m).
  { intros y [Hy HyL]%list_elem_of_filter. rewrite <- (Hocc y HyL).
    unfold occ, L'. rewrite list_filter_filter. f_equal.
    apply filter_ext_Forall, Forall_forall. intros z _. naive_solver. }
  assert (Hset : list_to_set L = ({[ x ]} ∪ list_to_set L' : gset string)).
  { apply set_eq. intros y.
    rewrite elem_of_union, elem_of_singleton, !elem_of_list_to_set.
    unfold L'. rewrite list_elem_of_filter.
    destruct (decide (x = y)) as [->|]; naive_solver. }
  rewrite Hn, Hlen, Hset, size_union, size_singleton.
  - rewrite (IH (length L')) with (L := L'); [lia|lia|done|done].
  - apply disjoint_singleton_l. rewrite elem_of_list_to_set. unfold L'.
    rewrite list_elem_of_filter. naive_solver.
Qed.

(** ** The four edges of a square *)

Lemma rotations_of_square (P v Q w : Z * Z) :
  v ≠ (0, 0) → w ≠ (0, 0) →
  (∀ c, c ∈ corners (Q, w) → c ∈ corners (P, v)) →
  (Q, vadd Q w)
  ∈ [ (P, vadd P v);
      (vadd P v, vadd (vadd P v) (rot v));
      (vadd (vadd P v) (rot v), vadd P (rot v));
      (vadd P (rot v), P) ].
Proof.
  destruct P as [px py], v as [vx vy], Q as [qx qy], w as [wx wy].
  intros Hv Hw Hin.
  assert (Hvz : vx ≠ 0 ∨ vy ≠ 0).
  { destruct (decide (vx = 0)) as [->|]; [|by left]. right. intros ->. by apply Hv. }
  assert (Hwz : wx ≠ 0 ∨ wy ≠ 0).
  { destruct (decide (wx = 0)) as [->|]; [|by left]. right. intros ->. by apply Hw. }
  assert (H0 : (qx, qy) ∈ corners ((px, py), (vx, vy))).
  { apply Hin. simpl. set_solver. }
  assert (H1 : vadd (qx, qy) (wx, wy) ∈ corners ((px, py), (vx, vy))).
  { apply Hin. simpl. set_solver. }
  assert (H2 : vadd (vadd (qx, qy) (wx, wy)) (rot (wx, wy))
               ∈ corners ((px, py), (vx, vy))).
  { apply Hin. simpl. set_solver. }
  clear Hin Hv Hw.
  unfold corners, vadd, rot in *. simpl in *.
  rewrite !elem_of_cons, !elem_of_nil in *. rewrite !pair_equal_spec in *. simpl in *.
  destruct H0 as [H0|[H0|[H0|[H0|[]]]]];
    destruct H1 as [H1|[H1|[H1|[H1|[]]]]];
    destruct H2 as [H2|[H2|[H2|[H2|[]]]]];
    solve [ exfalso; lia
          | left; repeat split; lia
          | right; left; repeat split; lia
          | right; right; left; repeat split; lia
          | right; right; right; left; repeat split; lia ].
Qed.

Lemma occ_bind_in {X} (f : X → list string) (l : list X) x :
  (∀ p, p ∈ l → NoDup (f p)) →
  occ x (l ≫= f) = length (filter (λ p, x ∈ f p) l).
Proof.
  intros Hf. induction l as [|p l IH]; [done|].
  rewrite bind_cons, occ_app, IH, filter_cons, (occ_NoDup _ _ (Hf p ltac:(set_solver)))
    by (intros; apply Hf; set_solver).
  by destruct (decide (x ∈ f p)).
Qed.

Lemma keysAt_edgeKeys pts (pre l : list Pair) :
  seqZ (Z.of_nat (length pre)) (Z.of_nat (length l))
    ≫= keysAt pts (pre ++ l) (membership pts)
  = l ≫= edgeKeys pts.
Proof.
  revert pre. induction l as [|p l IH]; intros pre; [done|].
  rewrite seqZ_cons by (simpl; lia). rewrite !bind_cons. f_equal.
  - unfold keysAt, pairAt, edgeKeys.
    assert (Hat : at_index (pre ++ p :: l) (Z.of_nat (length pre)) = Some p).
    { apply at_index_Some. split; [lia|]. rewrite Nat2Z.id.
      by rewrite lookup_app_r, Nat.sub_diag by lia. }
    rewrite Hat. simpl.
    destruct (pts !! Pair.i p); simpl; [|done].
    destruct (pts !! Pair.j p); simpl; done.
  - specialize (IH (pre ++ [p])). rewrite <- app_assoc in IH. simpl in IH.
    rewrite <- IH. rewrite length_app. simpl. f_equal. f_equal; lia.
Qed.

Lemma allKeys_edgeKeys pts :
  allKeys pts = list_to_set (pairs pts ≫= edgeKeys pts).
Proof.
  unfold allKeys, registryUpTo.
  replace (Z.of_nat (length (pairs pts)) - 1 + 1) with (Z.of_nat (length (pairs pts)))
    by lia.
  by rewrite <- (keysAt_edgeKeys pts [] (pairs pts)).
Qed.

Lemma ordered_lt (a b : nat) : (a < b)%nat → ordered a b = Pair.mk a b.
Proof. intros. unfold ordered. f_equal; lia. Qed.

Lemma ordered_gt (a b : nat) : (b < a)%nat → ordered a b = Pair.mk b a.
Proof. intros. unfold ordered. f_equal; lia. Qed.

Lemma ordered_inj (a b c d : nat) :
  ordered a b = ordered c d → (a = c ∧ b = d) ∨ (a = d ∧ b = c).
Proof. unfold ordered. intros [= H1 H2]. lia. Qed.

(** Turning the presentation of a square by a quarter: same corners, next
    edge first. *)
Lemma rotate_square (P v : Z * Z) :
  corners (vadd P v, rot v)
  = [vadd P v; vadd (vadd P v) (rot v); vadd P (rot v); P].
Proof.
  destruct P as [px py], v as [vx vy]. unfold corners, vadd, rot. simpl.
  repeat match goal with
         | |- _ :: _ = _ :: _ => f_equal
         | |- (_, _) = (_, _) => f_equal
         end; lia.
Qed.

Lemma rotate_square_perm (P v : Z * Z) :
  corners (vadd P v, rot v) ≡ₚ corners (P, v).
Proof.
  rewrite rotate_square. unfold corners. symmetry.
  apply (Permutation_cons_append [_; _; _] P).
Qed.

Lemma rot_nonzero (v : Z * Z) : v ≠ (0, 0) → rot v ≠ (0, 0).
Proof.
  destruct v as [vx vy]. unfold rot. simpl. intros Hv [= H1 H2]. apply Hv.
  f_equal; lia.
Qed.

Lemma rotate_square_in pts (P v : Z * Z) :
  square_in pts (P, v) → square_in pts (vadd P v, rot v).
Proof.
  intros [Hv Hin]. split; [by apply rot_nonzero|].
  intros c Hc. apply Hin. by rewrite <- rotate_square_perm.
Qed.

Lemma rotate_square_key (P v : Z * Z) :
  keyOfSquare (vadd P v, rot v) = keyOfSquare (P, v).
Proof. apply keyOfSquare_perm, rotate_square_perm. Qed.

Section edges.
Variable pts : list Pt.
Hypothesis pts_distinct : NoDup (coords <$> pts).
Hypothesis pts_exact : exact pts.

Lemma index_unique (a b : nat) (A B : Pt) :
  pts !! a = Some A → pts !! b = Some B → coords A = coords B → a = b.
Proof.
  intros HA HB Heq. destruct (decide (a = b)) as [|Hne]; [done|].
  by destruct (distinct_coords pts a b A B pts_distinct HA HB Hne).
Qed.

Lemma edgeKeys_NoDup (p : Pair) : p ∈ pairs pts → NoDup (edgeKeys pts p).
Proof.
  rewrite pairs_enumerate, elem_of_enumerate. intros Hij. unfold edgeKeys.
  destruct (pts !! Pair.i p) as [A|] eqn:HA; [|constructor].
  destruct (pts !! Pair.j p) as [B|] eqn:HB; [|constructor].
  apply confirmed_NoDup; [by eapply exactPt_safePt, exact_lookup..|].
  eapply distinct_coords; [done..|lia].
Qed.

(** The edge from the first to the second corner of a square confirms it. *)
Lemma edge_confirms (P v : Z * Z) (a b : nat) (A0 B0 : Pt) :
  square_in pts (P, v) →
  pts !! a = Some A0 → pts !! b = Some B0 →
  coords A0 = P → coords B0 = vadd P v →
  ordered a b ∈ pairs pts ∧ keyOfSquare (P, v) ∈ edgeKeys pts (ordered a b).
Proof.
  intros [Hv Hin] Ha Hb HA0 HB0. simpl in Hv.
  assert (Hsq : (P, v) = (coords A0, (Pt.x B0 - Pt.x A0, Pt.y B0 - Pt.y A0))).
  { destruct P as [px py], v as [vx vy]. unfold coords, vadd in *. simpl in *.
    injection HA0 as -> ->. injection HB0 as Hx Hy.
    repeat match goal with |- (_, _) = (_, _) => f_equal end; lia. }
  assert (Hab : a ≠ b).
  { intros ->. rewrite Ha in Hb. injection Hb as ->.
    apply Hv. injection Hsq as _ ->. f_equal; lia. }
  rewrite Hsq in Hin |- *. clear Hsq HA0 HB0 Hv P v.
  assert (HeA : exactPt A0) by (by eapply exact_lookup).
  assert (HeB : exactPt B0) by (by eapply exact_lookup).
  pose proof (lookup_lt_Some _ _ _ Ha). pose proof (lookup_lt_Some _ _ _ Hb).
  destruct (decide (a < b)%nat) as [Hlt|Hge].
  - rewrite ordered_lt by done. split.
    { rewrite pairs_enumerate, elem_of_enumerate. simpl. lia. }
    unfold edgeKeys. simpl. rewrite Ha, Hb.
    assert (Hok : leftOKof (membership pts) A0 B0 = true).
    { apply leftOKof_true. rewrite !keyOf_membership_coords.
      split; apply Hin; rewrite left_square by done; set_solver. }
    unfold confirmed. rewrite Hok, <- leftKey_square by done. set_solver.
  - rewrite ordered_gt by lia. split.
    { rewrite pairs_enumerate, elem_of_enumerate. simpl. lia. }
    unfold edgeKeys. simpl. rewrite Ha, Hb.
    assert (Hok : rightOKof (membership pts) B0 A0 = true).
    { apply rightOKof_true. rewrite !keyOf_membership_coords.
      split; apply Hin; rewrite right_square by done; set_solver. }
    unfold confirmed. rewrite Hok, <- rightKey_square by done. set_solver.
Qed.

(** A key confirmed on a pair is the key of a square that has the two
    points as first and second corner, in one order or the other. *)
Lemma confirms_edge (p : Pair) (K : string) :
  p ∈ pairs pts → K ∈ edgeKeys pts p →
  ∃ Q w a b Aq Bq,
    square_in pts (Q, w) ∧ K = keyOfSquare (Q, w)
    ∧ pts !! a = Some Aq ∧ coords Aq = Q
    ∧ pts !! b = Some Bq ∧ coords Bq = vadd Q w
    ∧ p = ordered a b.
Proof.
  rewrite pairs_enumerate, elem_of_enumerate. intros Hij. unfold edgeKeys.
  destruct (pts !! Pair.i p) as [A|] eqn:HA; [|by intros ?%elem_of_nil].
  destruct (pts !! Pair.j p) as [B|] eqn:HB; [|by intros ?%elem_of_nil].
  assert (Hne : coords A ≠ coords B).
  { eapply distinct_coords; [done..|lia]. }
  assert (HeA : exactPt A) by (by eapply exact_lookup).
  assert (HeB : exactPt B) by (by eapply exact_lookup).
  assert (HinA : coords A ∈ coords <$> pts).
  { apply list_elem_of_fmap_2. by eapply list_elem_of_lookup_2. }
  assert (HinB : coords B ∈ coords <$> pts).
  { apply list_elem_of_fmap_2. by eapply list_elem_of_lookup_2. }
  unfold confirmed. rewrite elem_of_app. intros [Hs|Hs].
  - destruct (leftOKof (membership pts) A B) eqn:Hok; [|by apply elem_of_nil in Hs].
    apply list_elem_of_singleton in Hs as ->.
    apply leftOKof_true in Hok as [HC HD].
    apply keyOf_membership_coords in HC, HD.
    exists (coords A), (Pt.x B - Pt.x A, Pt.y B - Pt.y A), (Pair.i p), (Pair.j p), A, B.
    split_and!; try done.
    + split; [by apply vector_nonzero|].
      intros c. rewrite left_square, !elem_of_cons, elem_of_nil by done.
      intros [->|[->|[->|[->|[]]]]]; done.
    + by apply leftKey_square.
    + unfold coords, vadd. simpl. f_equal; lia.
    + rewrite ordered_lt by lia. by destruct p.
  - destruct (rightOKof (membership pts) A B) eqn:Hok; [|by apply elem_of_nil in Hs].
    apply list_elem_of_singleton in Hs as ->.
    apply rightOKof_true in Hok as [HC HD].
    apply keyOf_membership_coords in HC, HD.
    exists (coords B), (Pt.x A - Pt.x B, Pt.y A - Pt.y B), (Pair.j p), (Pair.i p), B, A.
    split_and!; try done.
    + split; [apply vector_nonzero; congruence|].
      intros c. rewrite right_square, !elem_of_cons, elem_of_nil by done.
      intros [->|[->|[->|[->|[]]]]]; done.
    + by apply rightKey_square.
    + unfold coords, vadd. simpl. f_equal; lia.
    + rewrite ordered_gt by lia. by destruct p.
Qed.
End edges.

Ltac coord_eq :=
  repeat match goal with
         | |- _ :: _ = _ :: _ => f_equal
         | |- (_, _) = (_, _) => f_equal
         end; lia.

Lemma half_turn_corners (P v : Z * Z) :
  corners (vadd (vadd P v) (rot v), rot (rot v))
  = [vadd (vadd P v) (rot v); vadd P (rot v); P; vadd P v].
Proof.
  destruct P as [px py], v as [vx vy]. unfold corners, vadd, rot. simpl. coord_eq.
Qed.

Lemma three_quarter_turn_corners (P v : Z * Z) :
  corners (vadd P (rot v), rot (rot (rot v)))
  = [vadd P (rot v); P; vadd P v; vadd (vadd P v) (rot v)].
Proof.
  destruct P as [px py], v as [vx vy]. unfold corners, vadd, rot. simpl. coord_eq.
Qed.

Lemma same_corners_square pts (sq sq' : (Z * Z) * (Z * Z)) :
  square_in pts sq → sq'.2 ≠ (0, 0) → corners sq' ≡ₚ corners sq →
  square_in pts sq' ∧ keyOfSquare sq' = keyOfSquare sq.
Proof.
  intros [Hv Hin] Hv' Hperm. split; [|by apply keyOfSquare_perm].
  split; [done|]. intros c Hc. apply Hin. by rewrite <- Hperm.
Qed.

Section four_edges.
Variable pts : list Pt.
Hypothesis pts_distinct : NoDup (coords <$> pts).
Hypothesis pts_exact : exact pts.

(** Exactly four pairs confirm the key of a square: its four edges. *)
Lemma four_edges (sq : (Z * Z) * (Z * Z)) :
  square_in pts sq →
  ∃ four : list Pair,
    NoDup four ∧ length four = 4%nat
    ∧ ∀ p, (p ∈ pairs pts ∧ keyOfSquare sq ∈ edgeKeys pts p) ↔ p ∈ four.
Proof.
  destruct sq as [P v]. intros Hsq. pose proof Hsq as [Hv Hin]. simpl in Hv.
  pose proof (corners_NoDup (P, v) Hv) as Hnd.
  pose (c0 := P). pose (c1 := vadd P v).
  pose (c2 := vadd (vadd P v) (rot v)). pose (c3 := vadd P (rot v)).
  change (corners (P, v)) with [c0; c1; c2; c3] in Hnd, Hin.
  assert (Hidx : ∀ c, c ∈ [c0; c1; c2; c3] → ∃ a A, pts !! a = Some A ∧ coords A = c).
  { intros c Hcin. apply Hin, list_elem_of_fmap in Hcin as (A & -> & HA).
    apply list_elem_of_lookup in HA as [a Ha]. eauto. }
  destruct (Hidx c0 ltac:(set_solver)) as (a0 & A0 & Ha0 & HA0).
  destruct (Hidx c1 ltac:(set_solver)) as (a1 & A1 & Ha1 & HA1).
  destruct (Hidx c2 ltac:(set_solver)) as (a2 & A2 & Ha2 & HA2).
  destruct (Hidx c3 ltac:(set_solver)) as (a3 & A3 & Ha3 & HA3).
  clear Hidx.
  assert (Hne : c0 ≠ c1 ∧ c0 ≠ c2 ∧ c0 ≠ c3 ∧ c1 ≠ c2 ∧ c1 ≠ c3 ∧ c2 ≠ c3).
  { rewrite !NoDup_cons, !elem_of_cons, !elem_of_nil in Hnd.
    destruct Hnd as (H0 & H1 & H2 & _).
    split_and!; intros E.
    - apply H0. by left.
    - apply H0. right. by left.
    - apply H0. right. right. by left.
    - apply H1. by left.
    - apply H1. right. by left.
    - apply H2. by left. }
  assert (Hane : a0 ≠ a1 ∧ a0 ≠ a2 ∧ a0 ≠ a3 ∧ a1 ≠ a2 ∧ a1 ≠ a3 ∧ a2 ≠ a3).
  { destruct Hne as (? & ? & ? & ? & ? & ?).
    split_and!; intros Heq; subst; congruence. }
  exists [ordered a0 a1; ordered a1 a2; ordered a2 a3; ordered a3 a0].
  split_and!; [|done|].
  { destruct Hane as (? & ? & ? & ? & ? & ?).
    rewrite !NoDup_cons, !elem_of_cons, !elem_of_nil.
    split_and!; try (intros H'; repeat destruct H' as [H'|H'];
                     try apply ordered_inj in H'; lia); try done.
    apply NoDup_nil_2. }
  assert (Hsq1 : square_in pts (c1, rot v)
                 ∧ keyOfSquare (c1, rot v) = keyOfSquare (P, v)).
  { apply same_corners_square; [done|by apply rot_nonzero|apply rotate_square_perm]. }
  assert (Hsq2 : square_in pts (c2, rot (rot v))
                 ∧ keyOfSquare (c2, rot (rot v)) = keyOfSquare (P, v)).
  { apply same_corners_square; [done|by do 2 apply rot_nonzero|].
    unfold c2. rewrite half_turn_corners. unfold corners.
    apply (Permutation_app_comm [_; _] [_; _]). }
  assert (Hsq3 : square_in pts (c3, rot (rot (rot v)))
                 ∧ keyOfSquare (c3, rot (rot (rot v))) = keyOfSquare (P, v)).
  { apply same_corners_square; [done|by do 3 apply rot_nonzero|].
    unfold c3. rewrite three_quarter_turn_corners. unfold corners.
    apply (Permutation_cons_append [_; _; _]). }
  assert (H23 : c3 = vadd c2 (rot (rot v))).
  { unfold c2, c3. destruct P as [px py], v as [vx vy]. unfold vadd, rot. simpl.
    coord_eq. }
  assert (H30 : c0 = vadd c3 (rot (rot (rot v)))).
  { unfold c0, c3. destruct P as [px py], v as [vx vy]. unfold vadd, rot. simpl.
    coord_eq. }
  intros p. rewrite !elem_of_cons, elem_of_nil. split.
  - intros [Hp HK].
    destruct (confirms_edge pts pts_distinct pts_exact p _ Hp HK)
      as (Q & w & a & b & Aq & Bq & [Hw HQin] & HKey & Ha & HAq & Hb & HBq & ->).
    simpl in Hw. symmetry in HKey. apply keyOfSquare_perm in HKey.
    assert (Hrot := rotations_of_square P v Q w Hv Hw
                      ltac:(intros c Hcq; by rewrite <- HKey)).
    fold c0 c1 c2 c3 in Hrot. rewrite !elem_of_cons, elem_of_nil in Hrot.
    assert (Hidx : ∀ a' A' c, pts !! a' = Some A' → coords A' = c →
              (coords Aq = c → a = a') ∧ (coords Bq = c → b = a')).
    { intros a' A' c Ha' HA'. split; intros Heq.
      - apply (index_unique pts pts_distinct a a' Aq A' Ha Ha'). congruence.
      - apply (index_unique pts pts_distinct b a' Bq A' Hb Ha'). congruence. }
    destruct Hrot as [Hr|[Hr|[Hr|[Hr|[]]]]];
      apply pair_equal_spec in Hr as [HQ HQw];
      rewrite HQ in HAq; rewrite HQw in HBq.
    + left. f_equal; [by eapply (Hidx a0 A0 c0)|by eapply (Hidx a1 A1 c1)].
    + right; left. f_equal; [by eapply (Hidx a1 A1 c1)|by eapply (Hidx a2 A2 c2)].
    + right; right; left.
      f_equal; [by eapply (Hidx a2 A2 c2)|by eapply (Hidx a3 A3 c3)].
    + right; right; right; left.
      f_equal; [by eapply (Hidx a3 A3 c3)|by eapply (Hidx a0 A0 c0)].
  - intros [->|[->|[->|[->|[]]]]].
    + by apply (edge_confirms pts pts_distinct pts_exact P v a0 a1 A0 A1).
    + destruct Hsq1 as [Hsq1 <-]. by apply (edge_confirms pts pts_distinct pts_exact c1 (rot v) a1 a2 A1 A2).
    + destruct Hsq2 as [Hsq2 <-].
      apply (edge_confirms pts pts_distinct pts_exact c2 (rot (rot v)) a2 a3 A2 A3); try done. congruence.
    + destruct Hsq3 as [Hsq3 <-].
      apply (edge_confirms pts pts_distinct pts_exact c3 (rot (rot (rot v))) a3 a0 A3 A0); try done. congruence.
Qed.

Lemma confirmations_occ (K : string) :
  K ∈ pairs pts ≫= edgeKeys pts → occ K (pairs pts ≫= edgeKeys pts) = 4%nat.
Proof.
  intros (p & HK & Hp)%list_elem_of_bind.
  destruct (confirms_edge pts pts_distinct pts_exact p K Hp HK)
    as (Q & w & _ & _ & _ & _ & Hsq & -> & _).
  destruct (four_edges (Q, w) Hsq) as (four & Hnd & Hlen & Hfour).
  rewrite occ_bind_in by (apply edgeKeys_NoDup; [apply pts_distinct|apply pts_exact]).
  rewrite <- Hlen. apply Permutation_length, NoDup_Permutation; [|done|].
  - apply NoDup_filter. rewrite pairs_enumerate.
    eapply (StronglySorted_irrefl_NoDup lex_lt), enumerate_rows_sorted.
  - intros q. rewrite list_elem_of_filter, <- Hfour. tauto.
Qed.

Lemma confirmations_fourfold :
  length (pairs pts ≫= edgeKeys pts) = (4 * size (allKeys pts))%nat.
Proof.
  rewrite allKeys_edgeKeys. apply length_uniform_occ. apply confirmations_occ.
Qed.
End four_edges.

(** ** The Java reference against the steps *)

Lemma countSquares_loops (pts : list (Z * Z)) :
  countSquares pts
  = (hits ← java_for (seq 0 (length pts)) (countSquares_outer pts) 0;
     Some (int32 (hits `quot` 4))).
Proof. reflexivity. Qed.

Lemma int32_small z : - 2 ^ 31 ≤ z < 2 ^ 31 → int32 z = z.
Proof. intros Hz. unfold int32. rewrite Z.mod_small; lia. Qed.

Lemma int64_small z : - 2 ^ 63 ≤ z < 2 ^ 63 → int64 z = z.
Proof. intros Hz. unfold int64. rewrite Z.mod_small; lia. Qed.

Section java.
Variable pts : list Pt.
Hypothesis pts_distinct : NoDup (coords <$> pts).
Hypothesis pts_small : small pts.

Lemma small_exact : exact pts.
Proof.
  intros p Hp. destruct (pts_small p Hp) as [? ?]. unfold exactPt. lia.
Qed.

Lemma java_contains (q : Pt) :
  coords q ∈ (list_to_set (coords <$> pts) : gset (Z * Z)) ↔ keyOf q ∈ membership pts.
Proof. by rewrite elem_of_list_to_set, keyOf_membership_coords. Qed.

(** One turn of the inner loop adds the number of true verdicts. *)
Lemma java_body (i j : nat) (A B : Pt) (hits : Z) :
  pts !! i = Some A → pts !! j = Some B → i ≠ j →
  0 ≤ hits < 2 ^ 62 →
  (let S : gset (Z * Z) := list_to_set (coords <$> pts) in
   let a := coords A in
   let b := coords B in
   let dx := int32 (b.1 - a.1) in
   let dy := int32 (b.2 - a.2) in
   if decide (dx = 0 ∧ dy = 0) then Some hits
   else
     let c1 := (int32 (a.1 - dy), int32 (a.2 + dx)) in
     let d1 := (int32 (b.1 - dy), int32 (b.2 + dx)) in
     let hits := if decide (c1 ∈ S ∧ d1 ∈ S) then int64 (hits + 1) else hits in
     let c2 := (int32 (a.1 + dy), int32 (a.2 - dx)) in
     let d2 := (int32 (b.1 + dy), int32 (b.2 - dx)) in
     let hits := if decide (c2 ∈ S ∧ d2 ∈ S) then int64 (hits + 1) else hits in
     Some hits)
  = Some (hits + Z.of_nat (length (edgeKeys pts (Pair.mk i j)))).
Proof.
  intros HA HB Hij Hhits. cbv zeta.
  destruct (pts_small A ltac:(by eapply list_elem_of_lookup_2)) as [HAx HAy].
  destruct (pts_small B ltac:(by eapply list_elem_of_lookup_2)) as [HBx HBy].
  assert (Hne : coords A ≠ coords B) by (by eapply distinct_coords).
  unfold edgeKeys. simpl. rewrite HA, HB.
  set (S := list_to_set (coords <$> pts) : gset (Z * Z)).
  unfold coords. cbn [fst snd].
  rewrite (int32_small (Pt.x B - Pt.x A)), (int32_small (Pt.y B - Pt.y A)) by lia.
  rewrite decide_False.
  2:{ intros [Hx Hy]. apply Hne. unfold coords. f_equal; lia. }
  rewrite !int32_small by lia.
  assert (HeA : exactPt A) by (unfold exactPt; lia).
  assert (HeB : exactPt B) by (unfold exactPt; lia).
  assert (HC : (Pt.x A - (Pt.y B - Pt.y A), Pt.y A + (Pt.x B - Pt.x A))
               = coords (candC A B)) by (by rewrite candC_exact).
  assert (HD : (Pt.x B - (Pt.y B - Pt.y A), Pt.y B + (Pt.x B - Pt.x A))
               = coords (candD A B)) by (by rewrite candD_exact).
  assert (HC2 : (Pt.x A + (Pt.y B - Pt.y A), Pt.y A - (Pt.x B - Pt.x A))
                = coords (candC2 A B)) by (by rewrite candC2_exact).
  assert (HD2 : (Pt.x B + (Pt.y B - Pt.y A), Pt.y B - (Pt.x B - Pt.x A))
                = coords (candD2 A B)) by (by rewrite candD2_exact).
  rewrite HC, HD, HC2, HD2. subst S.
  assert (HL : ∀ X (u w : X),
            (if decide (coords (candC A B)
                          ∈ (list_to_set (coords <$> pts) : gset (Z * Z))
                        ∧ coords (candD A B)
                          ∈ (list_to_set (coords <$> pts) : gset (Z * Z)))
             then u else w)
            = if leftOKof (membership pts) A B then u else w).
  { intros X u w. rewrite (decide_ext _ (leftOKof (membership pts) A B = true));
      [by destruct (leftOKof _ _ _)|].
    by rewrite leftOKof_true, !java_contains. }
  assert (HR : ∀ X (u w : X),
            (if decide (coords (candC2 A B)
                          ∈ (list_to_set (coords <$> pts) : gset (Z * Z))
                        ∧ coords (candD2 A B)
                          ∈ (list_to_set (coords <$> pts) : gset (Z * Z)))
             then u else w)
            = if rightOKof (membership pts) A B then u else w).
  { intros X u w. rewrite (decide_ext _ (rightOKof (membership pts) A B = true));
      [by destruct (rightOKof _ _ _)|].
    by rewrite rightOKof_true, !java_contains. }
  rewrite !HL, !HR. unfold confirmed.
  destruct (leftOKof (membership pts) A B), (rightOKof (membership pts) A B); simpl;
    rewrite ?int64_small by (rewrite ?int64_small by lia; lia); f_equal; lia.
Qed.
Lemma java_inner_loop (i : nat) (A : Pt) (js : list nat) (h : Z) :
  pts !! i = Some A → Forall (λ j, (i < j < length pts)%nat) js →
  0 ≤ h → h + 2 * Z.of_nat (length js) < 2 ^ 62 →
  java_for js (countSquares_inner (coords <$> pts) (coords A)) h
  = Some (h + Z.of_nat (length ((Pair.mk i <$> js) ≫= edgeKeys pts))).
Proof.
  intros HA Hjs. revert h. induction Hjs as [|j js Hj _ IH]; intros h Hh Hbound.
  - simpl. f_equal. lia.
  - destruct (lookup_lt_is_Some_2 pts j ltac:(lia)) as [B HB].
    simpl in Hbound.
    assert (Hstep : countSquares_inner (coords <$> pts) (coords A) h j
                    = Some (h + Z.of_nat (length (edgeKeys pts (Pair.mk i j))))).
    { unfold countSquares_inner. rewrite list_lookup_fmap, HB.
      exact (java_body i j A B h HA HB ltac:(lia) ltac:(lia)). }
    cbn [java_for]. rewrite Hstep. cbn [mbind option_bind].
    pose proof (confirmed_length (membership pts) A B) as Hlen.
    assert (Hek : edgeKeys pts (Pair.mk i j) = confirmed (membership pts) A B).
    { unfold edgeKeys. simpl. by rewrite HA, HB. }
    rewrite IH by (rewrite Hek; lia).
    rewrite fmap_cons, bind_cons, length_app. f_equal. lia.
Qed.

Lemma row_confirmations_bound (i : nat) (js : list nat) :
  (length ((Pair.mk i <$> js) ≫= edgeKeys pts) ≤ 2 * length js)%nat.
Proof.
  induction js as [|j js IH]; [done|].
  rewrite fmap_cons, bind_cons, length_app. simpl.
  assert (length (edgeKeys pts (Pair.mk i j)) ≤ 2)%nat; [|lia].
  unfold edgeKeys. destruct (pts !! _); [|simpl; lia].
  destruct (pts !! _); [apply confirmed_length|simpl; lia].
Qed.

Lemma java_outer_loop (rows : list nat) (h : Z) :
  Forall (λ i, (i < length pts)%nat) rows →
  0 ≤ h → h + 2 * Z.of_nat (length pts) * Z.of_nat (length rows) < 2 ^ 62 →
  java_for rows (countSquares_outer (coords <$> pts)) h
  = Some (h + Z.of_nat (length
            ((rows ≫= λ i, Pair.mk i <$> seq (i + 1) (length pts - (i + 1)))
               ≫= edgeKeys pts))).
Proof.
  intros His. revert h. induction His as [|i rows Hi _ IH]; intros h Hh Hbound.
  - simpl. f_equal. lia.
  - destruct (lookup_lt_is_Some_2 pts i ltac:(lia)) as [A HA].
    simpl in Hbound.
    pose proof (row_confirmations_bound i (seq (i + 1) (length pts - (i + 1)))) as Hrow.
    rewrite length_seq in Hrow.
    assert (Hstep : countSquares_outer (coords <$> pts) h i
                    = Some (h + Z.of_nat (length
                              ((Pair.mk i <$> seq (i + 1) (length pts - (i + 1)))
                                 ≫= edgeKeys pts)))).
    { unfold countSquares_outer. rewrite list_lookup_fmap, HA, length_fmap.
      cbn [fmap option_fmap option_map mbind option_bind].
      apply java_inner_loop; [done| |done|].
      - apply Forall_forall. intros j Hj%elem_of_seq. lia.
      - rewrite length_seq. nia. }
    cbn [java_for]. rewrite Hstep. cbn [mbind option_bind]. rewrite IH by nia.
    rewrite !bind_cons, bind_app, length_app. f_equal. lia.
Qed.

(** On a duplicate-free point sequence with small coordinates the Java
    reference returns the number of keys that the steps confirm. *)
Lemma countSquares_allKeys :
  Z.of_nat (length pts) ≤ 2 ^ 16 →
  countSquares (coords <$> pts) = Some (Z.of_nat (size (allKeys pts))).
Proof.
  intros Hlen. rewrite countSquares_loops, length_fmap.
  rewrite java_outer_loop; [| |done|].
  - cbn [mbind option_bind]. f_equal.
    change (seq 0 (length pts) ≫= _) with (enumerate (length pts)).
    rewrite <- pairs_enumerate, (confirmations_fourfold pts pts_distinct small_exact).
    rewrite Z.add_0_l, Nat2Z.inj_mul. change (Z.of_nat 4) with 4.
    rewrite Z.mul_comm, Z.quot_mul by lia.
    apply int32_small.
    pose proof (confirmations_fourfold pts pts_distinct small_exact) as H4.
    assert (Hb : (length (pairs pts ≫= edgeKeys pts) ≤ 2 * length (pairs pts))%nat).
    { clear. induction (pairs pts) as [|p l IH]; [done|].
      rewrite bind_cons, length_app. simpl.
      assert (length (edgeKeys pts p) ≤ 2)%nat; [|lia].
      unfold edgeKeys. destruct (pts !! _); [|simpl; lia].
      destruct (pts !! _); [apply confirmed_length|simpl; lia]. }
    assert (Hp : (length (pairs pts) * 2 ≤ length pts * length pts)%nat).
    { rewrite pairs_enumerate.
      pose proof (enumerate_rows_length (length pts) 0 (length pts) eq_refl) as He.
      unfold enumerate. nia. }
    nia.
  - apply Forall_forall. intros i Hi%elem_of_seq. lia.
  - rewrite length_seq. nia.
Qed.
End java.

(** ** Verdicts along a forward run *)

Lemma forwardInfo_confirmedBy pts t I :
  forwardInfo pts t = Some I →
  confirmedBy I = keysAt pts (pairs pts) (membership pts) t.
Proof.
  unfold forwardInfo, keysAt.
  destruct (pairAt _ _ _) as [[[p A] B]|]; simpl; [|done]. by intros [= <-].
Qed.

Lemma forward_infos_confirmedBy pts (infos : list StepInfo) (l : list Z) :
  Some <$> infos = forwardInfo pts <$> l →
  infos ≫= confirmedBy = l ≫= keysAt pts (pairs pts) (membership pts).
Proof.
  revert l. induction infos as [|I infos IH]; intros [|t l] Heq; try done.
  rewrite !fmap_cons in Heq. injection Heq as HI Heq. symmetry in HI.
  rewrite !bind_cons, (forwardInfo_confirmedBy _ _ _ HI). f_equal. by apply IH.
Qed.

(** The forward run over all pairs, with the verdicts of its steps put end
    to end. *)
Lemma forward_run_confirmations (pts : list Pt) :
  ∃ infos,
    play (length (pairs pts)) (mount pts)
    = Ok (infos, stateAfter pts false 900 (Z.of_nat (length (pairs pts))))
    ∧ infos ≫= confirmedBy = pairs pts ≫= edgeKeys pts
    ∧ uniqueSquaresRef (stateAfter pts false 900 (Z.of_nat (length (pairs pts))))
      = allKeys pts.
Proof.
  destruct (play_forward pts false 900 (length (pairs pts)) 0)
    as (infos & Hplay & Hinfos); [lia..|].
  rewrite <- mount_stateAfter in Hplay. rewrite Z.add_0_l in Hplay.
  exists infos. split; [exact Hplay|]. split; [|done].
  rewrite (forward_infos_confirmedBy _ _ _ Hinfos).
  apply (keysAt_edgeKeys pts [] (pairs pts)).
Qed.

(** * The properties of the specification *)

(** C1, as the code has it. For every pair of points A, B of a step and
    every membership set, the step computes the edge vector (dx, dy) as the
    differences B.x - A.x and B.y - A.y rounded to the nearest double, the
    rotations (-dy, dx) and (dy, -dx), and the candidates C, D, C2, D2 as
    the sums of the claim rounded likewise; leftOK holds exactly when the
    keys of C and D are both in the membership set, rightOK exactly when
    those of C2 and D2 are.  For coordinates of magnitude at most 2^51
    nothing is rounded: dx and dy are the exact differences and the
    candidates are C = (A.x - dy, A.y + dx), D = (B.x - dy, B.y + dx),
    C2 = (A.x + dy, A.y - dx), D2 = (B.x + dy, B.y - dx). *)
Theorem C1_detector_step (pts : list Pt) (mem : gset string) (k : Z)
    (carry : gset string) (seen : Z) (p : Pair) (A B : Pt) :
  pairAt pts (pairs pts) k = Some (p, A, B) →
  ∃ I reg,
    computeStep pts (pairs pts) mem 2 k carry seen = Ok (I, reg)
    ∧ StepInfo.A I = A ∧ StepInfo.B I = B
    ∧ StepInfo.dx I = fl (Pt.x B - Pt.x A)
    ∧ StepInfo.dy I = fl (Pt.y B - Pt.y A)
    ∧ (StepInfo.ldx I, StepInfo.ldy I) = (- StepInfo.dy I, StepInfo.dx I)
    ∧ (StepInfo.rdx I, StepInfo.rdy I) = (StepInfo.dy I, - StepInfo.dx I)
    ∧ coords (StepInfo.C I)
      = (fl (Pt.x A - StepInfo.dy I), fl (Pt.y A + StepInfo.dx I))
    ∧ coords (StepInfo.D I)
      = (fl (Pt.x B - StepInfo.dy I), fl (Pt.y B + StepInfo.dx I))
    ∧ coords (StepInfo.C2 I)
      = (fl (Pt.x A + StepInfo.dy I), fl (Pt.y A - StepInfo.dx I))
    ∧ coords (StepInfo.D2 I)
      = (fl (Pt.x B + StepInfo.dy I), fl (Pt.y B - StepInfo.dx I))
    ∧ (StepInfo.leftOK I = true ↔
         keyOf (StepInfo.C I) ∈ mem ∧ keyOf (StepInfo.D I) ∈ mem)
    ∧ (StepInfo.rightOK I = true ↔
         keyOf (StepInfo.C2 I) ∈ mem ∧ keyOf (StepInfo.D2 I) ∈ mem)
    ∧ (exactPt A → exactPt B →
         StepInfo.dx I = Pt.x B - Pt.x A
         ∧ StepInfo.dy I = Pt.y B - Pt.y A
         ∧ coords (StepInfo.C I) = (Pt.x A - StepInfo.dy I, Pt.y A + StepInfo.dx I)
         ∧ coords (StepInfo.D I) = (Pt.x B - StepInfo.dy I, Pt.y B + StepInfo.dx I)
         ∧ coords (StepInfo.C2 I) = (Pt.x A + StepInfo.dy I, Pt.y A - StepInfo.dx I)
         ∧ coords (StepInfo.D2 I)
           = (Pt.x B + StepInfo.dy I, Pt.y B - StepInfo.dx I)).
Proof.
  intros Hp. destruct (computeStep_own_pairs pts mem k carry seen p A B Hp) as [reg ->].
  eexists _, _. split; [done|].
  cbn [stepInfoOf StepInfo.A StepInfo.B StepInfo.dx StepInfo.dy StepInfo.ldx
       StepInfo.ldy StepInfo.rdx StepInfo.rdy StepInfo.C StepInfo.D StepInfo.C2
       StepInfo.D2 StepInfo.leftOK StepInfo.rightOK].
  split_and!; try reflexivity.
  - apply leftOKof_true.
  - apply rightOKof_true.
  - intros HA HB.
    rewrite (candC_exact A B HA HB), (candD_exact A B HA HB),
      (candC2_exact A B HA HB), (candD2_exact A B HA HB), (edge_exact A B HA HB).
    done.
Qed.

Lemma C1_detector_step_witness :
  pairAt unitSquare (pairs unitSquare) 0
  = Some (Pair.mk 0 1, Pt.mk 1 1 "P0", Pt.mk 3 1 "P1")
  ∧ exactPt (Pt.mk 1 1 "P0") ∧ exactPt (Pt.mk 3 1 "P1")
  ∧ ∃ I reg,
      computeStep unitSquare (pairs unitSquare) {[ "1,3" ]} 2 0 ∅ (-1) = Ok (I, reg)
      ∧ StepInfo.A I = Pt.mk 1 1 "P0" ∧ StepInfo.B I = Pt.mk 3 1 "P1"
      ∧ StepInfo.dx I = fl (Pt.x (Pt.mk 3 1 "P1") - Pt.x (Pt.mk 1 1 "P0"))
      ∧ StepInfo.dy I = fl (Pt.y (Pt.mk 3 1 "P1") - Pt.y (Pt.mk 1 1 "P0"))
      ∧ (StepInfo.ldx I, StepInfo.ldy I) = (- StepInfo.dy I, StepInfo.dx I)
      ∧ (StepInfo.rdx I, StepInfo.rdy I) = (StepInfo.dy I, - StepInfo.dx I)
      ∧ coords (StepInfo.C I)
        = (fl (Pt.x (Pt.mk 1 1 "P0") - StepInfo.dy I),
           fl (Pt.y (Pt.mk 1 1 "P0") + StepInfo.dx I))
      ∧ coords (StepInfo.D I)
        = (fl (Pt.x (Pt.mk 3 1 "P1") - StepInfo.dy I),
           fl (Pt.y (Pt.mk 3 1 "P1") + StepInfo.dx I))
      ∧ coords (StepInfo.C2 I)
        = (fl (Pt.x (Pt.mk 1 1 "P0") + StepInfo.dy I),
           fl (Pt.y (Pt.mk 1 1 "P0") - StepInfo.dx I))
      ∧ coords (StepInfo.D2 I)
        = (fl (Pt.x (Pt.mk 3 1 "P1") + StepInfo.dy I),
           fl (Pt.y (Pt.mk 3 1 "P1") - StepInfo.dx I))
      ∧ (StepInfo.leftOK I = true ↔
           keyOf (StepInfo.C I) ∈ ({[ "1,3" ]} : gset string)
           ∧ keyOf (StepInfo.D I) ∈ ({[ "1,3" ]} : gset string))
      ∧ (StepInfo.rightOK I = true ↔
           keyOf (StepInfo.C2 I) ∈ ({[ "1,3" ]} : gset string)
           ∧ keyOf (StepInfo.D2 I) ∈ ({[ "1,3" ]} : gset string))
      ∧ (exactPt (Pt.mk 1 1 "P0") → exactPt (Pt.mk 3 1 "P1") →
           StepInfo.dx I = Pt.x (Pt.mk 3 1 "P1") - Pt.x (Pt.mk 1 1 "P0")
           ∧ StepInfo.dy I = Pt.y (Pt.mk 3 1 "P1") - Pt.y (Pt.mk 1 1 "P0")
           ∧ coords (StepInfo.C I)
             = (Pt.x (Pt.mk 1 1 "P0") - StepInfo.dy I,
                Pt.y (Pt.mk 1 1 "P0") + StepInfo.dx I)
           ∧ coords (StepInfo.D I)
             = (Pt.x (Pt.mk 3 1 "P1") - StepInfo.dy I,
                Pt.y (Pt.mk 3 1 "P1") + StepInfo.dx I)
           ∧ coords (StepInfo.C2 I)
             = (Pt.x (Pt.mk 1 1 "P0") + StepInfo.dy I,
                Pt.y (Pt.mk 1 1 "P0") - StepInfo.dx I)
           ∧ coords (StepInfo.D2 I)
             = (Pt.x (Pt.mk 3 1 "P1") + StepInfo.dy I,
                Pt.y (Pt.mk 3 1 "P1") - StepInfo.dx I)).
Proof.
  split; [reflexivity|].
  split; [unfold exactPt; simpl; lia|]. split; [unfold exactPt; simpl; lia|].
  apply (C1_detector_step unitSquare {[ "1,3" ]} 0 ∅ (-1)
           (Pair.mk 0 1) (Pt.mk 1 1 "P0") (Pt.mk 3 1 "P1")).
  reflexivity.
Defined.

(** C1 as stated fails on safe integers near the limit: on the rectangle
    that is 2^54-3 wide and 2^54-4 high the first step returns a dx one
    less than B.x - A.x, a left candidate C one lower than A.y + (B.x - A.x),
    and leftOK, because the rounded candidates are the upper corners. *)
Lemma C1_counterexample :
  Forall safePt wideRectangle
  ∧ ∃ A B I reg,
      pairAt wideRectangle (pairs wideRectangle) 0 = Some (Pair.mk 0 1, A, B)
      ∧ computeStep wideRectangle (pairs wideRectangle) (membership wideRectangle)
          2 0 ∅ (-1) = Ok (I, reg)
      ∧ Pt.x B - Pt.x A = 18014398509481981
      ∧ StepInfo.dx I = 18014398509481980
      ∧ StepInfo.dx I ≠ Pt.x B - Pt.x A
      ∧ coords (StepInfo.C I) = (-9007199254740990, 9007199254740989)
      ∧ coords (StepInfo.C I)
        ≠ (Pt.x A - (Pt.y B - Pt.y A), Pt.y A + (Pt.x B - Pt.x A))
      ∧ StepInfo.leftOK I = true.
Proof.
  split.
  - unfold safePt, safe. repeat constructor; simpl; lia.
  - pose (A := Pt.mk (-9007199254740990) (-9007199254740991) "P0").
    pose (B := Pt.mk 9007199254740991 (-9007199254740991) "P1").
    destruct (computeStep_own_pairs wideRectangle (membership wideRectangle) 0 ∅ (-1)
                (Pair.mk 0 1) A B eq_refl) as [reg Hreg].
    exists A, B. eexists _, reg. split; [reflexivity|]. split; [exact Hreg|].
    cbn [stepInfoOf StepInfo.dx StepInfo.C StepInfo.leftOK].
    assert (He : edge A B = (18014398509481980, 0)) by (vm_compute; reflexivity).
    assert (HC : coords (candC A B) = (-9007199254740990, 9007199254740989))
      by (vm_compute; reflexivity).
    assert (HD : coords (candD A B) = (9007199254740991, 9007199254740989))
      by (vm_compute; reflexivity).
    rewrite He, HC. cbn [fst Pt.x Pt.y A B].
    split_and!; [lia|done|lia|done|intros [= ? ?]; lia|].
    apply leftOKof_true. rewrite !keyOf_membership_coords, HC, HD.
    split; [do 3 right; left|do 2 right; left].
Qed.

(** C2. For a step k at or below the high-water mark, evaluating step k
    on any registry returns the uniqueCount that the forward run over steps
    0..k from the mounted state reports at step k (and leaves the registry
    of that run). *)
Theorem C2_rewind_count (pts : list Pt) (k : Z) (carry : gset string) (seen : Z) :
  valid pts k → k ≤ seen →
  ∃ I reg infos s' IF,
    computeStepOf pts k carry seen = Ok (I, reg)
    ∧ play (S (Z.to_nat k)) (mount pts) = Ok (infos, s')
    ∧ last infos = Some IF
    ∧ StepInfo.uniqueCount I = StepInfo.uniqueCount IF
    ∧ reg = uniqueSquaresRef s'.
Proof.
  intros Hv Hk. destruct (valid_pairAt pts k Hv) as (p & A & B & Hp & _).
  destruct Hv as [Hk0 Hklen].
  destruct (play_forward pts false 900 (S (Z.to_nat k)) 0) as (infos & Hplay & Hinfos);
    [lia..|].
  rewrite <- mount_stateAfter in Hplay.
  destruct (forwardInfo_Some pts k) as [IF HIF]; [done|].
  rewrite (computeStepOf_valid _ _ _ _ _ _ _ Hp). rewrite decide_True by done.
  eexists _, _, infos, _, IF. split_and!; [done|done| | |].
  - cut (last (Some <$> infos) = Some (Some IF)).
    { rewrite fmap_last. destruct (last infos); simpl; congruence. }
    rewrite Hinfos, Nat2Z.inj_succ, Z2Nat.id by done.
    rewrite <- Z.add_1_r, seqZ_app by lia.
    rewrite (seqZ_cons (0 + k)) by lia.
    rewrite (seqZ_nil (Z.succ (0 + k))) by lia.
    rewrite fmap_app, fmap_cons, fmap_nil, last_snoc. by rewrite Z.add_0_l, HIF.
  - by rewrite (forwardInfo_uniqueCount _ _ _ HIF).
  - simpl. f_equal. lia.
Qed.

Lemma C2_rewind_count_witness :
  valid unitSquare 2 ∧ 2 ≤ 5
  ∧ ∃ I reg infos s' IF,
      computeStepOf unitSquare 2 {[ "stale" ]} 5 = Ok (I, reg)
      ∧ play (S (Z.to_nat 2)) (mount unitSquare) = Ok (infos, s')
      ∧ last infos = Some IF
      ∧ StepInfo.uniqueCount I = StepInfo.uniqueCount IF
      ∧ reg = uniqueSquaresRef s'.
Proof.
  split; [|split]; [|lia|].
  - unfold valid. vm_compute. split; [discriminate|reflexivity].
  - apply (C2_rewind_count unitSquare 2 {[ "stale" ]} 5); [|lia].
    unfold valid. vm_compute. split; [discriminate|reflexivity].
Defined.

(** C3 (the code departs from it). On the point sequence with (1,1) twice,
    the step of the pair of the two identical points reports leftOK and
    rightOK and adds the key of four equal corners to the registry. *)
Theorem C3_degenerate_pair_reported :
  ∃ I reg,
    computeStepOf duplicated 0 ∅ (-1) = Ok (I, reg)
    ∧ (StepInfo.dx I, StepInfo.dy I) = (0, 0)
    ∧ StepInfo.leftOK I = true ∧ StepInfo.rightOK I = true
    ∧ StepInfo.newlyAddedSquares I = ["1,1|1,1|1,1|1,1"]
    ∧ StepInfo.uniqueCount I = 1%nat
    ∧ elements reg = ["1,1|1,1|1,1|1,1"].
Proof. eexists _, _. split; [vm_compute; reflexivity|]. vm_compute. done. Qed.

(** C4 (the code departs from it). On the point sequence with (1,1) twice
    the forward run over all pairs ends with uniqueCount 1, while no square
    has its four corners in that point set: the number of distinct squares
    is 0. *)
Theorem C4_duplicates_counted_as_square :
  ∃ infos s',
    play (length (pairs duplicated)) (mount duplicated) = Ok (infos, s')
    ∧ StepInfo.uniqueCount <$> infos = [1%nat]
    ∧ size (uniqueSquaresRef s') = 1%nat
    ∧ counts_squares duplicated 0
    ∧ ¬ counts_squares duplicated 1.
Proof.
  eexists _, _. split; [vm_compute; reflexivity|].
  split; [vm_compute; reflexivity|]. split; [vm_compute; reflexivity|]. split.
  - exists []. split_and!; [done|constructor| |].
    + intros a b sa sb Ha. by rewrite lookup_nil in Ha.
    + intros sq Hsq. by destruct (duplicated_no_square sq).
  - intros (reps & Hlen & Hall & _).
    destruct reps as [|sq reps]; [done|].
    apply Forall_cons in Hall as [Hsq _]. by destruct (duplicated_no_square sq).
Qed.

(** C5. The square key does not depend on the order of the corners and
    tells corner sets apart: two lists of corners with the same coordinates
    in any order get the same key, lists with the same key have the same
    coordinates up to order, and lists whose coordinate sets differ in some
    corner get different keys. *)
Theorem C5_normalizeSquareKey_dedup (l1 l2 : list Pt) :
  (coords <$> l1 ≡ₚ coords <$> l2 → normalizeSquareKey l1 = normalizeSquareKey l2)
  ∧ (normalizeSquareKey l1 = normalizeSquareKey l2 → coords <$> l1 ≡ₚ coords <$> l2)
  ∧ ((∃ c, ¬ (c ∈ coords <$> l1 ↔ c ∈ coords <$> l2)) →
     normalizeSquareKey l1 ≠ normalizeSquareKey l2).
Proof.
  split_and!.
  - apply normalizeSquareKey_perm.
  - apply normalizeSquareKey_perm.
  - intros [c Hc] Heq%normalizeSquareKey_perm. apply Hc. by rewrite Heq.
Qed.

(** C6, as the code has it. With fewer than two points the pair sequence is
    empty, and the component raises the TypeError of reading pairs[0] on its
    first render, when the info memo calls computeStep: no view ever gets on
    screen, whatever controls would follow, so there is no state in which
    nextStep or prevStep could be invoked. *)
Theorem C6_empty_sequence_raises_on_render (pts : list Pt) (acts : list action) :
  (length pts < 2)%nat →
  pairs pts = []
  ∧ info (mount pts) = TypeError
  ∧ start pts = TypeError
  ∧ component pts acts = TypeError.
Proof.
  intros Hlen.
  assert (Hps : pairs pts = []).
  { apply length_zero_iff_nil. rewrite pairs_enumerate, length_enumerate.
    destruct pts as [|? [|? ?]]; simpl in *; [done|done|lia]. }
  assert (Hinfo : info (mount pts) = TypeError).
  { unfold info, computeStepAt. cbn [step mount points seenUpToRef].
    rewrite computeStepOf_invalid; [done|]. unfold valid. rewrite Hps. simpl. lia. }
  assert (Hstart : start pts = TypeError).
  { unfold start, render. by rewrite Hinfo. }
  split; [done|]. split; [done|]. split; [done|].
  unfold component. by rewrite Hstart.
Qed.

Lemma C6_empty_sequence_raises_on_render_witness :
  (length [Pt.mk 1 1 "P0"] < 2)%nat
  ∧ pairs [Pt.mk 1 1 "P0"] = []
  ∧ info (mount [Pt.mk 1 1 "P0"]) = TypeError
  ∧ start [Pt.mk 1 1 "P0"] = TypeError
  ∧ component [Pt.mk 1 1 "P0"] [NextStep; PrevStep] = TypeError.
Proof.
  split; [simpl; lia|].
  apply (C6_empty_sequence_raises_on_render [Pt.mk 1 1 "P0"] [NextStep; PrevStep]).
  simpl; lia.
Defined.

(** C6 as stated fails on the empty point sequence: the component raises
    before any stepping, so neither a press of Step nor one of Prev ends in
    a view with the state unchanged. *)
Lemma C6_counterexample :
  (length ([] : list Pt) < 2)%nat
  ∧ component [] [] = TypeError
  ∧ (∀ v, component [] [NextStep] ≠ Ok v)
  ∧ (∀ v, component [] [PrevStep] ≠ Ok v).
Proof. split_and!; [simpl; lia|done|done|done]. Qed.

(** C7. Over a point sequence of length n the pair list has n(n-1)/2
    entries, holds exactly the pairs with 0 <= i < j < n, has no duplicate,
    is in strictly increasing lexicographic order, and is the enumeration of
    the contract, a function of n alone. *)
Theorem C7_pairs_contract (pts : list Pt) :
  let n := length pts in
  length (pairs pts) = (n * (n - 1) / 2)%nat
  ∧ (∀ p, p ∈ pairs pts ↔ (0 ≤ Pair.i p ∧ Pair.i p < Pair.j p < n)%nat)
  ∧ NoDup (pairs pts)
  ∧ StronglySorted lex_lt (pairs pts)
  ∧ pairs pts = enumerate n
  ∧ (∀ pts' : list Pt, length pts' = n → pairs pts' = pairs pts).
Proof.
  intros n.
  assert (Hs : StronglySorted lex_lt (enumerate n)) by apply enumerate_rows_sorted.
  rewrite pairs_enumerate. fold n. split_and!.
  - apply length_enumerate.
  - intros p. rewrite elem_of_enumerate. lia.
  - by apply (StronglySorted_irrefl_NoDup lex_lt).
  - done.
  - done.
  - intros pts' Hlen. by rewrite pairs_enumerate, Hlen.
Qed.

(** C8, as the code has it. The newlyAddedSquares of a step are exactly the
    keys the step confirms that are not in the registry handed to the call,
    without repetition, so 0, 1 or 2 entries; when step k is reached by
    forward advancement from the mounted state, that registry is the one
    obtained by evaluating steps 0..k-1 in order from an empty registry. *)
Theorem C8_newly_against_carry (pts : list Pt) (k : Z) (carry : gset string)
    (seen : Z) :
  valid pts k →
  (∃ I reg,
     computeStepOf pts k carry seen = Ok (I, reg)
     ∧ (∀ s, s ∈ StepInfo.newlyAddedSquares I ↔ s ∈ confirmedBy I ∧ s ∉ carry)
     ∧ NoDup (StepInfo.newlyAddedSquares I)
     ∧ (length (StepInfo.newlyAddedSquares I) ≤ 2)%nat)
  ∧ (∃ infos s' I',
       play (Z.to_nat k) (mount pts) = Ok (infos, s')
       ∧ step s' = Int k
       ∧ info s' = Ok I'
       ∧ (∀ s, s ∈ StepInfo.newlyAddedSquares I' ↔
               s ∈ confirmedBy I' ∧ s ∉ uniqueSquaresRef s')
       ∧ NoDup (StepInfo.newlyAddedSquares I')
       ∧ (length (StepInfo.newlyAddedSquares I') ≤ 2)%nat).
Proof.
  intros Hv. split; [by apply newly_against_carry|].
  destruct (play_forward pts false 900 (Z.to_nat k) 0) as (infos & Hplay & _);
    [unfold valid in Hv; lia..|].
  rewrite <- mount_stateAfter in Hplay.
  rewrite Z.add_0_l, Z2Nat.id in Hplay by (unfold valid in Hv; lia).
  destruct (newly_against_carry pts k
              (registryUpTo pts (pairs pts) (membership pts) (k - 1)) (k - 1) Hv)
    as (I' & reg & HI' & Hnew).
  exists infos, (stateAfter pts false 900 k), I'. split; [done|].
  assert (Hstep : step (stateAfter pts false 900 k) = Int k).
  { simpl. unfold stepAfter. rewrite decide_True; [done|]. unfold valid in Hv. lia. }
  split; [done|]. split; [|done].
  unfold info, computeStepAt. rewrite Hstep. simpl. by rewrite HI'.
Qed.

Lemma C8_newly_against_carry_witness :
  valid unitSquare 0
  ∧ (∃ I reg,
       computeStepOf unitSquare 0 {[ "1,1|1,3|3,1|3,3" ]} 0 = Ok (I, reg)
       ∧ (∀ s, s ∈ StepInfo.newlyAddedSquares I ↔
               s ∈ confirmedBy I ∧ s ∉ ({[ "1,1|1,3|3,1|3,3" ]} : gset string))
       ∧ NoDup (StepInfo.newlyAddedSquares I)
       ∧ (length (StepInfo.newlyAddedSquares I) ≤ 2)%nat)
  ∧ (∃ infos s' I',
       play (Z.to_nat 0) (mount unitSquare) = Ok (infos, s')
       ∧ step s' = Int 0
       ∧ info s' = Ok I'
       ∧ (∀ s, s ∈ StepInfo.newlyAddedSquares I' ↔
               s ∈ confirmedBy I' ∧ s ∉ uniqueSquaresRef s')
       ∧ NoDup (StepInfo.newlyAddedSquares I')
       ∧ (length (StepInfo.newlyAddedSquares I') ≤ 2)%nat).
Proof.
  assert (Hv : valid unitSquare 0).
  { unfold valid. vm_compute. split; [discriminate|reflexivity]. }
  split; [exact Hv|].
  apply (C8_newly_against_carry unitSquare 0 {[ "1,1|1,3|3,1|3,3" ]} 0 Hv).
Defined.

(** C8 as stated fails after a rewind: one step forward and one step back
    on the sample data leave the key of step 0 in the registry, and the
    StepInfo shown for step 0 lists no new key, although step 0 confirms a
    key and the registry of the steps before step 0 is empty. *)
Lemma C8_counterexample :
  ∃ s0 I,
    nextStep (mount axisAligned) = Ok s0
    ∧ step (prevStep s0) = Int 0
    ∧ info (prevStep s0) = Ok I
    ∧ confirmedBy I = ["1,1|1,3|3,1|3,3"]
    ∧ registryUpTo axisAligned (pairs axisAligned) (membership axisAligned) (0 - 1) = ∅
    ∧ StepInfo.newlyAddedSquares I = [].
Proof.
  eexists _, _. split; [vm_compute; reflexivity|].
  split; [vm_compute; reflexivity|].
  split; [vm_compute; reflexivity|].
  split_and!; vm_compute; reflexivity.
Qed.




(** C10. For every valid step index and every registry and high-water mark,
    computeStep returns; two nested activations are enough and more change
    nothing; the nested call made through computeStepOnce never starts a
    rebuild of its own, so a single activation serves it; a rewind does use
    the second activation. *)
Theorem C10_computeStep_terminates (pts : list Pt) (k : Z) (carry : gset string)
    (seen : Z) :
  valid pts k →
  (∃ r, computeStepOf pts k carry seen = Ok r)
  ∧ (∀ fuel, (2 ≤ fuel)%nat →
       computeStep pts (pairs pts) (membership pts) fuel k carry seen
       = computeStepOf pts k carry seen)
  ∧ (∀ t fuel, (1 ≤ fuel)%nat → 0 ≤ t ≤ k →
       ∃ r, computeStepOnce pts (pairs pts) (membership pts) fuel t = Ok r)
  ∧ (k ≤ seen →
       computeStep pts (pairs pts) (membership pts) 1 k carry seen = OutOfFuel).
Proof.
  intros Hv. destruct (valid_pairAt pts k Hv) as (p & A & B & Hp & _). split_and!.
  - rewrite (computeStepOf_valid _ _ _ _ _ _ _ Hp). eauto.
  - intros [|[|f]] ?; [lia..|]. apply computeStep_fuel.
  - intros t [|f] ? Ht; [lia|].
    destruct (valid_pairAt pts t) as (q & A' & B' & Hq & _);
      [by eapply valid_below|].
    rewrite (computeStepOnce_ok _ _ _ _ _ _ _ _ Hq). eauto.
  - intros Hk. apply computeStep_rewind_needs_two; [|done]. eauto.
Qed.

Lemma C10_computeStep_terminates_witness :
  valid axisAligned 65
  ∧ (∃ r, computeStepOf axisAligned 65 ∅ 65 = Ok r)
  ∧ (∀ fuel, (2 ≤ fuel)%nat →
       computeStep axisAligned (pairs axisAligned) (membership axisAligned)
         fuel 65 ∅ 65
       = computeStepOf axisAligned 65 ∅ 65)
  ∧ (∀ t fuel, (1 ≤ fuel)%nat → 0 ≤ t ≤ 65 →
       ∃ r, computeStepOnce axisAligned (pairs axisAligned)
              (membership axisAligned) fuel t = Ok r)
  ∧ (65 ≤ 65 →
       computeStep axisAligned (pairs axisAligned) (membership axisAligned)
         1 65 ∅ 65 = OutOfFuel).
Proof.
  assert (Hv : valid axisAligned 65).
  { unfold valid. vm_compute. split; [discriminate|reflexivity]. }
  split; [exact Hv|].
  apply (C10_computeStep_terminates axisAligned 65 ∅ 65 Hv).
Defined.

(** * Further properties of the code *)

(** X1. The membership test is exact: the key of a point is in the
    membership set of a point sequence exactly when some point of the
    sequence has the same x and the same y (labels play no part, and two
    different coordinate pairs never share a key). *)
Theorem X1_membership_exact (pts : list Pt) (q : Pt) :
  keyOf q ∈ membership pts ↔
  ∃ p, p ∈ pts ∧ Pt.x p = Pt.x q ∧ Pt.y p = Pt.y q.
Proof.
  rewrite keyOf_membership_coords, list_elem_of_fmap. unfold coords.
  split.
  - intros (p & [= Hx Hy] & Hin). exists p. by rewrite Hx, Hy.
  - intros (p & Hin & Hx & Hy). exists p. by rewrite Hx, Hy.
Qed.

(** X2. The membership set has at most as many keys as there are points,
    exactly as many when no two points share coordinates, and is empty only
    for the empty point sequence. *)
Theorem X2_membership_size (pts : list Pt) :
  (size (membership pts) ≤ length pts)%nat
  ∧ (size (membership pts) = length pts ↔ NoDup (coords <$> pts))
  ∧ (membership pts = ∅ ↔ pts = []).
Proof.
  rewrite membership_list_to_set. split_and!.
  - etrans; [apply size_list_to_set_le|]. by rewrite length_fmap.
  - rewrite <- NoDup_keys_coords, <- size_list_to_set_NoDup. by rewrite length_fmap.
  - split; [|by intros ->].
    destruct pts as [|p pts]; [done|]. rewrite fmap_cons, list_to_set_cons.
    intros Hempty. assert (keyOf p ∈ (∅ : gset string)) by (rewrite <- Hempty; set_solver).
    set_solver.
Qed.

(** X3. The two rotations undo each other, two left turns negate the
    vector, four left turns give it back, and a turn keeps the squared
    length and is perpendicular to the vector. *)
Theorem X3_rotations_compose (dx dy : Z) :
  let L := rotLeft dx dy in
  let R := rotRight dx dy in
  rotRight L.1 L.2 = (dx, dy)
  ∧ rotLeft R.1 R.2 = (dx, dy)
  ∧ rotLeft L.1 L.2 = (- dx, - dy)
  ∧ (let LL := rotLeft L.1 L.2 in
     let LLL := rotLeft LL.1 LL.2 in rotLeft LLL.1 LLL.2 = (dx, dy))
  ∧ L.1 * L.1 + L.2 * L.2 = dx * dx + dy * dy
  ∧ R.1 * R.1 + R.2 * R.2 = dx * dx + dy * dy
  ∧ dx * L.1 + dy * L.2 = 0
  ∧ dx * R.1 + dy * R.2 = 0.
Proof.
  unfold rotLeft, rotRight. simpl. split_and!; try (f_equal; lia); lia.
Qed.

(** X4. Over points with coordinates of magnitude at most 2^51, where no
    difference or sum is rounded, the candidates of a step form squares on
    the edge AB: on either side, C and D are A and B moved by the same
    turned vector, CD is parallel and equal to AB, the side AC is
    perpendicular to AB and as long as AB. *)
Theorem X4_candidates_form_squares (pts : list Pt) (k : Z) (carry : gset string)
    (seen : Z) :
  exact pts → valid pts k →
  ∃ I reg,
    computeStepOf pts k carry seen = Ok (I, reg)
    ∧ (let '(ax, ay) := coords (StepInfo.A I) in
       let '(bx, by') := coords (StepInfo.B I) in
       ∀ cx cy dx' dy' : Z,
         ((cx, cy), (dx', dy')) = (coords (StepInfo.C I), coords (StepInfo.D I))
         ∨ ((cx, cy), (dx', dy')) = (coords (StepInfo.C2 I), coords (StepInfo.D2 I)) →
         (cx - ax, cy - ay) = (dx' - bx, dy' - by')
         ∧ (dx' - cx, dy' - cy) = (bx - ax, by' - ay)
         ∧ (bx - ax) * (cx - ax) + (by' - ay) * (cy - ay) = 0
         ∧ (cx - ax) * (cx - ax) + (cy - ay) * (cy - ay)
           = (bx - ax) * (bx - ax) + (by' - ay) * (by' - ay)).
Proof.
  intros Hex (p & A & B & Hp & _)%valid_pairAt.
  rewrite (computeStepOf_valid _ _ _ _ _ _ _ Hp).
  pose proof Hp as (_ & HA & HB)%pairAt_Some.
  assert (HeA : exactPt A) by (by eapply exact_lookup).
  assert (HeB : exactPt B) by (by eapply exact_lookup).
  eexists _, _. split; [done|].
  cbn [stepInfoOf StepInfo.A StepInfo.B StepInfo.C StepInfo.D StepInfo.C2 StepInfo.D2].
  rewrite (candC_exact A B HeA HeB), (candD_exact A B HeA HeB),
    (candC2_exact A B HeA HeB), (candD2_exact A B HeA HeB).
  unfold coords.
  intros cx cy dx' dy' [[= -> -> -> ->] | [= -> -> -> ->]];
    split_and!; try (f_equal; lia); lia.
Qed.

Lemma X4_candidates_form_squares_witness :
  exact axisAligned ∧ valid axisAligned 22
  ∧ ∃ I reg,
      computeStepOf axisAligned 22 ∅ (-1) = Ok (I, reg)
      ∧ (let '(ax, ay) := coords (StepInfo.A I) in
         let '(bx, by') := coords (StepInfo.B I) in
         ∀ cx cy dx' dy' : Z,
           ((cx, cy), (dx', dy')) = (coords (StepInfo.C I), coords (StepInfo.D I))
           ∨ ((cx, cy), (dx', dy')) = (coords (StepInfo.C2 I), coords (StepInfo.D2 I)) →
           (cx - ax, cy - ay) = (dx' - bx, dy' - by')
           ∧ (dx' - cx, dy' - cy) = (bx - ax, by' - ay)
           ∧ (bx - ax) * (cx - ax) + (by' - ay) * (cy - ay) = 0
           ∧ (cx - ax) * (cx - ax) + (cy - ay) * (cy - ay)
             = (bx - ax) * (bx - ax) + (by' - ay) * (by' - ay)).
Proof.
  assert (Hex : exact axisAligned) by exact axisAligned_exact.
  assert (Hv : valid axisAligned 22).
  { unfold valid. vm_compute. split; [discriminate|reflexivity]. }
  split; [exact Hex|]. split; [exact Hv|].
  apply (X4_candidates_form_squares axisAligned 22 ∅ (-1) Hex Hv).
Defined.

(** X5. For a pair of points with different coordinates, safe integers
    all, the two rotations give different square keys, rounded or not, and
    the new keys of the step are the confirmed keys, left before right, that
    the registry passed in does not hold. *)
Theorem X5_newly_is_filter (pts : list Pt) (k : Z) (carry : gset string) (seen : Z)
    (p : Pair) (A B : Pt) :
  pairAt pts (pairs pts) k = Some (p, A, B) → safePt A → safePt B →
  coords A ≠ coords B →
  ∃ I reg,
    computeStepOf pts k carry seen = Ok (I, reg)
    ∧ normalizeSquareKey [A; B; StepInfo.C I; StepInfo.D I]
      ≠ normalizeSquareKey [A; B; StepInfo.C2 I; StepInfo.D2 I]
    ∧ StepInfo.newlyAddedSquares I = filter (λ s, s ∉ carry) (confirmedBy I).
Proof.
  intros Hp HsA HsB Hne. rewrite (computeStepOf_valid _ _ _ _ _ _ _ Hp).
  eexists _, _. split; [done|]. rewrite confirmedBy_stepInfoOf. split.
  - by apply leftKey_rightKey_ne.
  - cbn [stepInfoOf StepInfo.newlyAddedSquares].
    by rewrite addKeys_snd_filter by (by apply confirmed_NoDup).
Qed.

Lemma X5_newly_is_filter_witness :
  pairAt axisAligned (pairs axisAligned) 0
  = Some (Pair.mk 0 1, Pt.mk 1 1 "P0", Pt.mk 3 1 "P1")
  ∧ safePt (Pt.mk 1 1 "P0") ∧ safePt (Pt.mk 3 1 "P1")
  ∧ coords (Pt.mk 1 1 "P0") ≠ coords (Pt.mk 3 1 "P1")
  ∧ (λ carry : gset string,
       ∃ I reg,
         computeStepOf axisAligned 0 carry (-1) = Ok (I, reg)
         ∧ normalizeSquareKey [Pt.mk 1 1 "P0"; Pt.mk 3 1 "P1"; StepInfo.C I; StepInfo.D I]
           ≠ normalizeSquareKey [Pt.mk 1 1 "P0"; Pt.mk 3 1 "P1";
                                 StepInfo.C2 I; StepInfo.D2 I]
         ∧ StepInfo.newlyAddedSquares I = filter (λ s, s ∉ carry) (confirmedBy I)) ∅.
Proof.
  assert (Hp : pairAt axisAligned (pairs axisAligned) 0
               = Some (Pair.mk 0 1, Pt.mk 1 1 "P0", Pt.mk 3 1 "P1")) by reflexivity.
  assert (HsA : safePt (Pt.mk 1 1 "P0")) by (unfold safePt, safe; simpl; lia).
  assert (HsB : safePt (Pt.mk 3 1 "P1")) by (unfold safePt, safe; simpl; lia).
  assert (Hne : coords (Pt.mk 1 1 "P0") ≠ coords (Pt.mk 3 1 "P1")) by discriminate.
  split; [exact Hp|]. split; [exact HsA|]. split; [exact HsB|]. split; [exact Hne|].
  apply (X5_newly_is_filter axisAligned 0 ∅ (-1) _ _ _ Hp HsA HsB Hne).
Defined.

(** X6. For a pair of points with the same coordinates, any integers that
    a JS number can hold, all four candidates are that point, both verdicts
    are true whatever the registry, the two square keys coincide, and the
    step adds that single key unless the registry passed in already holds
    it. *)
Theorem X6_coinciding_points (pts : list Pt) (k : Z) (carry : gset string)
    (seen : Z) (p : Pair) (A B : Pt) :
  pairAt pts (pairs pts) k = Some (p, A, B) → doublePt A → coords A = coords B →
  ∃ I reg,
    computeStepOf pts k carry seen = Ok (I, reg)
    ∧ coords <$> [StepInfo.C I; StepInfo.D I; StepInfo.C2 I; StepInfo.D2 I]
      = [coords A; coords A; coords A; coords A]
    ∧ StepInfo.leftOK I = true ∧ StepInfo.rightOK I = true
    ∧ StepInfo.newlyAddedSquares I
      = (if decide (normalizeSquareKey [A; A; A; A] ∈ carry) then []
         else [normalizeSquareKey [A; A; A; A]]).
Proof.
  intros Hp Hsafe Heq.
  destruct (degenerate_pair_confirmed pts k carry seen p A B Hp Hsafe Heq)
    as (I & reg & HI & _ & _ & HL & HR).
  exists I, reg. split; [done|].
  rewrite (computeStepOf_valid _ _ _ _ _ _ _ Hp) in HI. injection HI as <- _.
  cbn [stepInfoOf StepInfo.leftOK StepInfo.rightOK StepInfo.newlyAddedSquares
       StepInfo.C StepInfo.D StepInfo.C2 StepInfo.D2] in *.
  destruct (cand_coinciding A B Hsafe Heq) as (HC & HD & HC2 & HD2).
  split_and!; [|done|done|].
  - rewrite !fmap_cons, fmap_nil. by rewrite HC, HD, HC2, HD2.
  - unfold confirmed. rewrite HL, HR.
    assert (Hl : leftKey A B = normalizeSquareKey [A; A; A; A]).
    { apply normalizeSquareKey_perm. rewrite !fmap_cons.
      by rewrite HC, HD, <- Heq. }
    rewrite <- (leftKey_rightKey_eq A B Heq), Hl. simpl.
    unfold add_new. simpl. repeat (case_decide; simpl); try done; set_solver.
Qed.

Lemma X6_coinciding_points_witness :
  pairAt duplicated (pairs duplicated) 0
  = Some (Pair.mk 0 1, Pt.mk 1 1 "P0", Pt.mk 1 1 "P1")
  ∧ doublePt (Pt.mk 1 1 "P0")
  ∧ coords (Pt.mk 1 1 "P0") = coords (Pt.mk 1 1 "P1")
  ∧ (λ carry : gset string,
       ∃ I reg,
         computeStepOf duplicated 0 carry (-1) = Ok (I, reg)
         ∧ coords <$> [StepInfo.C I; StepInfo.D I; StepInfo.C2 I; StepInfo.D2 I]
           = [coords (Pt.mk 1 1 "P0"); coords (Pt.mk 1 1 "P0");
              coords (Pt.mk 1 1 "P0"); coords (Pt.mk 1 1 "P0")]
         ∧ StepInfo.leftOK I = true ∧ StepInfo.rightOK I = true
         ∧ StepInfo.newlyAddedSquares I
           = (if decide (normalizeSquareKey
                           [Pt.mk 1 1 "P0"; Pt.mk 1 1 "P0"; Pt.mk 1 1 "P0"; Pt.mk 1 1 "P0"]
                         ∈ carry) then []
              else [normalizeSquareKey
                      [Pt.mk 1 1 "P0"; Pt.mk 1 1 "P0"; Pt.mk 1 1 "P0"; Pt.mk 1 1 "P0"]])) ∅.
Proof.
  assert (Hp : pairAt duplicated (pairs duplicated) 0
               = Some (Pair.mk 0 1, Pt.mk 1 1 "P0", Pt.mk 1 1 "P1")) by reflexivity.
  assert (Hs : doublePt (Pt.mk 1 1 "P0")) by (split; reflexivity).
  assert (Heq : coords (Pt.mk 1 1 "P0") = coords (Pt.mk 1 1 "P1")) by reflexivity.
  split; [exact Hp|]. split; [exact Hs|]. split; [exact Heq|].
  apply (X6_coinciding_points duplicated 0 ∅ (-1) _ _ _ Hp Hs Heq).
Defined.

(** X7. computeStep raises the TypeError exactly for a step index that
    names no pair (negative, or at or beyond the number of pairs), whatever
    the registry and the high-water mark; for every other index it returns
    a result. *)
Theorem X7_computeStep_raises_iff_invalid (pts : list Pt) (k : Z)
    (carry : gset string) (seen : Z) :
  (computeStepOf pts k carry seen = TypeError ↔
     k < 0 ∨ Z.of_nat (length pts * (length pts - 1) / 2) ≤ k)
  ∧ ((∃ r, computeStepOf pts k carry seen = Ok r) ↔
     0 ≤ k < Z.of_nat (length pts * (length pts - 1) / 2)).
Proof.
  rewrite <- length_enumerate, <- pairs_enumerate.
  destruct (decide (valid pts k)) as [Hv|Hv].
  - destruct (valid_pairAt pts k Hv) as (p & A & B & Hp & _).
    rewrite (computeStepOf_valid _ _ _ _ _ _ _ Hp). unfold valid in Hv.
    split; split; try done; try lia. eauto.
  - rewrite (computeStepOf_invalid _ _ _ _ Hv). unfold valid in Hv.
    split; split; try done; try lia. by intros [r ?].
Qed.

(** X8. A step beyond the high-water mark only adds to the registry passed
    in: the registry afterwards is the old one together with the confirmed
    keys, and uniqueCount is the old size plus the number of new keys. *)
Theorem X8_forward_step_accounting (pts : list Pt) (k : Z) (carry : gset string)
    (seen : Z) :
  valid pts k → seen < k →
  ∃ I reg,
    computeStepOf pts k carry seen = Ok (I, reg)
    ∧ reg = carry ∪ list_to_set (confirmedBy I)
    ∧ reg = carry ∪ list_to_set (StepInfo.newlyAddedSquares I)
    ∧ StepInfo.uniqueCount I
      = (size carry + length (StepInfo.newlyAddedSquares I))%nat.
Proof.
  intros Hv Hk. destruct (valid_pairAt pts k Hv) as (p & A & B & Hp & _).
  destruct (newly_against_carry pts k carry seen Hv) as (I & reg & HI & Hnew & Hnd & _).
  exists I, reg. split; [done|].
  rewrite (computeStepOf_valid _ _ _ _ _ _ _ Hp) in HI.
  rewrite decide_False in HI by lia. injection HI as <- <-.
  rewrite confirmedBy_stepInfoOf in *.
  cbn [stepInfoOf StepInfo.newlyAddedSquares StepInfo.uniqueCount] in *.
  set (newly := (addKeys (confirmed (membership pts) A B) (carry, [])).2) in *.
  assert (Hreg : carry ∪ list_to_set (confirmed (membership pts) A B)
                 = carry ∪ list_to_set newly).
  { apply set_eq. intros s. rewrite !elem_of_union, !elem_of_list_to_set, Hnew.
    destruct (decide (s ∈ carry)); tauto. }
  split_and!; [done|done|].
  rewrite Hreg, size_union, size_list_to_set by (try done; set_solver). done.
Qed.

Lemma X8_forward_step_accounting_witness :
  valid axisAligned 38 ∧ 37 < 38
  ∧ ∃ I reg,
      computeStepOf axisAligned 38 {[ "1,1|1,3|3,1|3,3" ]} 37 = Ok (I, reg)
      ∧ reg = {[ "1,1|1,3|3,1|3,3" ]} ∪ list_to_set (confirmedBy I)
      ∧ reg = {[ "1,1|1,3|3,1|3,3" ]} ∪ list_to_set (StepInfo.newlyAddedSquares I)
      ∧ StepInfo.uniqueCount I
        = (size ({[ "1,1|1,3|3,1|3,3" ]} : gset string)
           + length (StepInfo.newlyAddedSquares I))%nat.
Proof.
  assert (Hv : valid axisAligned 38).
  { unfold valid. vm_compute. split; [discriminate|reflexivity]. }
  split; [exact Hv|]. split; [lia|].
  apply (X8_forward_step_accounting axisAligned 38 {[ "1,1|1,3|3,1|3,3" ]} 37 Hv). lia.
Defined.

(** X9. On a step index that names a pair, nextStep moves to the next
    index and wraps from the last to 0, raises the high-water mark to the
    index it leaves, and keeps points, playback flag and speed; prevStep moves
    to the index before and wraps from 0 to the last, touching neither the
    registry nor the high-water mark; each undoes the index change of the
    other. *)
Theorem X9_cyclic_stepping (s : State) (k : Z) :
  step s = Int k → valid (points s) k →
  let len := Z.of_nat (length (pairs (points s))) in
  ∃ s' s'',
    nextStep s = Ok s'
    ∧ step s' = Int (if decide (k + 1 = len) then 0 else k + 1)
    ∧ seenUpToRef s' = Z.max (seenUpToRef s) k
    ∧ (points s', playing s', speed s') = (points s, playing s, speed s)
    ∧ prevStep s
      = mkState (points s) (playing s) (speed s)
          (Int (if decide (k = 0) then len - 1 else k - 1))
          (uniqueSquaresRef s) (seenUpToRef s)
    ∧ step (prevStep s') = step s
    ∧ nextStep (prevStep s) = Ok s'' ∧ step s'' = step s.
Proof.
  intros Hstep Hv. cbv zeta.
  destruct (valid_pairAt _ k Hv) as (p & A & B & Hp & _).
  pose proof Hv as Hk. unfold valid in Hk.
  remember (Z.of_nat (length (pairs (points s)))) as len eqn:Hlen.
  assert (Hnext : ∀ j, 0 ≤ j < len →
            (j + 1) mod len = if decide (j + 1 = len) then 0 else j + 1).
  { intros j Hj. case_decide as Hd.
    - rewrite Hd. apply Z.mod_same. lia.
    - apply Z.mod_small. lia. }
  assert (Hprev : ∀ j, 0 ≤ j < len →
            (j - 1) mod len = if decide (j = 0) then len - 1 else j - 1).
  { intros j Hj. case_decide as Hd.
    - subst j. trans ((len - 1 + (-1) * len) mod len); [f_equal; lia|].
      rewrite Z.mod_add by lia. apply Z.mod_small. lia.
    - apply Z.mod_small. lia. }
  assert (Hps : step (prevStep s) = Int (if decide (k = 0) then len - 1 else k - 1)).
  { rewrite (prevStep_step s k Hstep Hv), <- Hlen. by rewrite Hprev. }
  assert (Hpv : valid (points (prevStep s)) (if decide (k = 0) then len - 1 else k - 1)).
  { unfold valid. simpl. rewrite <- Hlen. case_decide; lia. }
  destruct (valid_pairAt _ _ Hpv) as (p' & A' & B' & Hp' & _).
  unfold nextStep.
  rewrite (nextStepRes_valid s k p A B Hstep Hp).
  rewrite (nextStepRes_valid (prevStep s) _ p' A' B' Hps Hp').
  cbn [mbind result_bind snd points prevStep]. rewrite <- !Hlen.
  eexists _, _. split; [done|]. cbn [step seenUpToRef points playing speed].
  rewrite (Hnext k Hk). split_and!; try done.
  - unfold prevStep. rewrite <- Hlen, Hstep. cbn [num_add num_rem].
    rewrite js_rem_mod by lia. do 2 f_equal.
    rewrite <- (Hprev k Hk). replace (k + -1 + len) with (k - 1 + 1 * len) by lia.
    apply Z.mod_add. lia.
  - clear Hps Hpv Hp'. unfold prevStep. cbn [step points num_add num_rem].
    rewrite <- Hlen, Hstep.
    assert (k + 1 = len ∨ k + 1 ≠ len) as [Hd|Hd] by lia;
      [rewrite decide_True by done|rewrite decide_False by done].
    + rewrite js_rem_mod by lia. f_equal.
      replace (0 + -1 + len) with (len - 1) by lia.
      rewrite Z.mod_small by lia. lia.
    + rewrite js_rem_mod by lia. f_equal.
      replace (k + 1 + -1 + len) with (k + 1 * len) by lia.
      rewrite Z.mod_add by lia. apply Z.mod_small. lia.
  - clear Hps Hpv Hp'. rewrite Hstep.
    assert (k = 0 ∨ k ≠ 0) as [Hd|Hd] by lia.
    + rewrite (decide_True (P := k = 0)) by done. rewrite Hnext by lia.
      rewrite decide_True by lia. cbn [step]. f_equal. lia.
    + rewrite (decide_False (P := k = 0)) by done. rewrite Hnext by lia.
      rewrite decide_False by lia. cbn [step]. f_equal. lia.
Qed.

Lemma X9_cyclic_stepping_witness :
  let s := mkState axisAligned false 900 (Int 65) ∅ 64 in
  step s = Int 65 ∧ valid (points s) 65
  ∧ (let len := Z.of_nat (length (pairs (points s))) in
     ∃ s' s'',
       nextStep s = Ok s'
       ∧ step s' = Int (if decide (65 + 1 = len) then 0 else 65 + 1)
       ∧ seenUpToRef s' = Z.max (seenUpToRef s) 65
       ∧ (points s', playing s', speed s') = (points s, playing s, speed s)
       ∧ prevStep s
         = mkState (points s) (playing s) (speed s)
             (Int (if decide (65 = 0) then len - 1 else 65 - 1))
             (uniqueSquaresRef s) (seenUpToRef s)
       ∧ step (prevStep s') = step s
       ∧ nextStep (prevStep s) = Ok s'' ∧ step s'' = step s).
Proof.
  intros s.
  assert (Hv : valid (points s) 65).
  { unfold valid. vm_compute. split; [discriminate|reflexivity]. }
  split; [reflexivity|]. split; [exact Hv|].
  apply (X9_cyclic_stepping s 65 eq_refl Hv).
Defined.

(** X10. Over a point sequence with at least two points no sequence of
    control actions raises: from the mounted state every sequence of
    nextStep, prevStep, reset, play/pause, speed changes and timer ticks
    ends in a state with the same points, a step index that names a pair, a
    high-water mark between -1 and the last index, and a registry holding
    only keys that some step confirms; the StepInfo of that state can be
    computed. *)
Theorem X10_controls_never_raise (pts : list Pt) (acts : list action) :
  (2 ≤ length pts)%nat →
  ∃ s' I,
    run acts (mount pts) = Ok s'
    ∧ points s' = pts
    ∧ (∃ k, step s' = Int k ∧ 0 ≤ k < Z.of_nat (length (pairs pts)))
    ∧ -1 ≤ seenUpToRef s' < Z.of_nat (length (pairs pts))
    ∧ (∀ key, key ∈ uniqueSquaresRef s' →
         ∃ t J reg, computeStepOf pts t ∅ (-1) = Ok (J, reg) ∧ key ∈ confirmedBy J)
    ∧ info s' = Ok I.
Proof.
  intros Hlen.
  destruct (run_wellFormed acts (mount pts) (mount_wellFormed pts Hlen))
    as (s' & Hrun & Hwf & Hpts).
  destruct (info_wellFormed s' Hwf) as (I & HI & _).
  simpl in Hpts. exists s', I.
  destruct Hwf as ((k & Hstep & Hv) & Hseen & Hreg). rewrite Hpts in *.
  unfold valid in Hv. split_and!; try done; try lia.
  - by exists k.
  - intros key Hkey%Hreg. apply elem_of_registryUpTo in Hkey as (t & Ht & Hkey).
    unfold keysAt in Hkey.
    destruct (pairAt pts (pairs pts) t) as [[[p A] B]|] eqn:Hp;
      [|by apply elem_of_nil in Hkey].
    rewrite <- (confirmedBy_stepInfoOf (membership pts) p A B
                  (addKeys (confirmed (membership pts) A B) (∅, [])).2
                  (size (∅ ∪ list_to_set (confirmed (membership pts) A B) : gset string)))
      in Hkey.
    eexists t, _, _. split; [|exact Hkey].
    rewrite (computeStepOf_valid _ _ _ _ _ _ _ Hp). rewrite decide_False by lia. done.
Qed.

Lemma X10_controls_never_raise_witness :
  (2 ≤ length unitSquare)%nat
  ∧ ∃ s' I,
      run [NextStep; NextStep; PrevStep; TogglePlaying; Tick; Reset; PrevStep; SetSpeed 150]
        (mount unitSquare) = Ok s'
      ∧ points s' = unitSquare
      ∧ (∃ k, step s' = Int k ∧ 0 ≤ k < Z.of_nat (length (pairs unitSquare)))
      ∧ -1 ≤ seenUpToRef s' < Z.of_nat (length (pairs unitSquare))
      ∧ (∀ key, key ∈ uniqueSquaresRef s' →
           ∃ t J reg, computeStepOf unitSquare t ∅ (-1) = Ok (J, reg)
                      ∧ key ∈ confirmedBy J)
      ∧ info s' = Ok I.
Proof.
  assert (Hlen : (2 ≤ length unitSquare)%nat) by (simpl; lia).
  split; [exact Hlen|]. apply (X10_controls_never_raise unitSquare _ Hlen).
Defined.

(** X11. Over a point sequence with at least two points, no two of them
    on the same coordinates, and coordinates of magnitude at most 2^51,
    whatever the history of control actions, every key in the registry is
    the key of a square with its four corners in the point set, and neither
    the registry size nor the uniqueCount on screen, memoised or fresh,
    exceeds the number of distinct such squares. *)
Theorem X11_never_overcounts (pts : list Pt) (acts : list action) :
  (2 ≤ length pts)%nat → NoDup (coords <$> pts) → exact pts →
  ∃ v n,
    component pts acts = Ok v
    ∧ counts_squares pts n
    ∧ (∀ key, key ∈ uniqueSquaresRef (state v) →
         ∃ sq, square_in pts sq ∧ keyOfSquare sq = key)
    ∧ (size (uniqueSquaresRef (state v)) ≤ n)%nat
    ∧ (StepInfo.uniqueCount (shown v) ≤ n)%nat.
Proof.
  intros Hlen Hnd Hex.
  destruct (component_viewOK pts acts Hlen) as (v & Hrun & Hv & Hpts).
  destruct Hv as ((_ & _ & Hreg) & _ & (k & _ & Hb)). rewrite Hpts in *.
  destruct Hb as (p & A & B & newly & count & _ & Hshown & Hcount).
  exists v, (size (allKeys pts)). split_and!; try done.
  - by apply registry_counts_squares.
  - intros key Hkey%Hreg. apply elem_of_registryUpTo in Hkey as (t & _ & Hkey).
    by eapply confirmed_is_square.
  - by apply subseteq_size.
  - by rewrite Hshown.
Qed.

Lemma X11_never_overcounts_witness :
  (2 ≤ length axisAligned)%nat ∧ NoDup (coords <$> axisAligned) ∧ exact axisAligned
  ∧ ∃ v n,
      component axisAligned [NextStep; NextStep; PrevStep; PrevStep; PrevStep; Reset]
      = Ok v
      ∧ counts_squares axisAligned n
      ∧ (∀ key, key ∈ uniqueSquaresRef (state v) →
           ∃ sq, square_in axisAligned sq ∧ keyOfSquare sq = key)
      ∧ (size (uniqueSquaresRef (state v)) ≤ n)%nat
      ∧ (StepInfo.uniqueCount (shown v) ≤ n)%nat.
Proof.
  assert (Hlen : (2 ≤ length axisAligned)%nat) by (simpl; lia).
  assert (Hnd : NoDup (coords <$> axisAligned)).
  { apply (bool_decide_unpack _). vm_compute. exact I. }
  assert (Hex : exact axisAligned) by exact axisAligned_exact.
  split; [exact Hlen|]. split; [exact Hnd|]. split; [exact Hex|].
  apply (X11_never_overcounts axisAligned _ Hlen Hnd Hex).
Defined.

(** X12. reset gives back the mounted state except for the speed, which
    it keeps; resetting twice is resetting once; and pressing Step any
    number of times after a reset yields the StepInfos that the same presses
    yield after mounting. *)
Theorem X12_reset_restores_mount (s : State) (n : nat) :
  reset s = mkState (points s) false (speed s) (Int 0) ∅ (-1)
  ∧ reset (reset s) = reset s
  ∧ (∀ infos,
       (∃ t, play n (reset s) = Ok (infos, t))
       ↔ (∃ t, play n (mount (points s)) = Ok (infos, t))).
Proof.
  split; [done|]. split; [done|].
  assert (Hs : sameTracker (reset s) (mount (points s))) by done.
  intros infos. split; intros [t Ht].
  - destruct (sameTracker_play n _ _ infos t Hs Ht) as (t2 & ? & _). eauto.
  - destruct (sameTracker_play n _ _ infos t (sameTracker_sym _ _ Hs) Ht)
      as (t2 & ? & _). eauto.
Qed.

(** X13. For every point sequence, duplicates included, pressing Step once
    per pair from the mounted state never raises, yields one StepInfo per
    pair with a non-decreasing uniqueCount, ends back on step 0 with the
    high-water mark on the last index, and the last uniqueCount is the size
    of the registry. *)
Theorem X13_forward_run_monotone (pts : list Pt) :
  ∃ infos s',
    play (length (pairs pts)) (mount pts) = Ok (infos, s')
    ∧ length infos = length (pairs pts)
    ∧ (∀ a b Ia Ib, infos !! a = Some Ia → infos !! b = Some Ib → (a ≤ b)%nat →
         (StepInfo.uniqueCount Ia ≤ StepInfo.uniqueCount Ib)%nat)
    ∧ (∀ IF, last infos = Some IF →
         StepInfo.uniqueCount IF = size (uniqueSquaresRef s'))
    ∧ step s' = Int 0
    ∧ seenUpToRef s' = Z.of_nat (length (pairs pts)) - 1.
Proof.
  destruct (forward_run pts) as (infos & s' & Hplay & Hlen & Hmono & Hlast & _).
  exists infos, s'. split_and!; try done.
  - destruct (play_forward pts false 900 (length (pairs pts)) 0)
      as (infos' & Hplay' & _); [lia..|].
    rewrite <- mount_stateAfter, Hplay in Hplay'. injection Hplay' as _ ->.
    simpl. unfold stepAfter. rewrite decide_False by lia. done.
  - destruct (play_forward pts false 900 (length (pairs pts)) 0)
      as (infos' & Hplay' & _); [lia..|].
    rewrite <- mount_stateAfter, Hplay in Hplay'. injection Hplay' as _ ->.
    simpl. lia.
Qed.

(** X14. Along that forward run every key of the final registry is listed
    as newly added by exactly one step: the newlyAddedSquares lists, put
    end to end, have no repetition and hold exactly the keys of the final
    registry, so their lengths add up to the final uniqueCount. *)
Theorem X14_forward_run_new_keys_once (pts : list Pt) :
  ∃ infos s',
    play (length (pairs pts)) (mount pts) = Ok (infos, s')
    ∧ NoDup (infos ≫= StepInfo.newlyAddedSquares)
    ∧ list_to_set (infos ≫= StepInfo.newlyAddedSquares) = uniqueSquaresRef s'
    ∧ length (infos ≫= StepInfo.newlyAddedSquares) = size (uniqueSquaresRef s').
Proof.
  destruct (play_forward pts false 900 (length (pairs pts)) 0)
    as (infos & Hplay & Hinfos); [lia..|].
  rewrite <- mount_stateAfter in Hplay. rewrite Z.add_0_l in Hplay.
  exists infos, (stateAfter pts false 900 (Z.of_nat (length (pairs pts)))).
  split; [exact Hplay|].
  rewrite (forward_infos_newly _ _ _ Hinfos).
  destruct (newlyAt_partition pts (length (pairs pts))) as [Hnd Hset].
  split_and!; [done|done|].
  simpl. rewrite <- Hset. by rewrite size_list_to_set.
Qed.

(** X15. Over a point sequence in which no two points share coordinates
    and the coordinates have magnitude at most 2^51, the uniqueCount at the
    end of the forward run over all pairs is the number of distinct squares
    that have their four corners in the point set. *)
Theorem X15_forward_run_counts_squares (pts : list Pt) :
  NoDup (coords <$> pts) → exact pts →
  ∃ infos s',
    play (length (pairs pts)) (mount pts) = Ok (infos, s')
    ∧ counts_squares pts (size (uniqueSquaresRef s'))
    ∧ (∀ IF, last infos = Some IF →
         counts_squares pts (StepInfo.uniqueCount IF)).
Proof.
  intros Hnd Hex.
  destruct (forward_run pts) as (infos & s' & Hplay & _ & _ & Hlast & Htotal).
  exists infos, s'. split_and!; [done|by apply Htotal|].
  intros IF HIF. rewrite (Hlast IF HIF). by apply Htotal.
Qed.

Lemma X15_forward_run_counts_squares_witness :
  NoDup (coords <$> axisAligned) ∧ exact axisAligned
  ∧ ∃ infos s',
      play (length (pairs axisAligned)) (mount axisAligned) = Ok (infos, s')
      ∧ counts_squares axisAligned (size (uniqueSquaresRef s'))
      ∧ (∀ IF, last infos = Some IF →
           counts_squares axisAligned (StepInfo.uniqueCount IF)).
Proof.
  assert (Hnd : NoDup (coords <$> axisAligned)).
  { apply (bool_decide_unpack _). vm_compute. exact I. }
  assert (Hex : exact axisAligned) by exact axisAligned_exact.
  split; [exact Hnd|]. split; [exact Hex|].
  apply (X15_forward_run_counts_squares axisAligned Hnd Hex).
Defined.

(** X16. Over a point sequence in which no two points share coordinates
    and the coordinates have magnitude at most 2^51, the forward run over
    all pairs confirms every key of the final registry exactly four times,
    once per edge of the square: the true leftOK and rightOK verdicts of the
    run add up to four times the final number of unique squares. *)
Theorem X16_four_confirmations_per_square (pts : list Pt) :
  NoDup (coords <$> pts) → exact pts →
  ∃ infos s',
    play (length (pairs pts)) (mount pts) = Ok (infos, s')
    ∧ (∀ key, key ∈ uniqueSquaresRef s' → occ key (infos ≫= confirmedBy) = 4%nat)
    ∧ (∀ key, key ∉ uniqueSquaresRef s' → occ key (infos ≫= confirmedBy) = 0%nat)
    ∧ (length (filter (λ I, StepInfo.leftOK I = true) infos)
       + length (filter (λ I, StepInfo.rightOK I = true) infos)
       = 4 * size (uniqueSquaresRef s'))%nat.
Proof.
  intros Hnd Hex.
  destruct (forward_run_confirmations pts) as (infos & Hplay & Hconf & Hreg).
  exists infos, (stateAfter pts false 900 (Z.of_nat (length (pairs pts)))).
  split; [exact Hplay|]. rewrite Hreg, Hconf, allKeys_edgeKeys.
  split_and!.
  - intros key Hkey%elem_of_list_to_set. by apply confirmations_occ.
  - intros key Hkey. rewrite elem_of_list_to_set in Hkey.
    unfold occ. destruct (filter _ _) as [|x l] eqn:Hf; [done|].
    assert (Hx : x ∈ filter (key =.) (pairs pts ≫= edgeKeys pts))
      by (rewrite Hf; left).
    apply list_elem_of_filter in Hx as [<- Hx]. done.
  - rewrite <- allKeys_edgeKeys, <- (confirmations_fourfold pts Hnd Hex), <- Hconf.
    clear. induction infos as [|I infos IH]; [done|].
    rewrite bind_cons, length_app, <- IH, !filter_cons. unfold confirmedBy.
    destruct (StepInfo.leftOK I), (StepInfo.rightOK I); simpl;
      repeat case_decide; try done; simpl; lia.
Qed.

Lemma X16_four_confirmations_per_square_witness :
  NoDup (coords <$> axisAligned) ∧ exact axisAligned
  ∧ ∃ infos s',
      play (length (pairs axisAligned)) (mount axisAligned) = Ok (infos, s')
      ∧ (∀ key, key ∈ uniqueSquaresRef s' → occ key (infos ≫= confirmedBy) = 4%nat)
      ∧ (∀ key, key ∉ uniqueSquaresRef s' → occ key (infos ≫= confirmedBy) = 0%nat)
      ∧ (length (filter (λ I, StepInfo.leftOK I = true) infos)
         + length (filter (λ I, StepInfo.rightOK I = true) infos)
         = 4 * size (uniqueSquaresRef s'))%nat.
Proof.
  assert (Hnd : NoDup (coords <$> axisAligned)).
  { apply (bool_decide_unpack _). vm_compute. exact I. }
  assert (Hex : exact axisAligned) by exact axisAligned_exact.
  split; [exact Hnd|]. split; [exact Hex|].
  apply (X16_four_confirmations_per_square axisAligned Hnd Hex).
Defined.

(** X17. The Java reference shown in the walkthrough panel and the
    component agree where no two points share coordinates: for at most
    2^16 points with coordinates between -2^29 and 2^29, countSquares
    returns without throwing, no int or long operation of it wraps, and its
    result is the uniqueCount at the end of the component's forward run over
    all pairs, which is the number of distinct squares with their four
    corners in the point set. *)
Theorem X17_java_reference_agrees (pts : list Pt) :
  NoDup (coords <$> pts) → small pts → Z.of_nat (length pts) ≤ 2 ^ 16 →
  ∃ infos s',
    play (length (pairs pts)) (mount pts) = Ok (infos, s')
    ∧ countSquares (coords <$> pts) = Some (Z.of_nat (size (uniqueSquaresRef s')))
    ∧ (∀ IF, last infos = Some IF →
         countSquares (coords <$> pts) = Some (Z.of_nat (StepInfo.uniqueCount IF)))
    ∧ counts_squares pts (size (uniqueSquaresRef s')).
Proof.
  intros Hnd Hsmall Hlen.
  destruct (forward_run pts) as (infos & s' & Hplay & _ & _ & Hlast & Htotal).
  destruct (forward_run_confirmations pts) as (infos' & Hplay' & _ & Hreg).
  rewrite Hplay in Hplay'. injection Hplay' as _ Hs'.
  exists infos, s'. rewrite Hs', Hreg in *.
  pose proof (countSquares_allKeys pts Hnd Hsmall Hlen) as Hjava.
  split_and!; try done.
  - intros IF HIF. by rewrite (Hlast IF HIF).
  - apply Htotal; [done|]. by apply small_exact.
Qed.

Lemma X17_java_reference_agrees_witness :
  NoDup (coords <$> axisAligned) ∧ small axisAligned
  ∧ Z.of_nat (length axisAligned) ≤ 2 ^ 16
  ∧ ∃ infos s',
      play (length (pairs axisAligned)) (mount axisAligned) = Ok (infos, s')
      ∧ countSquares (coords <$> axisAligned)
        = Some (Z.of_nat (size (uniqueSquaresRef s')))
      ∧ (∀ IF, last infos = Some IF →
           countSquares (coords <$> axisAligned)
           = Some (Z.of_nat (StepInfo.uniqueCount IF)))
      ∧ counts_squares axisAligned (size (uniqueSquaresRef s')).
Proof.
  assert (Hnd : NoDup (coords <$> axisAligned)).
  { apply (bool_decide_unpack _). vm_compute. exact I. }
  assert (Hsmall : small axisAligned).
  { intros p Hp. apply (Forall_forall
      (λ p, - 2 ^ 29 ≤ Pt.x p < 2 ^ 29 ∧ - 2 ^ 29 ≤ Pt.y p < 2 ^ 29) axisAligned);
      [|exact Hp].
    apply (bool_decide_unpack _). vm_compute. exact I. }
  assert (Hlen : Z.of_nat (length axisAligned) ≤ 2 ^ 16) by (simpl; lia).
  split; [exact Hnd|]. split; [exact Hsmall|]. split; [exact Hlen|].
  apply (X17_java_reference_agrees axisAligned Hnd Hsmall Hlen).
Defined.



